(** * mcutils_reborn: the namespace tree, the function compiler and the export pass

    A shallow embedding of [src/mcutils_reborn/__init__.py].  Python objects
    live in a store addressed by locations, so that aliasing (a unit held both
    by its namespace's [children] and by a Function's [current_mcfunction]) is
    explicit.  Methods are actions of a state-and-exception monad; an exception
    leaves the store as it was when it was raised, as in Python. *)

From Stdlib Require Import ZArith DecimalString DecimalNat DecimalFacts.
From stdpp Require Import base option list strings.

(** ** Python dictionaries

    A [dict] keeps insertion order; assigning to a key that is already present
    keeps the key's position and replaces the value. *)

Section Dict.
Context {K V : Type} `{EqDecision K}.

Fixpoint dict_get (k : K) (d : list (K * V)) : option V :=
  match d with
  | [] => None
  | (k', v) :: d' => if decide (k = k') then Some v else dict_get k d'
  end.

Fixpoint dict_set (k : K) (v : V) (d : list (K * V)) : list (K * V) :=
  match d with
  | [] => [(k, v)]
  | (k', v') :: d' =>
      if decide (k = k') then (k, v) :: d' else (k', v') :: dict_set k v d'
  end.

(** [d |= other] *)
Definition dict_update (d other : list (K * V)) : list (K * V) :=
  fold_left (fun acc kv => dict_set kv.1 kv.2 acc) other d.

End Dict.

(** ** Data model *)

(** Locations of the store. *)
Abbreviation loc := nat (only parsing).

(** The values of keyword bindings that are modelled: integers and strings.
    Python compares keys with [==], which on these is equality of the
    values; floats and other objects are left out. *)
Inductive value :=
  | VInt (z : Z)
  | VStr (s : string).

#[global] Instance value_eq_dec : EqDecision value.
Proof. solve_decision. Defined.

(** [tuple(kwargs.items())] *)
Definition kwargs := list (string * value).

Abbreviation callable_id := nat (only parsing).

Inductive UniqueString :=
  | UniqueScoreboardObjective (hint : string) (ns : loc)
  | UniqueScoreboardPlayer (hint : string) (ns : loc)
  | UniqueTag (hint : string) (ns : loc)
  | PathString (target : loc)
  | PlainString (s : string).

Record ScoreboardVar := mkScoreboardVar
  { player : UniqueString; objective : UniqueString }.

#[warnings="-register-all"]
Inductive Command :=
  | Comment (text : string) (fmt_args : list UniqueString)
  | LiteralCommand (text : string) (fmt_args : list UniqueString)
  | FunctionCall (target : loc)
  | ComposedCommand (parts : list Command).

Record MCFunctionData := mkMCFunction
  { description : string;
    tags : list (string + loc);
    commands : list Command;
    mc_continuation : option loc }.

Record FunctionData := mkFunction
  { args : list string;
    continuation : option loc;
    entry_point : loc;
    current_mcfunction : loc;
    was_ended : bool }.

(** The subclasses of [Namespace]. *)
Inductive NamespaceKind :=
  | PlainNamespace
  | IsFunction (fd : FunctionData)
  | IsTemplate (template : callable_id) (functions : list (kwargs * loc))
  | IsClass (inherits_from : list loc).

Inductive payload :=
  | Namespace_ (children : list (string * loc)) (kind : NamespaceKind)
  | MCFunction_ (d : MCFunctionData)
  | FunctionTag_.

(** [Pathable]: every object has a [name] and an optional [parent]. *)
Record obj := mkObj
  { name : string; parent : option loc; body : payload }.

Record state := mkState
  { heap : list obj;
    (** every invocation of a template callable, oldest first *)
    invoked : list (callable_id * kwargs) }.

Inductive key :=
  | StrKey (s : string)
  | TupleKey (kw : kwargs).

Inductive exn :=
  | KeyError (k : key)
  | AssertionError (msg : string)
  | NotImplementedError
  | AttributeError
  | RecursionError.

Inductive result (A : Type) :=
  | Ok (a : A)
  | Raise (e : exn).
Arguments Ok {A} a.
Arguments Raise {A} e.

(** ** The monad of methods *)

Definition M (A : Type) : Type := state -> result A * state.

#[global] Instance M_ret : MRet M := fun A a s => (Ok a, s).
#[global] Instance M_bind : MBind M := fun A B k m s =>
  match m s with
  | (Ok a, s') => k a s'
  | (Raise e, s') => (Raise e, s')
  end.

Definition raise {A} (e : exn) : M A := fun s => (Raise e, s).

#[global] Instance result_ret : MRet result := fun A a => Ok a.
#[global] Instance result_bind : MBind result := fun A B k r =>
  match r with
  | Ok a => k a
  | Raise e => Raise e
  end.

Definition new_object (o : obj) : M loc :=
  fun s => (Ok (length (heap s)), mkState (heap s ++ [o]) (invoked s)).

Definition read (l : loc) : M obj :=
  fun s => match heap s !! l with
           | Some o => (Ok o, s)
           | None => (Raise AttributeError, s)
           end.

Definition write (l : loc) (o : obj) : M unit :=
  fun s => (Ok (), mkState (<[l := o]> (heap s)) (invoked s)).

Fixpoint for_each {A} (f : A -> M unit) (xs : list A) : M unit :=
  match xs with
  | [] => mret ()
  | x :: xs' => f x ;; for_each f xs'
  end.

(** [str(n)] *)
Definition str (n : nat) : string := NilZero.string_of_uint (Nat.to_uint n).

(** ** External collaborators

    The modules [commands], [expressions], [conversion], [conditions],
    [export] and [lib.stack] are outside the core: what the core uses of them
    is taken as an interface. *)

(** An external routine acts on the store only. *)
Definition External (A : Type) : Type := list obj -> result A * list obj.

Class Collaborators := {
  (** [expressions]: an expression and its truth value, [bool(expr)] *)
  Expression : Type;
  truthy : Expression -> bool;
  (** [conversion.var_to_var(src, dst)] *)
  var_to_var : Expression -> ScoreboardVar -> Command;
  (** [conditions]: [condition.to_str()] gives the test and its tokens *)
  Condition : Type;
  to_str : Condition -> string * list UniqueString;
  (** [path_to_str] used by the export assertion *)
  path_to_str : list string -> string;
  (** [lib.std.std_namespace], created when the library is imported *)
  std_namespace : loc;
  (** [lib.stack]: [std_stack_push(stack_nr=...)] gives the push routine *)
  STD_ARGSTACK : nat;
  std_stack_push : nat -> External loc;
  (** the callables held by templates, called with the keyword bindings *)
  callables : callable_id -> kwargs -> External loc
}.

Definition call_external {A} (f : External A) : M A :=
  fun s => let '(r, h') := f (heap s) in (r, mkState h' (invoked s)).

(** ** Pathable *)

Fixpoint path (fuel : nat) (h : list obj) (self : loc) : result (list string) :=
  match fuel with
  | 0 => Raise RecursionError
  | S fuel' =>
      match h !! self with
      | None => Raise AttributeError
      | Some o =>
          match parent o with
          | None => Ok [name o]
          | Some p => pp ← path fuel' h p; Ok (pp ++ [name o])
          end
      end
  end.

(** ** Attribute access

    The fields of an object hold what the source assigns to them; asking an
    object for a field its class does not have is an [AttributeError]. *)

Definition get_children (self : loc) : M (list (string * loc)) :=
  o ← read self;
  match body o with
  | Namespace_ ch _ => mret ch
  | _ => raise AttributeError
  end.

Definition set_children (self : loc) (ch : list (string * loc)) : M unit :=
  o ← read self;
  match body o with
  | Namespace_ _ k => write self (mkObj (name o) (parent o) (Namespace_ ch k))
  | _ => raise AttributeError
  end.

Definition set_kind (self : loc) (k : NamespaceKind) : M unit :=
  o ← read self;
  match body o with
  | Namespace_ ch _ => write self (mkObj (name o) (parent o) (Namespace_ ch k))
  | _ => raise AttributeError
  end.

Definition set_parent (self : loc) (p : option loc) : M unit :=
  o ← read self; write self (mkObj (name o) p (body o)).

Definition get_function (self : loc) : M FunctionData :=
  o ← read self;
  match body o with
  | Namespace_ _ (IsFunction fd) => mret fd
  | _ => raise AttributeError
  end.

Definition set_function (self : loc) (fd : FunctionData) : M unit :=
  o ← read self;
  match body o with
  | Namespace_ ch (IsFunction _) =>
      write self (mkObj (name o) (parent o) (Namespace_ ch (IsFunction fd)))
  | _ => raise AttributeError
  end.

Definition get_mcfunction (self : loc) : M MCFunctionData :=
  o ← read self;
  match body o with
  | MCFunction_ d => mret d
  | _ => raise AttributeError
  end.

Definition set_mcfunction (self : loc) (d : MCFunctionData) : M unit :=
  o ← read self;
  match body o with
  | MCFunction_ _ => write self (mkObj (name o) (parent o) (MCFunction_ d))
  | _ => raise AttributeError
  end.

Definition get_template (self : loc) : M (callable_id * list (kwargs * loc)) :=
  o ← read self;
  match body o with
  | Namespace_ _ (IsTemplate t fns) => mret (t, fns)
  | _ => raise AttributeError
  end.

(** ** Constructors *)

Definition new_Namespace (nm : string) : M loc :=
  new_object (mkObj nm None (Namespace_ [] PlainNamespace)).

Definition new_FunctionTag (nm : string) (parent_ : loc) : M loc :=
  new_object (mkObj nm (Some parent_) FunctionTag_).

Definition new_MCFunction (nm : string) (tags_ : option (list (string + loc)))
    (description_ : string) : M loc :=
  new_object (mkObj nm None
    (MCFunction_ (mkMCFunction description_ (default [] tags_) [] None))).

(** ** Namespace *)

Definition Namespace_add (self : loc) (namespaces : list loc) : M unit :=
  for_each (fun namespace =>
    o ← read namespace;
    ch ← get_children self;
    set_children self (dict_set (name o) namespace ch);;
    set_parent namespace (Some self)) namespaces.

Definition Namespace_create_namespace (self : loc) (nm : string) : M loc :=
  namespace ← new_Namespace nm;
  Namespace_add self [namespace];;
  mret namespace.

Definition Namespace_create_mcfunction (self : loc) (nm : string)
    (tags_ : option (list (string + loc))) (description_ : string) : M loc :=
  mcfunction ← new_MCFunction nm tags_ description_;
  Namespace_add self [mcfunction];;
  mret mcfunction.

Definition Namespace_create_function_tag (self : loc) (nm : string) : M loc :=
  function_tag ← new_FunctionTag nm self;
  set_parent function_tag (Some self);;
  mret function_tag.

(** [Function.init]: a placeholder *)
Definition Function_init (self : loc) : M unit := mret ().

(** [Function(name, args, description=..., tags=...)].  The object is a
    [Function] from its allocation; its own attributes are set after
    [create_mcfunction], which only touches [children]. *)
Definition new_Function (nm : string) (args_ : list string)
    (description_ : string) (tags_ : option (list (string + loc))) : M loc :=
  self ← new_Namespace nm;
  let tags_ := default [] tags_ in
  entry ← Namespace_create_mcfunction self nm (Some tags_) description_;
  set_kind self (IsFunction (mkFunction args_ None entry entry false));;
  Function_init self;;
  mret self.

Definition Namespace_create_function (self : loc) (nm : string)
    (args_ : list string) (description_ : string)
    (tags_ : option (list (string + loc))) : M loc :=
  function ← new_Function nm args_ description_ tags_;
  Namespace_add self [function];;
  mret function.

Definition new_Class (nm : string) (inherits_from : list loc) : M loc :=
  self ← new_Namespace nm;
  set_kind self (IsClass inherits_from);;
  mret self.

Definition Namespace_create_class (self : loc) (nm : string)
    (inherits_from : list loc) : M loc :=
  cls ← new_Class nm inherits_from;
  Namespace_add self [cls];;
  mret cls.

Definition new_Template (nm : string) (template : callable_id) : M loc :=
  self ← new_Namespace nm;
  set_kind self (IsTemplate template []);;
  mret self.

Definition Namespace_create_template (self : loc) (nm : string)
    (template : callable_id) : M loc :=
  template_ ← new_Template nm template;
  Namespace_add self [template_];;
  mret template_.

Definition Namespace_get (h : list obj) (self : loc) (nm : string) : result loc :=
  match h !! self with
  | Some o =>
      match body o with
      | Namespace_ ch _ =>
          match dict_get nm ch with
          | Some c => Ok c
          | None => Raise (KeyError (StrKey nm))
          end
      | _ => Raise AttributeError
      end
  | None => Raise AttributeError
  end.

(** ** MCFunction *)

Definition MCFunction_add_command (self : loc) (command : Command) : M unit :=
  d ← get_mcfunction self;
  set_mcfunction self
    (mkMCFunction (description d) (tags d) (commands d ++ [command])
       (mc_continuation d)).

Definition set_unit_continuation (self : loc) (k : option loc) : M unit :=
  d ← get_mcfunction self;
  set_mcfunction self (mkMCFunction (description d) (tags d) (commands d) k).

Section Methods.
Context `{!Collaborators}.

(** ** lib.std *)

Definition STD_OBJECTIVE : UniqueString :=
  UniqueScoreboardObjective "mcutils_reborn" std_namespace.

Definition Namespace_get_unique_scoreboard_var (self : loc) (player_ : string)
    (objective_ : option UniqueString) : ScoreboardVar :=
  mkScoreboardVar (UniqueScoreboardPlayer player_ self)
    (default STD_OBJECTIVE objective_).

Definition STD_ARG : ScoreboardVar :=
  Namespace_get_unique_scoreboard_var std_namespace "arg" None.

Definition STD_RET : ScoreboardVar :=
  Namespace_get_unique_scoreboard_var std_namespace "ret" None.

(** ** Function *)

Definition Function_describe (self : loc) (description_ : string) : M unit :=
  fd ← get_function self;
  d ← get_mcfunction (entry_point fd);
  set_mcfunction (entry_point fd)
    (mkMCFunction description_ (tags d) (commands d) (mc_continuation d)).

Definition Function_add_command (self : loc) (commands_ : list Command) : M unit :=
  fd ← get_function self;
  if was_ended fd then raise (AssertionError "")
  else
    for_each (fun command =>
      fd ← get_function self;
      MCFunction_add_command (current_mcfunction fd) command) commands_.

Definition Function_comment (self : loc) (text : string)
    (fmt_args : list UniqueString) : M unit :=
  Function_add_command self [Comment text fmt_args].

(** The text of the leading comment of a call. *)
Definition call_comment (arg : option Expression) (varargs : list Expression)
    : string :=
  "calling function %s"
  +:+ (if from_option truthy false arg then " with STD_ARG" else "")
  +:+ (match varargs with
       | [] => ""
       | _ => " with " +:+ str (length varargs) +:+ " varargs"
       end).

(** The body of [c_call_function], with the loop over the varargs as a
    parameter: the call made for a vararg passes no varargs of its own, so
    its loop is empty and the recursion stops there. *)
Definition c_call_function_body (push_varargs : M unit) (self function : loc)
    (arg : option Expression) (varargs : list Expression) : M unit :=
  Function_comment self (call_comment arg varargs) [PathString function];;
  push_varargs;;
  match arg with
  | Some a => Function_add_command self [var_to_var a STD_ARG]
  | None => mret ()
  end;;
  fd ← get_function function;
  Function_add_command self [FunctionCall (entry_point fd)].

Definition Function_c_call_function (self function : loc)
    (arg : option Expression) (varargs : list Expression) : M unit :=
  c_call_function_body
    (for_each (fun vararg =>
       push ← call_external (std_stack_push STD_ARGSTACK);
       c_call_function_body (mret ()) self push (Some vararg) []) varargs)
    self function arg varargs.

Definition Function_c_if (self : loc) (condition : Condition) : M loc :=
  ch ← get_children self;
  if_ ← Namespace_create_function self ("if" +:+ str (length ch)) [] "" None;
  ch ← get_children self;
  new_mcfunc ← Namespace_create_mcfunction self
                 ("if-continue" +:+ str (length ch)) None "";
  (* string, u_strings = condition.to_str() *)
  let string_ := (to_str condition).1 in
  let u_strings := (to_str condition).2 in
  if_fd ← get_function if_;
  Function_add_command self
    [ ComposedCommand
        [ LiteralCommand ("execute if " +:+ string_ +:+ " run") u_strings;
          FunctionCall (entry_point if_fd) ];
      ComposedCommand
        [ LiteralCommand ("execute unless " +:+ string_ +:+ " run") u_strings;
          FunctionCall new_mcfunc ] ];;
  (* if_.continuation = self.current_mcfunction = new_mcfunc *)
  if_fd ← get_function if_;
  set_function if_
    (mkFunction (args if_fd) (Some new_mcfunc) (entry_point if_fd)
       (current_mcfunction if_fd) (was_ended if_fd));;
  fd ← get_function self;
  set_function self
    (mkFunction (args fd) (continuation fd) (entry_point fd) new_mcfunc
       (was_ended fd));;
  mret if_.

Definition Function_c_while (self : loc) : M unit :=
  raise NotImplementedError.

Definition Function_end (self : loc) : M unit :=
  fd ← get_function self;
  if was_ended fd then mret ()
  else
    set_unit_continuation (current_mcfunction fd) (continuation fd);;
    fd ← get_function self;
    set_function self
      (mkFunction (args fd) (continuation fd) (entry_point fd)
         (current_mcfunction fd) true).

Definition Function_return_ (self : loc) (var : Expression) : M unit :=
  Function_add_command self [var_to_var var STD_RET];;
  fd ← get_function self;
  set_unit_continuation (current_mcfunction fd) None.

(** ** Template *)



(** ** Class *)

(** The loop of [Class.get] over the declared parents; [get_] is the method
    [get] of whatever object a parent is, [miss] the [KeyError] being
    handled, which the final [raise] raises again. *)
Fixpoint inherited (get_ : nat -> string -> result nat) (nm : string)
    (miss : exn) (parents : list nat) : result nat :=
  match parents with
  | [] => Raise miss
  | parent_ :: rest =>
      match get_ parent_ nm with
      | Raise (KeyError _) => inherited get_ nm miss rest
      | r => r
      end
  end.

Definition Class_get (get_ : nat -> string -> result nat) (h : list obj)
    (self : nat) (inherits_from : list nat) (nm : string) : result nat :=
  match Namespace_get h self nm with
  | Raise (KeyError k) => inherited get_ nm (KeyError k) inherits_from
  | r => r
  end.

(** [obj.get(name)], by the class of [obj]. *)
Fixpoint get (fuel : nat) (h : list obj) (self : loc) (nm : string) : result loc :=
  match fuel with
  | 0 => Raise RecursionError
  | S fuel' =>
      match h !! self with
      | Some o =>
          match body o with
          | Namespace_ _ (IsClass inherits_from) =>
              Class_get (get fuel' h) h self inherits_from nm
          | Namespace_ _ _ => Namespace_get h self nm
          | _ => Raise AttributeError
          end
      | None => Raise AttributeError
      end
  end.

(** ** Export *)

Definition unit_map := list (list string * loc).

(** The failure of the assertion on [child.was_ended]. *)
Definition unfinished (p : list string) : exn :=
  AssertionError ("Function " +:+ path_to_str p +:+ " was not ended").

(** One turn of the loop of [get_all_mcfunctions]. *)
Definition collect_child (limit : nat) (recurse : loc -> result unit_map)
    (h : list obj) (mcfunctions : unit_map) (child : loc) : result unit_map :=
  match h !! child with
  | None => Raise AttributeError
  | Some o =>
      match body o with
      | MCFunction_ _ =>
          p ← path limit h child; Ok (dict_set p child mcfunctions)
      | Namespace_ _ kind =>
          match kind with
          | IsFunction fd =>
              if was_ended fd then Ok ()
              else
                p ← path limit h child; Raise (unfinished p)
          | _ => Ok ()
          end;;
          sub ← recurse child;
          Ok (dict_update mcfunctions sub)
      | FunctionTag_ => Ok mcfunctions
      end
  end.

Fixpoint fold_result {A B} (f : A -> B -> result A) (acc : A) (xs : list B)
    : result A :=
  match xs with
  | [] => Ok acc
  | x :: xs' => acc' ← f acc x; fold_result f acc' xs'
  end.

(** [limit] bounds the depth of [path]; [fuel] the depth of the walk. *)
Fixpoint get_all_mcfunctions_rec (limit fuel : nat) (h : list obj) (self : loc)
    : result unit_map :=
  match fuel with
  | 0 => Raise RecursionError
  | S fuel' =>
      match h !! self with
      | Some o =>
          match body o with
          | Namespace_ ch _ =>
              fold_result
                (collect_child limit (get_all_mcfunctions_rec limit fuel' h) h)
                [] (ch.*2)
          | _ => Raise AttributeError
          end
      | None => Raise AttributeError
      end
  end.

Definition Namespace_get_all_mcfunctions (limit : nat) (h : list obj)
    (self : loc) : result unit_map :=
  get_all_mcfunctions_rec limit limit h self.

End Methods.

(** ** Context managers *)

(** [Namespace.__enter__] *)
Definition Namespace___enter__ (self : loc) : M loc := mret self.

(** [Namespace.__exit__] *)
Definition Namespace___exit__ (self : loc) : M unit := mret ().

(** [Function.__exit__] *)
Definition Function___exit__ (self : loc) : M unit := Function_end self.

(** The block of a [with] statement whose manager's [__exit__] returns
    [None]: [__exit__] runs however the block is left, and an exception of
    the block is raised again after it. *)
Definition guarded {A} (block : M A) (exit_ : M unit) : M A :=
  fun s =>
    match block s with
    | (Ok a, s1) => (exit_;; mret a) s1
    | (Raise e, s1) => (exit_;; raise e) s1
    end.

(** [with mgr as value: block] *)
Definition with_ {A} (enter : M loc) (exit_ : M unit) (block : loc -> M A) : M A :=
  value ← enter; guarded (block value) exit_.

Definition with_Namespace {A} (self : loc) (block : loc -> M A) : M A :=
  with_ (Namespace___enter__ self) (Namespace___exit__ self) block.

Definition with_Function {A} (self : loc) (block : loc -> M A) : M A :=
  with_ (Namespace___enter__ self) (Function___exit__ self) block.

(** ** lib.std: the module *)

(** What the module binds. *)
Record std_module := mkStd
  { m_std_namespace : loc;
    m_STD_OBJECTIVE : UniqueString;
    m_STD_ARG : ScoreboardVar;
    m_STD_RET : ScoreboardVar;
    m_STD_TAG : UniqueString;
    m_STD_LOAD_TAG : loc;
    m_load : loc }.

Section StdModule.
Context `{!Collaborators}.
(** [tools.log], of the module [tools] *)
Variable log : string -> string -> list Command.
(** The bodies of the modules [tools], [lib.object] and [lib.stack], which
    run when the module imports them (and do nothing if they have been
    imported before).  The module [commands] of line 2 has been imported
    by the package before it imports [lib.std]. *)
Variables import_tools import_object import_stack : External unit.

(** The commands of the load routine. *)
Definition load_commands (objective_ tag_ : UniqueString) (load_tag : loc)
    : list Command :=
  log "mcutils_reborn" "Load standard library..."
  ++ [ Comment "create the std objective" [];
       LiteralCommand "scoreboard objectives add %s dummy" [objective_];
       Comment "reset the std objective" [];
       LiteralCommand "scoreboard players reset * %s" [objective_];
       Comment "Kill all entities with the std tag" [];
       LiteralCommand "kill @e[tag=%s]" [tag_];
       FunctionCall load_tag ]
  ++ log "mcutils_reborn" "Finished reloading!".

(** The statements of the module between its imports, lines 13 to 40. *)
Definition std_statements : M std_module :=
  std_namespace_ ← new_Namespace "mcutils_reborn_std";
  let STD_OBJECTIVE_ := UniqueScoreboardObjective "mcutils_reborn" std_namespace_ in
  let STD_ARG_ := Namespace_get_unique_scoreboard_var std_namespace_ "arg" None in
  let STD_RET_ := Namespace_get_unique_scoreboard_var std_namespace_ "ret" None in
  let STD_TAG_ := UniqueTag "mcutils_reborn" std_namespace_ in
  STD_LOAD_TAG ← Namespace_create_function_tag std_namespace_ "load";
  load ← Namespace_create_function std_namespace_ "load" [] ""
           (Some [inl "minecraft:load"]);
  with_Function load (fun load =>
    Function_describe load "Load the mcutils_reborn standard library.";;
    Function_add_command load (load_commands STD_OBJECTIVE_ STD_TAG_ STD_LOAD_TAG));;
  mret (mkStd std_namespace_ STD_OBJECTIVE_ STD_ARG_ STD_RET_ STD_TAG_
          STD_LOAD_TAG load).

(** The module, run when it is imported: [from .. import tools], the
    statements, [from .object import *], [from .stack import *]. *)
Definition lib_std : M std_module :=
  call_external import_tools;;
  m ← std_statements;
  call_external import_object;;
  call_external import_stack;;
  mret m.

End StdModule.

(** * Vocabulary of the properties *)

(** ** Objects and their fields *)

Definition with_commands (d : MCFunctionData) (cs : list Command) : MCFunctionData :=
  mkMCFunction (description d) (tags d) cs (mc_continuation d).

Definition with_continuation (d : MCFunctionData) (k : option loc) : MCFunctionData :=
  mkMCFunction (description d) (tags d) (commands d) k.

Definition ended (fd : FunctionData) : FunctionData :=
  mkFunction (args fd) (continuation fd) (entry_point fd) (current_mcfunction fd) true.

Definition moved_to (fd : FunctionData) (u : nat) : FunctionData :=
  mkFunction (args fd) (continuation fd) (entry_point fd) u (was_ended fd).

Definition is_function (h : list obj) (l : loc) (fd : FunctionData) : Prop :=
  ∃ o ch, h !! l = Some o ∧ body o = Namespace_ ch (IsFunction fd).

Definition is_unit (h : list obj) (l : loc) (d : MCFunctionData) : Prop :=
  ∃ o, h !! l = Some o ∧ body o = MCFunction_ d.

Definition is_namespace (h : list obj) (l : nat) : Prop :=
  ∃ o ch k, h !! l = Some o ∧ body o = Namespace_ ch k.

Definition parent_of (h : list obj) (l : nat) : option (option nat) :=
  parent <$> h !! l.

Definition name_of (h : list obj) (l : nat) : option string :=
  name <$> h !! l.

(** What a create method leaves: the owner rebinds [nm], the child is new. *)
Definition adopt (o : obj) (ch : list (string * nat)) (k : NamespaceKind)
    (nm : string) (c : nat) : obj :=
  mkObj (name o) (parent o) (Namespace_ (dict_set nm c ch) k).

(** The two objects a new Function consists of, allocated at [l] and [l + 1]. *)
Definition fresh_function (l : nat) (nm : string) (par : option nat)
    (args_ : list string) : obj :=
  mkObj nm par
    (Namespace_ [(nm, l + 1)] (IsFunction (mkFunction args_ None (l + 1) (l + 1) false))).

Definition fresh_unit (nm : string) (par : nat) (tg : list (string + nat))
    (desc : string) : obj :=
  mkObj nm (Some par) (MCFunction_ (mkMCFunction desc tg [] None)).

Definition if_name (ch : list (string * nat)) : string :=
  "if" +:+ str (length ch).

Definition continue_name (ch : list (string * nat)) : string :=
  "if-continue" +:+ str (length ch).

(** The children of the enclosing Function after [c_if], the new objects
    being allocated from [l] on. *)
Definition if_children (ch : list (string * nat)) (l : nat) : list (string * nat) :=
  let ch1 := dict_set (if_name ch) l ch in
  dict_set (continue_name ch1) (l + 2) ch1.

Definition then_branch (l : nat) (nm : string) (self : nat) : obj :=
  mkObj nm (Some self)
    (Namespace_ [(nm, l + 1)]
       (IsFunction (mkFunction [] (Some (l + 2)) (l + 1) (l + 1) false))).

(** ** Trees of namespaces *)

Definition children_of (h : list obj) (l : nat) : list (string * nat) :=
  match h !! l with
  | Some o => match body o with Namespace_ ch _ => ch | _ => [] end
  | None => []
  end.

(** [reach h r c]: [c] is a descendant of [r] along [children]. *)
Inductive reach (h : list obj) : nat → nat → Prop :=
  | reach_child r c : c ∈ (children_of h r).*2 → reach h r c
  | reach_step r m c : m ∈ (children_of h r).*2 → reach h m c → reach h r c.

(** Every child held by some namespace is an object of the store. *)
Definition closed (h : list obj) : bool :=
  forallb (fun o =>
    match body o with
    | Namespace_ ch _ => forallb (fun kc => bool_decide (kc.2 < length h)) ch
    | _ => true
    end) h.

(** A child bound under [key] in the namespace at [l] carries that name and
    has [l] as its parent. *)
Definition child_ok (h : list obj) (l : nat) (kc : string * nat) : bool :=
  match h !! kc.2 with
  | Some oc => bool_decide (name oc = kc.1 ∧ parent oc = Some l)
  | None => false
  end.

(** The objects below [l] form a tree of depth at most [d]: children are
    objects of the store, each owned by the namespace that holds it. *)
Fixpoint tree_ok (d : nat) (h : list obj) (l : nat) : bool :=
  match d with
  | 0 => false
  | S d' =>
      match h !! l with
      | Some o =>
          match body o with
          | Namespace_ ch _ =>
              bool_decide (NoDup ch.*1)
              && forallb (fun kc => child_ok h l kc && tree_ok d' h kc.2) ch
          | _ => true
          end
      | None => false
      end
  end.

Definition unended (h : list obj) (c : nat) : Prop :=
  ∃ fd, is_function h c fd ∧ was_ended fd = false.

(** [c] is one of the children [cs], or below one of them. *)
Definition below (h : list obj) (cs : list (string * nat)) (c : nat) : Prop :=
  ∃ kc, kc ∈ cs ∧ (c = kc.2 ∨ reach h kc.2 c).

(** [p] lies under the child [key] of the node whose path is [pl]. *)
Definition under (pl : list string) (key : string) (p : list string) : Prop :=
  ∃ rest, p = pl ++ key :: rest.

(** ** Results and effects *)


(** The inheritance below [c] is no deeper than [fuel]. *)
Fixpoint inherits_within (fuel : nat) (h : list obj) (c : nat) : bool :=
  match fuel with
  | 0 => false
  | S fuel' =>
      match h !! c with
      | Some o =>
          match body o with
          | Namespace_ _ (IsClass ps) => forallb (inherits_within fuel' h) ps
          | _ => true
          end
      | None => true
      end
  end.

Definition is_KeyError {A} (r : result A) : Prop := ∃ k, r = Raise (KeyError k).

(** ** With the collaborators *)

Section Vocabulary.
Context `{!Collaborators}.

(** The two dispatch commands of [c_if]. *)
Definition if_commands (condition : Condition) (then_entry continue_ : nat)
    : list Command :=
  [ ComposedCommand
      [ LiteralCommand ("execute if " +:+ (to_str condition).1 +:+ " run")
          (to_str condition).2;
        FunctionCall then_entry ];
    ComposedCommand
      [ LiteralCommand ("execute unless " +:+ (to_str condition).1 +:+ " run")
          (to_str condition).2;
        FunctionCall continue_ ] ].

(** What one call emits: the comment, the pushes of its varargs, the
    argument register if an argument is given, the call. *)
Definition call_commands (function entry : nat) (arg : option Expression)
    (varargs : list Expression) (pushes : list Command) : list Command :=
  [Comment (call_comment arg varargs) [PathString function]]
  ++ pushes
  ++ match arg with Some a => [var_to_var a STD_ARG] | None => [] end
  ++ [FunctionCall entry].

(** The push routine is given out without touching the objects in [keep]. *)
Definition stable_push (push : nat) (keep : list nat) : Prop :=
  ∀ h, ∃ h', std_stack_push STD_ARGSTACK h = (Ok push, h') ∧
             ∀ l, l ∈ keep → h' !! l = h !! l.

(** The objects a call works with: the caller [o] at [self], the callee, the
    push routine, and the caller's current unit holding [cmds]. *)
Definition ready (self function push : nat) (o ofn op : obj) (fd : FunctionData)
    (nu : string) (pu : option nat) (d : MCFunctionData)
    (s : state) (cmds : list Command) : Prop :=
  heap s !! self = Some o ∧ heap s !! function = Some ofn ∧
  heap s !! push = Some op ∧
  heap s !! current_mcfunction fd =
    Some (mkObj nu pu (MCFunction_ (with_commands d cmds))).

(** What the push of one vararg emits. *)
Definition push_commands (push : nat) (fdp : FunctionData) (vararg : Expression)
    : list Command :=
  call_commands push (entry_point fdp) (Some vararg) [] [].



(** What the map holds once the children [cs] have been walked. *)
Definition collected (limit : nat) (h : list obj) (cs : list (string * nat))
    (m : unit_map) : Prop :=
  NoDup m.*1 ∧
  (∀ c, below h cs c → ¬ unended h c) ∧
  (∀ p u, dict_get p m = Some u ↔
          below h cs u ∧ (∃ d, is_unit h u d) ∧ path limit h u = Ok p).

(** The outcome of a walk over the children [cs]: it stops at a Function
    that is not ended, or it has collected the units. *)
Definition walked (limit : nat) (h : list obj) (cs : list (string * nat))
    (r : result unit_map) : Prop :=
  (∃ c p, below h cs c ∧ unended h c ∧ path limit h c = Ok p ∧
          r = Raise (unfinished p))
  ∨ (∃ m, r = Ok m ∧ collected limit h cs m).

(** The scenario: a root namespace "ns", a Function "f" without
    parameters, one command, a [c_if], one command in the then-branch, the
    then-branch ended, "f" ended. *)
Definition scenario (first inside : Command) (condition : Condition)
    : M (nat * nat * nat) :=
  ns ← new_Namespace "ns";
  f ← Namespace_create_function ns "f" [] "" None;
  Function_add_command f [first];;
  if_ ← Function_c_if f condition;
  Function_add_command if_ [inside];;
  Function_end if_;;
  Function_end f;;
  mret (ns, f, if_).

(** The export of the scenario from its root, with the stack CPython allows. *)
Definition scenario_export (first inside : Command) (condition : Condition)
    : result unit_map :=
  let '(r, s) := scenario first inside condition (mkState [] []) in
  match r with
  | Ok (ns, _, _) => Namespace_get_all_mcfunctions 1000 (heap s) ns
  | Raise e => Raise e
  end.

(** The store the scenario leaves. *)
Definition scenario_state (first inside : Command) (condition : Condition)
    : state :=
  Eval vm_compute in (scenario first inside condition (mkState [] [])).2.

End Vocabulary.

(** ** A concrete set of collaborators, and concrete stores *)

(** Stand-ins for the external modules: expressions and conditions are their
    own text, the push routine is the Function at location 1, every template
    callable builds a new Function "instance". *)
Definition demo : Collaborators := {|
  Expression := string;
  truthy := fun _ => true;
  var_to_var := fun e v =>
    LiteralCommand "scoreboard players operation %s %s = %s"
      [player v; objective v; PlainString e];
  Condition := string;
  to_str := fun c => (c, []);
  path_to_str := String.concat "/";
  std_namespace := 0;
  STD_ARGSTACK := 0;
  std_stack_push := fun _ h => (Ok 1, h);
  callables := fun _ _ h =>
    let '(r, s) := new_Function "instance" [] "" None (mkState h []) in
    (r, heap s)
|}.

Definition say (text : string) : Command := LiteralCommand ("say " +:+ text) [].

(** "ns" holding the Function "f", not ended. *)
Definition open_state : state :=
  Eval vm_compute in
    ((ns ← new_Namespace "ns"; Namespace_create_function ns "f" [] "" None)
       (mkState [] [])).2.

(** The scenario, run to its end. *)
Definition ended_state : state :=
  Eval vm_compute in @scenario_state demo (say "1") (say "2") "entity @s".

(** The standard namespace with the push routine, a caller "f" and a callee
    "g", none of them ended. *)
Definition calling_state : state :=
  Eval vm_compute in
    ((std ← new_Namespace "mcutils_reborn_std";
      Namespace_create_function std "push" [] "" None;;
      Namespace_create_function std "f" [] "" None;;
      Namespace_create_function std "g" [] "" None)
       (mkState [] [])).2.


(** Class A (location 2) inherits from class B (location 1); "sym" is bound
    on B only, to the namespace at location 3. *)
Definition class_state : state :=
  Eval vm_compute in
    ((ns ← new_Namespace "ns";
      b ← Namespace_create_class ns "B" [];
      a ← Namespace_create_class ns "A" [b];
      Namespace_create_namespace b "sym")
       (mkState [] [])).2.

(** "ns" and two namespaces named "x", neither of them added yet. *)
Definition two_named_x : state :=
  Eval vm_compute in
    ((new_Namespace "ns";; new_Namespace "x";; new_Namespace "x")
       (mkState [] [])).2.



(** The paths the scenario is said to give, below some prefix. *)
Definition claimed_paths (prefix : list string) : list (list string) :=
  [ prefix ++ ["f"]; prefix ++ ["f"; "if0"]; prefix ++ ["f"; "if-continue0"] ].

(** ** Parent chains, and the names of conditionals *)

(** [c] is [x] or one of the first [fuel] objects up the parents of [x]. *)
Fixpoint is_ancestor (fuel : nat) (h : list obj) (c x : nat) : bool :=
  match fuel with
  | 0 => false
  | S fuel' =>
      bool_decide (c = x)
      || match h !! x with
         | Some o =>
             match parent o with
             | Some p => is_ancestor fuel' h c p
             | None => false
             end
         | None => false
         end
  end.

(** No child carries a name that a later [c_if] will use. *)
Definition free_names (ch : list (string * nat)) : Prop :=
  ∀ j, length ch ≤ j →
    dict_get ("if" +:+ str j) ch = None ∧
    dict_get ("if-continue" +:+ str j) ch = None.

(** The two bindings one [c_if] appends when its names are free. *)
Definition if_pair (ch : list (string * nat)) (l : nat) : list (string * nat) :=
  [ ("if" +:+ str (length ch), l); ("if-continue" +:+ str (S (length ch)), l + 2) ].

Section ConditionalRuns.
Context `{!Collaborators}.

(** A run of conditionals on one Function. *)
Fixpoint c_if_all (self : nat) (conditions : list Condition) : M (list nat) :=
  match conditions with
  | [] => mret []
  | condition :: rest =>
      if_ ← Function_c_if self condition;
      ifs ← c_if_all self rest;
      mret (if_ :: ifs)
  end.

(** A conditional inside the then-branch of the first conditional of a new
    Function "f" of a root namespace "ns", everything ended. *)
Definition nested_scenario (outer inner : Condition) : M (nat * nat * nat) :=
  ns ← new_Namespace "ns";
  f ← Namespace_create_function ns "f" [] "" None;
  if_ ← Function_c_if f outer;
  in_ ← Function_c_if if_ inner;
  Function_end in_;;
  Function_end if_;;
  Function_end f;;
  mret (ns, if_, in_).

(** The export of the nested conditional from its root. *)
Definition nested_export (outer inner : Condition) : result unit_map :=
  let '(r, s) := nested_scenario outer inner (mkState [] []) in
  match r with
  | Ok (ns, _, _) => Namespace_get_all_mcfunctions 1000 (heap s) ns
  | Raise e => Raise e
  end.

End ConditionalRuns.

(** ** More concrete collaborators and stores *)

(** As [demo], but with expressions that are falsy, and with a push routine
    and template callables that are still to be written. *)
Definition unwritten : Collaborators := {|
  Expression := string;
  truthy := fun _ => false;
  var_to_var := @var_to_var demo;
  Condition := string;
  to_str := fun c => (c, []);
  path_to_str := String.concat "/";
  std_namespace := 0;
  STD_ARGSTACK := 0;
  std_stack_push := fun _ h => (Raise NotImplementedError, h);
  callables := fun _ _ h => (Raise NotImplementedError, h)
|}.



(** A class "A" whose list of parents holds the class itself. *)
Definition self_inheriting : state :=
  mkState [mkObj "A" None (Namespace_ [] (IsClass [0]))] [].

(** * Properties *)

(** ** Dictionaries *)

Section DictFacts.
Context {K V : Type} `{EqDecision K}.
Implicit Types (d : list (K * V)) (k : K) (v : V).

Lemma dict_get_set_eq k v d : dict_get k (dict_set k v d) = Some v.
Proof.
  induction d as [|[k' v'] d IH]; simpl.
  - by rewrite decide_True.
  - destruct (decide (k = k')) as [->|Hne]; simpl.
    + by rewrite decide_True.
    + by rewrite decide_False.
Qed.

Lemma dict_get_set_ne k k' v d :
  k ≠ k' → dict_get k' (dict_set k v d) = dict_get k' d.
Proof.
  intros Hne. induction d as [|[k0 v0] d IH]; simpl.
  - by rewrite decide_False.
  - destruct (decide (k = k0)) as [->|Hne0]; simpl.
    + by rewrite !decide_False.
    + destruct (decide (k' = k0)); done.
Qed.

Lemma dict_get_set k k' v d :
  dict_get k' (dict_set k v d) = if decide (k = k') then Some v else dict_get k' d.
Proof.
  destruct (decide (k = k')) as [->|Hne].
  - apply dict_get_set_eq.
  - by apply dict_get_set_ne.
Qed.

Lemma dict_get_update k d other :
  dict_get k (dict_update d other) =
    match dict_get k (reverse other) with
    | Some v => Some v
    | None => dict_get k d
    end.
Proof.
  unfold dict_update. revert d.
  induction other as [|[k0 v0] other IH] using rev_ind; intros d.
  - done.
  - rewrite fold_left_app, reverse_app. simpl.
    rewrite dict_get_set. destruct (decide (k0 = k)) as [->|Hne].
    + by rewrite decide_True.
    + rewrite decide_False by done. apply IH.
Qed.

Lemma dict_get_Some_elem k v d : dict_get k d = Some v → (k, v) ∈ d.
Proof.
  induction d as [|[k' v'] d IH]; simpl; [done|].
  destruct (decide (k = k')) as [->|Hne].
  - intros [= ->]. left.
  - intros Hd. right. by apply IH.
Qed.

Lemma dict_get_None_keys k d : dict_get k d = None ↔ k ∉ d.*1.
Proof.
  induction d as [|[k' v'] d IH]; simpl.
  - split; [intros _; apply not_elem_of_nil | done].
  - rewrite not_elem_of_cons. destruct (decide (k = k')) as [->|Hne].
    + split; [done | intros [? _]; done].
    + rewrite IH. split; [intros ?; split; done | intros [_ ?]; done].
Qed.

Lemma dict_get_NoDup k v d : NoDup d.*1 → (k, v) ∈ d → dict_get k d = Some v.
Proof.
  induction d as [|[k' v'] d IH]; simpl.
  - intros _ Hin. by apply elem_of_nil in Hin.
  - rewrite NoDup_cons. intros [Hk Hnd] Hin.
    apply elem_of_cons in Hin as [[= -> ->]|Hin].
    + by rewrite decide_True.
    + destruct (decide (k = k')) as [->|Hne]; [|by apply IH].
      exfalso. apply Hk. apply list_elem_of_fmap. by exists (k', v).
Qed.


End DictFacts.

(** ** The monad *)

Lemma bind_ok {A B} (m : M A) (k : A → M B) s a s' :
  m s = (Ok a, s') → (m ≫= k) s = k a s'.
Proof. intros Hm. unfold mbind, M_bind. by rewrite Hm. Qed.

Lemma bind_raise {A B} (m : M A) (k : A → M B) s e s' :
  m s = (Raise e, s') → (m ≫= k) s = (Raise e, s').
Proof. intros Hm. unfold mbind, M_bind. by rewrite Hm. Qed.

Lemma bind_inv_ok {A B} (m : M A) (k : A → M B) s b s2 :
  (m ≫= k) s = (Ok b, s2) → ∃ a s1, m s = (Ok a, s1) ∧ k a s1 = (Ok b, s2).
Proof.
  unfold mbind, M_bind. destruct (m s) as [[a|e] s1]; [eauto | done].
Qed.

Lemma read_at s l o : heap s !! l = Some o → read l s = (Ok o, s).
Proof. intros Hl. unfold read. by rewrite Hl. Qed.

Lemma read_inv s l o s' : read l s = (Ok o, s') → heap s !! l = Some o ∧ s' = s.
Proof. unfold read. destruct (heap s !! l); naive_solver. Qed.

Lemma state_eta s : mkState (heap s) (invoked s) = s.
Proof. by destruct s. Qed.

(** ** Attribute access *)

Ltac access Hl Hb :=
  unfold get_children, set_children, set_kind, set_parent, get_function,
    set_function, get_mcfunction, set_mcfunction, get_template, mbind, M_bind;
  rewrite (read_at _ _ _ Hl); try rewrite Hb; reflexivity.

Section Access.
Implicit Types (s : state) (l : loc) (o : obj).

Lemma get_children_at s l o ch k :
  heap s !! l = Some o → body o = Namespace_ ch k →
  get_children l s = (Ok ch, s).
Proof. intros Hl Hb. access Hl Hb. Qed.

Lemma set_children_at s l o ch k ch' :
  heap s !! l = Some o → body o = Namespace_ ch k →
  set_children l ch' s =
    (Ok (), mkState (<[l := mkObj (name o) (parent o) (Namespace_ ch' k)]> (heap s))
              (invoked s)).
Proof. intros Hl Hb. access Hl Hb. Qed.

Lemma set_kind_at s l o ch k k' :
  heap s !! l = Some o → body o = Namespace_ ch k →
  set_kind l k' s =
    (Ok (), mkState (<[l := mkObj (name o) (parent o) (Namespace_ ch k')]> (heap s))
              (invoked s)).
Proof. intros Hl Hb. access Hl Hb. Qed.

Lemma set_parent_at s l o p :
  heap s !! l = Some o →
  set_parent l p s =
    (Ok (), mkState (<[l := mkObj (name o) p (body o)]> (heap s)) (invoked s)).
Proof. intros Hl. access Hl Hl. Qed.

Lemma get_function_at s l o ch fd :
  heap s !! l = Some o → body o = Namespace_ ch (IsFunction fd) →
  get_function l s = (Ok fd, s).
Proof. intros Hl Hb. access Hl Hb. Qed.

Lemma set_function_at s l o ch fd fd' :
  heap s !! l = Some o → body o = Namespace_ ch (IsFunction fd) →
  set_function l fd' s =
    (Ok (), mkState
              (<[l := mkObj (name o) (parent o) (Namespace_ ch (IsFunction fd'))]>
                 (heap s))
              (invoked s)).
Proof. intros Hl Hb. access Hl Hb. Qed.

Lemma get_mcfunction_at s l o d :
  heap s !! l = Some o → body o = MCFunction_ d →
  get_mcfunction l s = (Ok d, s).
Proof. intros Hl Hb. access Hl Hb. Qed.

Lemma set_mcfunction_at s l o d d' :
  heap s !! l = Some o → body o = MCFunction_ d →
  set_mcfunction l d' s =
    (Ok (), mkState (<[l := mkObj (name o) (parent o) (MCFunction_ d')]> (heap s))
              (invoked s)).
Proof. intros Hl Hb. access Hl Hb. Qed.


Lemma get_function_inv s l fd s' :
  get_function l s = (Ok fd, s') →
  s' = s ∧ ∃ o ch, heap s !! l = Some o ∧ body o = Namespace_ ch (IsFunction fd).
Proof.
  unfold get_function, mbind, M_bind, read.
  destruct (heap s !! l) as [o|] eqn:Hl; [|done].
  destruct (body o) as [ch [| fd' | |]| |] eqn:Hb; try done.
  intros [= -> ->]. eauto.
Qed.

End Access.

(** ** Units and the cursor of a Function *)

Lemma function_not_unit h l l' fd d : is_function h l fd → is_unit h l' d → l ≠ l'.
Proof. intros (o & ch & Hl & Hb) (o' & Hl' & Hb') ->. congruence. Qed.

Lemma MCFunction_add_command_at s u o d c :
  heap s !! u = Some o → body o = MCFunction_ d →
  MCFunction_add_command u c s =
    (Ok (), mkState
              (<[u := mkObj (name o) (parent o)
                       (MCFunction_ (with_commands d (commands d ++ [c])))]> (heap s))
              (invoked s)).
Proof.
  intros Hl Hb. unfold MCFunction_add_command.
  rewrite (bind_ok _ _ _ _ _ (get_mcfunction_at _ _ _ _ Hl Hb)).
  by rewrite (set_mcfunction_at _ _ _ _ _ Hl Hb).
Qed.

Lemma set_unit_continuation_at s u o d k :
  heap s !! u = Some o → body o = MCFunction_ d →
  set_unit_continuation u k s =
    (Ok (), mkState
              (<[u := mkObj (name o) (parent o) (MCFunction_ (with_continuation d k))]>
                 (heap s))
              (invoked s)).
Proof.
  intros Hl Hb. unfold set_unit_continuation.
  rewrite (bind_ok _ _ _ _ _ (get_mcfunction_at _ _ _ _ Hl Hb)).
  by rewrite (set_mcfunction_at _ _ _ _ _ Hl Hb).
Qed.

Lemma add_commands_loop self cmds : ∀ s o ch fd ou d,
  heap s !! self = Some o → body o = Namespace_ ch (IsFunction fd) →
  heap s !! current_mcfunction fd = Some ou → body ou = MCFunction_ d →
  for_each (fun command =>
      fd ← get_function self;
      MCFunction_add_command (current_mcfunction fd) command) cmds s =
    (Ok (), mkState
              (<[current_mcfunction fd := mkObj (name ou) (parent ou)
                   (MCFunction_ (with_commands d (commands d ++ cmds)))]> (heap s))
              (invoked s)).
Proof.
  induction cmds as [|c cmds IH]; intros s o ch fd ou d Hs Hb Hu Hbu.
  - cbn [for_each]. unfold mret, M_ret. f_equal.
    rewrite app_nil_r. rewrite list_insert_id; [by rewrite state_eta|].
    rewrite Hu. f_equal. destruct ou as [n p b], d. simpl in *. by subst.
  - assert (self ≠ current_mcfunction fd) as Hne.
    { intros Heq. rewrite <- Heq in Hu. congruence. }
    cbn [for_each].
    erewrite bind_ok; last first.
    { erewrite bind_ok by (eapply get_function_at; eauto).
      eapply MCFunction_add_command_at; eauto. }
    rewrite (IH _ o ch fd
               (mkObj (name ou) (parent ou)
                  (MCFunction_ (with_commands d (commands d ++ [c]))))
               (with_commands d (commands d ++ [c]))); simpl.
    + rewrite list_insert_insert_eq. unfold with_commands. simpl.
      by rewrite <- app_assoc.
    + rewrite list_lookup_insert_ne by done. exact Hs.
    + exact Hb.
    + apply list_lookup_insert_eq. by eapply lookup_lt_Some.
    + done.
Qed.

Lemma Function_add_command_open s self cmds o ch fd ou d :
  heap s !! self = Some o → body o = Namespace_ ch (IsFunction fd) →
  was_ended fd = false →
  heap s !! current_mcfunction fd = Some ou → body ou = MCFunction_ d →
  Function_add_command self cmds s =
    (Ok (), mkState
              (<[current_mcfunction fd := mkObj (name ou) (parent ou)
                   (MCFunction_ (with_commands d (commands d ++ cmds)))]> (heap s))
              (invoked s)).
Proof.
  intros Hs Hb Hopen Hu Hbu. unfold Function_add_command.
  erewrite bind_ok by (eapply get_function_at; eauto).
  rewrite Hopen. by eapply add_commands_loop.
Qed.

Lemma Function_add_command_ended s self cmds o ch fd :
  heap s !! self = Some o → body o = Namespace_ ch (IsFunction fd) →
  was_ended fd = true →
  Function_add_command self cmds s = (Raise (AssertionError ""), s).
Proof.
  intros Hs Hb Hended. unfold Function_add_command.
  erewrite bind_ok by (eapply get_function_at; eauto).
  by rewrite Hended.
Qed.

Lemma Function_end_ended s self o ch fd :
  heap s !! self = Some o → body o = Namespace_ ch (IsFunction fd) →
  was_ended fd = true →
  Function_end self s = (Ok (), s).
Proof.
  intros Hs Hb Hended. unfold Function_end.
  erewrite bind_ok by (eapply get_function_at; eauto).
  by rewrite Hended.
Qed.

Lemma Function_end_open s self o ch fd ou d :
  heap s !! self = Some o → body o = Namespace_ ch (IsFunction fd) →
  was_ended fd = false →
  heap s !! current_mcfunction fd = Some ou → body ou = MCFunction_ d →
  Function_end self s =
    (Ok (), mkState
              (<[self := mkObj (name o) (parent o) (Namespace_ ch (IsFunction (ended fd)))]>
                 (<[current_mcfunction fd := mkObj (name ou) (parent ou)
                      (MCFunction_ (with_continuation d (continuation fd)))]> (heap s)))
              (invoked s)).
Proof.
  intros Hs Hb Hopen Hu Hbu.
  assert (self ≠ current_mcfunction fd) as Hne.
  { intros Heq. rewrite <- Heq in Hu. congruence. }
  unfold Function_end.
  erewrite bind_ok by (eapply get_function_at; eauto).
  rewrite Hopen.
  erewrite bind_ok by (eapply set_unit_continuation_at; eauto).
  erewrite bind_ok; last first.
  { eapply get_function_at; [|exact Hb]. simpl.
    rewrite list_lookup_insert_ne by done. exact Hs. }
  erewrite set_function_at; [done| |exact Hb]. simpl.
  rewrite list_lookup_insert_ne by done. exact Hs.
Qed.

(** Whenever [end] returns, the Function is ended. *)
Lemma Function_end_inv s self s' :
  Function_end self s = (Ok (), s') →
  ∃ fd, is_function (heap s') self fd ∧ was_ended fd = true.
Proof.
  unfold Function_end. intros Hend.
  apply bind_inv_ok in Hend as (fd & s1 & Hget & Hend).
  apply get_function_inv in Hget as (-> & o & ch & Hs & Hb).
  destruct (was_ended fd) eqn:Hw.
  - cbv [mret M_ret] in Hend. injection Hend as <-.
    exists fd. split; [exists o, ch; split; assumption | assumption].
  - apply bind_inv_ok in Hend as ([] & s1 & Hset & Hend).
    apply bind_inv_ok in Hend as (fd1 & s2 & Hget & Hend).
    apply get_function_inv in Hget as (-> & o1 & ch1 & Hs1 & Hb1).
    rewrite (set_function_at _ _ _ _ _ _ Hs1 Hb1) in Hend.
    injection Hend as <-. simpl. exists (ended fd1). split; [|done].
    eexists _, ch1.
    split; [apply list_lookup_insert_eq; by eapply lookup_lt_Some | reflexivity].
Qed.

(** ** The store: old objects and freshly allocated ones *)

Lemma lookup_old (h t : list obj) i : i < length h → (h ++ t) !! i = h !! i.
Proof. apply lookup_app_l. Qed.

Lemma lookup_new (h t : list obj) n j : length h = n → (h ++ t) !! (n + j) = t !! j.
Proof.
  intros <-. rewrite lookup_app_r by lia. f_equal. lia.
Qed.

Lemma lookup_new0 (h t : list obj) n : length h = n → (h ++ t) !! n = t !! 0.
Proof. intros Hn. rewrite <- (lookup_new h t n 0 Hn). f_equal. lia. Qed.

Lemma insert_old (h t : list obj) i x :
  i < length h → <[i := x]> (h ++ t) = <[i := x]> h ++ t.
Proof. apply insert_app_l. Qed.

Lemma insert_new (h t : list obj) n j x :
  length h = n → <[n + j := x]> (h ++ t) = h ++ <[j := x]> t.
Proof. intros <-. apply insert_app_r. Qed.

Lemma insert_new0 (h t : list obj) n x :
  length h = n → <[n := x]> (h ++ t) = h ++ <[0 := x]> t.
Proof. intros Hn. rewrite <- (insert_new h t n 0 x Hn). f_equal. lia. Qed.

Lemma snoc_snoc (h : list obj) t x : (h ++ t) ++ [x] = h ++ (t ++ [x]).
Proof. by rewrite <- app_assoc. Qed.

(** After a step: the store back in the shape [old ++ fresh]. *)
Ltac tidy :=
  cbn beta iota;
  cbn [heap invoked name parent body fst snd current_mcfunction entry_point
       continuation was_ended args];
  repeat first
    [ rewrite insert_new0 by (rewrite ?length_insert; reflexivity)
    | rewrite insert_new by (rewrite ?length_insert; reflexivity)
    | rewrite insert_old by (rewrite ?length_insert; lia)
    | rewrite snoc_snoc
    | rewrite length_app
    | rewrite length_insert
    | progress cbn [length app insert list_insert] ].

(** Reading the store at an old or a fresh location. *)
Ltac find :=
  cbn [heap invoked current_mcfunction entry_point ended];
  repeat first
    [ rewrite list_lookup_insert_eq
        by (rewrite ?length_insert, ?length_app, ?length_insert; cbn [length]; lia)
    | rewrite list_lookup_insert_ne by lia
    | rewrite lookup_old by (rewrite ?length_insert; lia)
    | rewrite lookup_new0 by (rewrite ?length_insert; reflexivity)
    | rewrite lookup_new by (rewrite ?length_insert; reflexivity) ];
  first [ eassumption | reflexivity ].

Ltac side := first [ eassumption | reflexivity | lia | find ].

(** One step of a method whose effect is known. *)
Tactic Notation "step" "by" tactic3(tac) :=
  once (erewrite bind_ok by tac; tidy).
Tactic Notation "step" "with" uconstr(lem) :=
  once (erewrite bind_ok; [ | eapply lem; side ]; tidy).

(** ** Namespace.add and the create methods *)

Lemma Namespace_add_one s self c o oc ch k :
  heap s !! self = Some o → body o = Namespace_ ch k →
  heap s !! c = Some oc → c ≠ self →
  Namespace_add self [c] s =
    (Ok (), mkState
              (<[c := mkObj (name oc) (Some self) (body oc)]>
                 (<[self := mkObj (name o) (parent o)
                      (Namespace_ (dict_set (name oc) c ch) k)]> (heap s)))
              (invoked s)).
Proof.
  intros Hs Hb Hc Hne. unfold Namespace_add. cbn [for_each].
  erewrite bind_ok; last first.
  { erewrite bind_ok by (by apply read_at).
    erewrite bind_ok by (by eapply get_children_at).
    erewrite bind_ok by (by eapply set_children_at).
    eapply set_parent_at. simpl. rewrite list_lookup_insert_ne by done. exact Hc. }
  done.
Qed.

(** A namespace added to itself: both updates land on the same object. *)
Lemma Namespace_add_self s self o ch k :
  heap s !! self = Some o → body o = Namespace_ ch k →
  Namespace_add self [self] s =
    (Ok (), mkState
              (<[self := mkObj (name o) (Some self)
                   (Namespace_ (dict_set (name o) self ch) k)]> (heap s))
              (invoked s)).
Proof.
  intros Hs Hb. unfold Namespace_add. cbn [for_each].
  erewrite bind_ok; last first.
  { erewrite bind_ok by (by apply read_at).
    erewrite bind_ok by (by eapply get_children_at).
    erewrite bind_ok by (by eapply set_children_at).
    eapply set_parent_at. simpl. apply list_lookup_insert_eq.
    by eapply lookup_lt_Some. }
  simpl. by rewrite list_insert_insert_eq.
Qed.

Lemma create_child s self o ch k (mk : M nat) (child : obj) :
  heap s !! self = Some o → body o = Namespace_ ch k →
  mk s = (Ok (length (heap s)), mkState (heap s ++ [child]) (invoked s)) →
  (namespace ← mk; Namespace_add self [namespace];; mret namespace) s =
    (Ok (length (heap s)),
     mkState
       (<[self := adopt o ch k (name child) (length (heap s))]> (heap s)
        ++ [mkObj (name child) (Some self) (body child)])
       (invoked s)).
Proof.
  intros Hs Hb Hmk. pose proof (lookup_lt_Some _ _ _ Hs) as Hlt.
  erewrite bind_ok by exact Hmk.
  erewrite bind_ok; last first.
  { eapply Namespace_add_one; cbn [heap].
    - rewrite lookup_old by done. exact Hs.
    - exact Hb.
    - by rewrite lookup_new0.
    - lia. }
  tidy. reflexivity.
Qed.

Lemma Namespace_create_mcfunction_at s self o ch k nm tg desc :
  heap s !! self = Some o → body o = Namespace_ ch k →
  Namespace_create_mcfunction self nm tg desc s =
    (Ok (length (heap s)),
     mkState
       (<[self := adopt o ch k nm (length (heap s))]> (heap s)
        ++ [mkObj nm (Some self)
              (MCFunction_ (mkMCFunction desc (default [] tg) [] None))])
       (invoked s)).
Proof.
  intros Hs Hb. unfold Namespace_create_mcfunction.
  erewrite create_child; [|exact Hs|exact Hb|reflexivity]; reflexivity.
Qed.

Lemma Namespace_create_namespace_at s self o ch k nm :
  heap s !! self = Some o → body o = Namespace_ ch k →
  Namespace_create_namespace self nm s =
    (Ok (length (heap s)),
     mkState
       (<[self := adopt o ch k nm (length (heap s))]> (heap s)
        ++ [mkObj nm (Some self) (Namespace_ [] PlainNamespace)])
       (invoked s)).
Proof.
  intros Hs Hb. unfold Namespace_create_namespace.
  erewrite create_child; [|exact Hs|exact Hb|reflexivity]; reflexivity.
Qed.

Lemma new_Class_at s nm inherits_from :
  new_Class nm inherits_from s =
    (Ok (length (heap s)),
     mkState (heap s ++ [mkObj nm None (Namespace_ [] (IsClass inherits_from))])
       (invoked s)).
Proof.
  unfold new_Class, new_Namespace.
  step by reflexivity.
  step with set_kind_at.
  reflexivity.
Qed.

Lemma Namespace_create_class_at s self o ch k nm inherits_from :
  heap s !! self = Some o → body o = Namespace_ ch k →
  Namespace_create_class self nm inherits_from s =
    (Ok (length (heap s)),
     mkState
       (<[self := adopt o ch k nm (length (heap s))]> (heap s)
        ++ [mkObj nm (Some self) (Namespace_ [] (IsClass inherits_from))])
       (invoked s)).
Proof.
  intros Hs Hb. unfold Namespace_create_class.
  erewrite create_child; [|exact Hs|exact Hb|apply new_Class_at]; reflexivity.
Qed.

Lemma new_Template_at s nm template :
  new_Template nm template s =
    (Ok (length (heap s)),
     mkState (heap s ++ [mkObj nm None (Namespace_ [] (IsTemplate template []))])
       (invoked s)).
Proof.
  unfold new_Template, new_Namespace.
  step by reflexivity.
  step with set_kind_at.
  reflexivity.
Qed.

Lemma Namespace_create_template_at s self o ch k nm template :
  heap s !! self = Some o → body o = Namespace_ ch k →
  Namespace_create_template self nm template s =
    (Ok (length (heap s)),
     mkState
       (<[self := adopt o ch k nm (length (heap s))]> (heap s)
        ++ [mkObj nm (Some self) (Namespace_ [] (IsTemplate template []))])
       (invoked s)).
Proof.
  intros Hs Hb. unfold Namespace_create_template.
  erewrite create_child; [|exact Hs|exact Hb|apply new_Template_at]; reflexivity.
Qed.

Lemma new_Function_at s nm args_ desc tg :
  new_Function nm args_ desc tg s =
    (Ok (length (heap s)),
     mkState
       (heap s ++ [fresh_function (length (heap s)) nm None args_;
                   fresh_unit nm (length (heap s)) (default [] tg) desc])
       (invoked s)).
Proof.
  unfold new_Function, new_Namespace.
  step by reflexivity.
  step with Namespace_create_mcfunction_at.
  step with set_kind_at.
  unfold Function_init. step by reflexivity.
  reflexivity.
Qed.

Lemma Namespace_create_function_at s self o ch k nm args_ desc tg :
  heap s !! self = Some o → body o = Namespace_ ch k →
  Namespace_create_function self nm args_ desc tg s =
    (Ok (length (heap s)),
     mkState
       (<[self := adopt o ch k nm (length (heap s))]> (heap s)
        ++ [fresh_function (length (heap s)) nm (Some self) args_;
            fresh_unit nm (length (heap s)) (default [] tg) desc])
       (invoked s)).
Proof.
  intros Hs Hb. pose proof (lookup_lt_Some _ _ _ Hs) as Hlt.
  unfold Namespace_create_function.
  step by apply new_Function_at.
  step with Namespace_add_one.
  reflexivity.
Qed.

(** ** Conditional lowering *)

Section Lowering.
Context `{!Collaborators}.

Lemma Function_c_if_at s self condition o ch fd ou d :
  heap s !! self = Some o → body o = Namespace_ ch (IsFunction fd) →
  was_ended fd = false →
  heap s !! current_mcfunction fd = Some ou → body ou = MCFunction_ d →
  let l := length (heap s) in
  Function_c_if self condition s =
    (Ok l,
     mkState
       (<[self := mkObj (name o) (parent o)
            (Namespace_ (if_children ch l) (IsFunction (moved_to fd (l + 2))))]>
          (<[current_mcfunction fd := mkObj (name ou) (parent ou)
               (MCFunction_
                  (with_commands d
                     (commands d ++ if_commands condition (l + 1) (l + 2))))]>
             (heap s))
        ++ [ then_branch l (if_name ch) self;
             fresh_unit (if_name ch) l [] "";
             fresh_unit (continue_name (dict_set (if_name ch) l ch)) self [] "" ])
       (invoked s)).
Proof.
  intros Hs Hb Hopen Hu Hbu l.
  pose proof (lookup_lt_Some _ _ _ Hs) as Hlt.
  pose proof (lookup_lt_Some _ _ _ Hu) as Hult.
  assert (self ≠ current_mcfunction fd) as Hne.
  { intros Heq. rewrite <- Heq in Hu. congruence. }
  unfold Function_c_if.
  step by (by eapply get_children_at).
  step with Namespace_create_function_at.
  step with get_children_at.
  step with Namespace_create_mcfunction_at.
  rewrite list_insert_insert_eq. cbv zeta.
  step with get_function_at.
  step with Function_add_command_open.
  step with get_function_at.
  step with set_function_at.
  step with get_function_at.
  step with set_function_at.
  rewrite (list_insert_insert_ne (heap s) (current_mcfunction fd) self) by lia.
  rewrite list_insert_insert_eq.
  reflexivity.
Qed.
End Lowering.

(** ** Namespace.add, whatever is added *)

Lemma Namespace_add_one_effect s self c nm :
  is_namespace (heap s) self → name_of (heap s) c = Some nm →
  ∃ s', Namespace_add self [c] s = (Ok (), s') ∧
    Namespace_get (heap s') self nm = Ok c ∧
    parent_of (heap s') c = Some (Some self) ∧
    is_namespace (heap s') self ∧
    (∀ l, name_of (heap s') l = name_of (heap s) l) ∧
    (∀ l, l ≠ c → parent_of (heap s') l = parent_of (heap s) l).
Proof.
  intros (o & ch & k & Hs & Hb) Hc. unfold name_of in Hc.
  destruct (heap s !! c) as [oc|] eqn:Hoc; [|done]. injection Hc as <-.
  pose proof (lookup_lt_Some _ _ _ Hs) as Hlt.
  pose proof (lookup_lt_Some _ _ _ Hoc) as Hclt.
  destruct (decide (c = self)) as [->|Hne].
  - assert (oc = o) as -> by congruence.
    eexists. split; [by eapply Namespace_add_self|]. cbn [heap].
    unfold Namespace_get, parent_of, name_of, is_namespace.
    rewrite !list_lookup_insert_eq by done. cbn [fmap option_fmap option_map body parent].
    rewrite dict_get_set_eq. repeat split; [by eauto| |].
    + intros l. destruct (decide (l = self)) as [->|Hl].
      * rewrite list_lookup_insert_eq by done. by rewrite Hs.
      * by rewrite list_lookup_insert_ne.
    + intros l Hl. by rewrite list_lookup_insert_ne.
  - eexists. split; [by eapply Namespace_add_one|]. cbn [heap].
    unfold Namespace_get, parent_of, name_of, is_namespace.
    rewrite list_lookup_insert_ne by done.
    rewrite !list_lookup_insert_eq by (by rewrite ?length_insert).
    cbn [fmap option_fmap option_map body parent].
    rewrite dict_get_set_eq. repeat split; [by eauto| |].
    + intros l. destruct (decide (l = c)) as [->|Hl].
      * rewrite list_lookup_insert_eq by (by rewrite length_insert).
        by rewrite Hoc.
      * rewrite list_lookup_insert_ne by done.
        destruct (decide (l = self)) as [->|Hl'].
        -- rewrite list_lookup_insert_eq by done. by rewrite Hs.
        -- by rewrite list_lookup_insert_ne.
    + intros l Hl. rewrite list_lookup_insert_ne by done.
      destruct (decide (l = self)) as [->|Hl'].
      * rewrite list_lookup_insert_eq by done. by rewrite Hs.
      * by rewrite list_lookup_insert_ne.
Qed.

Lemma Namespace_add_two s self c1 c2 s1 s2 :
  Namespace_add self [c1] s = (Ok (), s1) →
  Namespace_add self [c2] s1 = (Ok (), s2) →
  Namespace_add self [c1; c2] s = (Ok (), s2).
Proof.
  unfold Namespace_add. cbn [for_each]. intros H1 H2.
  apply bind_inv_ok in H1 as ([] & s1' & H1 & Hr1).
  cbv [mret M_ret] in Hr1. injection Hr1 as ->.
  by erewrite bind_ok by exact H1.
Qed.

(** C9. Two children added under one local name: the second takes over the
    binding, the first keeps its [parent]; every child added gets the
    namespace as its [parent]. *)
Theorem add_same_name_replaces s n c1 c2 nm :
  is_namespace (heap s) n →
  name_of (heap s) c1 = Some nm → name_of (heap s) c2 = Some nm →
  ∃ s1 s2,
    Namespace_add n [c1] s = (Ok (), s1) ∧
    Namespace_get (heap s1) n nm = Ok c1 ∧
    parent_of (heap s1) c1 = Some (Some n) ∧
    Namespace_add n [c2] s1 = (Ok (), s2) ∧
    Namespace_get (heap s2) n nm = Ok c2 ∧
    parent_of (heap s2) c2 = Some (Some n) ∧
    parent_of (heap s2) c1 = Some (Some n) ∧
    Namespace_add n [c1; c2] s = (Ok (), s2).
Proof.
  intros Hn Hc1 Hc2.
  destruct (Namespace_add_one_effect s n c1 nm Hn Hc1)
    as (s1 & Hadd1 & Hget1 & Hpar1 & Hn1 & Hnames1 & Hpars1).
  assert (name_of (heap s1) c2 = Some nm) as Hc2' by (by rewrite Hnames1).
  destruct (Namespace_add_one_effect s1 n c2 nm Hn1 Hc2')
    as (s2 & Hadd2 & Hget2 & Hpar2 & Hn2 & Hnames2 & Hpars2).
  exists s1, s2. repeat split; try done.
  - destruct (decide (c1 = c2)) as [->|Hne]; [done|].
    by rewrite Hpars2.
  - by eapply Namespace_add_two.
Qed.

(** ** Use after end, and ending twice *)

(** C5. After [end], [add_command] fails with an assertion error (and touches
    nothing); on a Function not yet ended it appends the given commands, in
    order, to the current unit. *)
Theorem add_command_guard s self cmds fd :
  is_function (heap s) self fd →
  (∀ s0, Function_end self s0 = (Ok (), s) →
     Function_add_command self cmds s = (Raise (AssertionError ""), s)) ∧
  (was_ended fd = true →
     Function_add_command self cmds s = (Raise (AssertionError ""), s)) ∧
  (was_ended fd = false →
     ∀ ou d, heap s !! current_mcfunction fd = Some ou → body ou = MCFunction_ d →
       Function_add_command self cmds s =
         (Ok (), mkState
                   (<[current_mcfunction fd := mkObj (name ou) (parent ou)
                        (MCFunction_ (with_commands d (commands d ++ cmds)))]>
                      (heap s))
                   (invoked s))).
Proof.
  intros (o & ch & Hs & Hb). split; [|split].
  - intros s0 Hend.
    apply Function_end_inv in Hend as (fd' & (o' & ch' & Hs' & Hb') & Hended).
    by eapply Function_add_command_ended.
  - intros Hended. by eapply Function_add_command_ended.
  - intros Hopen ou d Hu Hbu. by eapply Function_add_command_open.
Qed.

(** C6. The first [end] wires the current unit's continuation to the
    Function's own and sets [was_ended]; wherever [end] has returned, calling
    it again returns with the state unchanged. *)
Theorem end_idempotent s self o ch fd ou d :
  heap s !! self = Some o → body o = Namespace_ ch (IsFunction fd) →
  was_ended fd = false →
  heap s !! current_mcfunction fd = Some ou → body ou = MCFunction_ d →
  ∃ s1,
    Function_end self s = (Ok (), s1) ∧
    s1 = mkState
           (<[self := mkObj (name o) (parent o) (Namespace_ ch (IsFunction (ended fd)))]>
              (<[current_mcfunction fd := mkObj (name ou) (parent ou)
                   (MCFunction_ (with_continuation d (continuation fd)))]> (heap s)))
           (invoked s) ∧
    Function_end self s1 = (Ok (), s1) ∧
    (∀ sa sb, Function_end self sa = (Ok (), sb) →
       Function_end self sb = (Ok (), sb)).
Proof.
  intros Hs Hb Hopen Hu Hbu. eexists. split; [by eapply Function_end_open|].
  split; [done|].
  assert (∀ sa sb, Function_end self sa = (Ok (), sb) →
            Function_end self sb = (Ok (), sb)) as Hagain.
  { intros sa sb Hend.
    apply Function_end_inv in Hend as (fd' & (o' & ch' & Hs' & Hb') & Hended).
    by eapply Function_end_ended. }
  split; [|exact Hagain].
  eapply Hagain. by eapply Function_end_open.
Qed.

Section LoweringClaims.
Context `{!Collaborators}.

(** C2. [c_if] on a Function not yet ended: two commands are appended to
    the unit that was current; the then-branch and the continuation unit
    are new and distinct; the then-branch continues at the continuation
    unit, also once it has received commands and has been ended; the cursor
    of the enclosing Function is at the continuation unit. *)
Theorem c_if_lowers s self condition o ch fd ou d :
  heap s !! self = Some o → body o = Namespace_ ch (IsFunction fd) →
  was_ended fd = false →
  heap s !! current_mcfunction fd = Some ou → body ou = MCFunction_ d →
  ∃ if_ new_mcfunc s' fd_if,
    Function_c_if self condition s = (Ok if_, s') ∧
    heap s !! if_ = None ∧ heap s !! new_mcfunc = None ∧
    if_ ≠ new_mcfunc ∧
    is_function (heap s') if_ fd_if ∧
    continuation fd_if = Some new_mcfunc ∧
    is_unit (heap s') new_mcfunc (mkMCFunction "" [] [] None) ∧
    is_unit (heap s') (current_mcfunction fd)
      (with_commands d
         (commands d ++ if_commands condition (entry_point fd_if) new_mcfunc)) ∧
    length (if_commands condition (entry_point fd_if) new_mcfunc) = 2 ∧
    is_function (heap s') self (moved_to fd new_mcfunc) ∧
    ∀ cmds, ∃ s'' fd_end dlast,
      (Function_add_command if_ cmds;; Function_end if_) s' = (Ok (), s'') ∧
      is_function (heap s'') if_ fd_end ∧ was_ended fd_end = true ∧
      is_unit (heap s'') (current_mcfunction fd_end) dlast ∧
      mc_continuation dlast = Some new_mcfunc.
Proof.
  intros Hs Hb Hopen Hu Hbu.
  pose proof (lookup_lt_Some _ _ _ Hs) as Hlt.
  pose proof (lookup_lt_Some _ _ _ Hu) as Hult.
  assert (self ≠ current_mcfunction fd) as Hne.
  { intros Heq. rewrite <- Heq in Hu. congruence. }
  pose proof (Function_c_if_at s self condition o ch fd ou d Hs Hb Hopen Hu Hbu)
    as Hif. cbv zeta in Hif.
  eexists (length (heap s)), (length (heap s) + 2), _, _.
  split; [exact Hif|]. cbn [heap].
  split; [by apply lookup_ge_None_2|].
  split; [apply lookup_ge_None_2; lia|].
  split; [lia|].
  split; [eexists _, _; split; [find|reflexivity]|].
  split; [reflexivity|].
  split; [eexists; split; [find|reflexivity]|].
  split; [eexists; split; [find|reflexivity]|].
  split; [reflexivity|].
  split; [eexists _, _; split; [find|reflexivity]|].
  intros cmds.
  eexists _, _, _. split.
  - step with Function_add_command_open.
    erewrite Function_end_open; [|side..]. tidy. reflexivity.
  - cbn [heap]. split; [eexists _, _; split; [find|reflexivity]|].
    split; [reflexivity|].
    split; [eexists; split; [find|reflexivity]|].
    reflexivity.
Qed.
End LoweringClaims.

(** ** What the export walk can reach *)

Lemma closed_child h l c : closed h = true → c ∈ (children_of h l).*2 → c < length h.
Proof.
  unfold closed, children_of. intros Hc Hin.
  destruct (h !! l) as [o|] eqn:Hl; [|by apply elem_of_nil in Hin].
  destruct (body o) as [ch k| |] eqn:Hb; try by apply elem_of_nil in Hin.
  rewrite forallb_forall in Hc.
  specialize (Hc o). rewrite Hb in Hc.
  apply list_elem_of_fmap in Hin as ([k' c'] & -> & Hin).
  assert (In o h) as Ho.
  { apply list_elem_of_In. by eapply list_elem_of_lookup_2. }
  specialize (Hc Ho). rewrite forallb_forall in Hc.
  specialize (Hc (k', c')). apply bool_decide_eq_true in Hc; [done|].
  by apply list_elem_of_In.
Qed.

Lemma children_of_old h t l : l < length h → children_of (h ++ t) l = children_of h l.
Proof. intros Hl. unfold children_of. by rewrite lookup_app_l. Qed.

Lemma reach_last_child h r c : reach h r c → ∃ m, c ∈ (children_of h m).*2.
Proof. induction 1; eauto. Qed.

(** ** Extending the store *)

Lemma path_extend fuel h t l p :
  path fuel h l = Ok p → path fuel (h ++ t) l = Ok p.
Proof.
  revert l p. induction fuel as [|fuel IH]; intros l p; [done|].
  cbn [path]. destruct (h !! l) as [o|] eqn:Hl; [|done].
  rewrite (lookup_app_l_Some _ _ _ _ Hl).
  destruct (parent o) as [q|]; [|done].
  destruct (path fuel h q) as [pp|] eqn:Hq; [|done].
  by rewrite (IH _ _ Hq).
Qed.

Lemma path_more fuel h l p : path fuel h l = Ok p → path (S fuel) h l = Ok p.
Proof.
  revert l p. induction fuel as [|fuel IH]; intros l p; [done|].
  intros Hp. cbn [path] in Hp. change (path (S (S fuel)) h l) with
    (match h !! l with
     | None => Raise AttributeError
     | Some o =>
         match parent o with
         | None => Ok [name o]
         | Some q => pp ← path (S fuel) h q; Ok (pp ++ [name o])
         end
     end).
  destruct (h !! l) as [o|]; [|done].
  destruct (parent o) as [q|]; [|done].
  destruct (path fuel h q) as [pp|] eqn:Hq; [|done].
  by rewrite (IH _ _ Hq).
Qed.

Lemma path_mono fuel fuel' h l p :
  fuel ≤ fuel' → path fuel h l = Ok p → path fuel' h l = Ok p.
Proof.
  induction 1 as [|fuel' Hle IH]; [done|].
  intros Hp. apply path_more. by apply IH.
Qed.

Lemma Namespace_create_function_tag_at s self nm :
  Namespace_create_function_tag self nm s =
    (Ok (length (heap s)),
     mkState (heap s ++ [mkObj nm (Some self) FunctionTag_]) (invoked s)).
Proof.
  unfold Namespace_create_function_tag, new_FunctionTag.
  step by reflexivity.
  step with set_parent_at.
  reflexivity.
Qed.

Section ExportFacts.
Context `{!Collaborators}.

Lemma fold_result_ext {A B} (f g : A → B → result A) xs : ∀ acc r,
  (∀ a x r', x ∈ xs → f a x = Ok r' → g a x = Ok r') →
  fold_result f acc xs = Ok r → fold_result g acc xs = Ok r.
Proof.
  induction xs as [|x xs IH]; intros acc r Hfg; [done|].
  cbn [fold_result]. destruct (f acc x) as [acc'|] eqn:Hf; [|done].
  rewrite (Hfg _ _ _ (list_elem_of_here _ _) Hf).
  cbn [mbind result_bind]. apply IH.
  intros a y r' Hy. apply Hfg. by right.
Qed.

Lemma collect_child_extend limit rec rec' h t acc c m :
  (∀ m', rec c = Ok m' → rec' c = Ok m') →
  collect_child limit rec h acc c = Ok m →
  collect_child limit rec' (h ++ t) acc c = Ok m.
Proof.
  intros Hrec. unfold collect_child.
  destruct (h !! c) as [o|] eqn:Hc; [|done].
  rewrite (lookup_app_l_Some _ _ _ _ Hc).
  destruct (body o) as [ch k|d|]; [| |done].
  - destruct k as [|fd| |]; cbn [mbind result_bind].
    + destruct (rec c) as [sub|] eqn:Hsub; [|done].
      by rewrite (Hrec _ eq_refl).
    + destruct (was_ended fd).
      * destruct (rec c) as [sub|] eqn:Hsub; [|done].
        by rewrite (Hrec _ eq_refl).
      * by destruct (path limit h c).
    + destruct (rec c) as [sub|] eqn:Hsub; [|done].
      by rewrite (Hrec _ eq_refl).
    + destruct (rec c) as [sub|] eqn:Hsub; [|done].
      by rewrite (Hrec _ eq_refl).
  - destruct (path limit h c) as [p|] eqn:Hp; [|done].
    by rewrite (path_extend _ _ _ _ _ Hp).
Qed.

(** An export that succeeded is not changed by objects allocated later. *)
Lemma get_all_mcfunctions_extend limit fuel h t : ∀ r m,
  get_all_mcfunctions_rec limit fuel h r = Ok m →
  get_all_mcfunctions_rec limit fuel (h ++ t) r = Ok m.
Proof.
  induction fuel as [|fuel IH]; intros r m; [done|].
  cbn [get_all_mcfunctions_rec].
  destruct (h !! r) as [o|] eqn:Hr; [|done].
  rewrite (lookup_app_l_Some _ _ _ _ Hr).
  destruct (body o) as [ch k| |]; [|done..].
  apply fold_result_ext. intros a x r' _.
  apply collect_child_extend. apply IH.
Qed.

(** C10. [create_function_tag] gives a tag whose parent is the namespace,
    and whose path is the namespace's path plus its name, but does not
    bind it: [get] still misses, the namespace and every other object are
    as before, no walk along [children] reaches the tag, and an export
    gives what it gave; the other create methods bind what they create. *)
Theorem create_function_tag_unbound s n nm :
  is_namespace (heap s) n →
  Namespace_get (heap s) n nm = Raise (KeyError (StrKey nm)) →
  closed (heap s) = true →
  ∃ tag s',
    Namespace_create_function_tag n nm s = (Ok tag, s') ∧
    heap s !! tag = None ∧
    heap s' !! tag = Some (mkObj nm (Some n) FunctionTag_) ∧
    (∀ fuel p, path fuel (heap s) n = Ok p →
       path (S fuel) (heap s') tag = Ok (p ++ [nm])) ∧
    (∀ l o, heap s !! l = Some o → heap s' !! l = Some o) ∧
    Namespace_get (heap s') n nm = Raise (KeyError (StrKey nm)) ∧
    (∀ r, ¬ reach (heap s') r tag) ∧
    (∀ limit r m, Namespace_get_all_mcfunctions limit (heap s) r = Ok m →
       Namespace_get_all_mcfunctions limit (heap s') r = Ok m) ∧
    (∀ s1 c, Namespace_create_namespace n nm s = (Ok c, s1) →
       Namespace_get (heap s1) n nm = Ok c) ∧
    (∀ tg desc s1 c, Namespace_create_mcfunction n nm tg desc s = (Ok c, s1) →
       Namespace_get (heap s1) n nm = Ok c) ∧
    (∀ ar desc tg s1 c, Namespace_create_function n nm ar desc tg s = (Ok c, s1) →
       Namespace_get (heap s1) n nm = Ok c) ∧
    (∀ ps s1 c, Namespace_create_class n nm ps s = (Ok c, s1) →
       Namespace_get (heap s1) n nm = Ok c) ∧
    (∀ t s1 c, Namespace_create_template n nm t s = (Ok c, s1) →
       Namespace_get (heap s1) n nm = Ok c).
Proof.
  intros (o & ch & k & Hn & Hb) Hmiss Hclosed.
  pose proof (lookup_lt_Some _ _ _ Hn) as Hlt.
  assert (∀ t c, Namespace_get
                   (<[n := adopt o ch k nm c]> (heap s) ++ t) n nm = Ok c) as Hbound.
  { intros t c. unfold Namespace_get.
    rewrite lookup_old by (by rewrite length_insert).
    rewrite list_lookup_insert_eq by done. cbn [body adopt].
    by rewrite dict_get_set_eq. }
  eexists _, _. split; [apply Namespace_create_function_tag_at|]. cbn [heap].
  split; [by apply lookup_ge_None_2|].
  split; [by rewrite lookup_new0|].
  split.
  { intros fuel p Hp. cbn [path]. rewrite lookup_new0 by done.
    cbn [lookup list_lookup parent name].
    by rewrite (path_extend _ _ _ _ _ Hp). }
  split; [intros l ol Hl; by apply lookup_app_l_Some|].
  split.
  { unfold Namespace_get in Hmiss |- *.
    rewrite (lookup_app_l_Some _ _ _ _ Hn). by rewrite Hn in Hmiss. }
  split.
  { intros r Hreach. apply reach_last_child in Hreach as (m & Hin).
    destruct (decide (m < length (heap s))) as [Hm|Hm].
    - rewrite children_of_old in Hin by done.
      apply (closed_child _ _ _ Hclosed) in Hin. lia.
    - unfold children_of in Hin.
      destruct (decide (m = length (heap s))) as [->|Hm'].
      + rewrite lookup_new0 in Hin by done. by apply elem_of_nil in Hin.
      + rewrite lookup_ge_None_2 in Hin; [by apply elem_of_nil in Hin|].
        rewrite length_app. cbn [length]. lia. }
  split.
  { intros limit r m. apply get_all_mcfunctions_extend. }
  split.
  { intros s1 c. rewrite (Namespace_create_namespace_at _ _ _ _ _ _ Hn Hb).
    intros [= <- <-]. apply Hbound. }
  split.
  { intros tg desc s1 c.
    rewrite (Namespace_create_mcfunction_at _ _ _ _ _ _ _ _ Hn Hb).
    intros [= <- <-]. apply Hbound. }
  split.
  { intros ar desc tg s1 c.
    rewrite (Namespace_create_function_at _ _ _ _ _ _ _ _ _ Hn Hb).
    intros [= <- <-]. apply Hbound. }
  split.
  { intros ps s1 c. rewrite (Namespace_create_class_at _ _ _ _ _ _ _ Hn Hb).
    intros [= <- <-]. apply Hbound. }
  intros t s1 c. rewrite (Namespace_create_template_at _ _ _ _ _ _ _ Hn Hb).
  intros [= <- <-]. apply Hbound.
Qed.
End ExportFacts.

(** ** The calling convention *)

Section CallingConvention.
Context `{!Collaborators}.

Section Emit.
Variables (self function push : nat) (o ofn op : obj).
Variables (ch chf chp : list (string * nat)) (fd fdf fdp : FunctionData).
Variables (nu : string) (pu : option nat) (d : MCFunctionData).
Hypothesis Ho : body o = Namespace_ ch (IsFunction fd).
Hypothesis Hopen : was_ended fd = false.
Hypothesis Hofn : body ofn = Namespace_ chf (IsFunction fdf).
Hypothesis Hop : body op = Namespace_ chp (IsFunction fdp).
Hypothesis Hpush :
  stable_push push [self; current_mcfunction fd; push; function].

Local Abbreviation prepared := (ready self function push o ofn op fd nu pu d).

Lemma namespace_not_current s cmds l x :
  prepared s cmds → heap s !! l = Some x →
  (∃ c k, body x = Namespace_ c k) → current_mcfunction fd ≠ l.
Proof.
  intros (_ & _ & _ & Hu) Hl (c & k & Hx) <-. rewrite Hu in Hl.
  injection Hl as <-. done.
Qed.

Lemma add_ready s cmds new :
  prepared s cmds →
  ∃ s', Function_add_command self new s = (Ok (), s') ∧
        invoked s' = invoked s ∧ prepared s' (cmds ++ new).
Proof using Ho Hopen Hofn Hop.
  intros Hready. pose proof Hready as (Hs & Hf & Hp & Hu).
  eexists. split; [by eapply Function_add_command_open|].
  split; [done|]. unfold ready. cbn [heap].
  rewrite !list_lookup_insert_ne
    by (eapply namespace_not_current; eauto).
  rewrite list_lookup_insert_eq by (by eapply lookup_lt_Some).
  done.
Qed.

Lemma push_ready s cmds :
  prepared s cmds →
  ∃ s', call_external (std_stack_push STD_ARGSTACK) s = (Ok push, s') ∧
        invoked s' = invoked s ∧ prepared s' cmds.
Proof using Hpush.
  intros (Hs & Hf & Hp & Hu). unfold call_external.
  destruct (Hpush (heap s)) as (h' & -> & Hkeep).
  eexists. split; [done|]. split; [done|]. unfold ready. cbn [heap].
  rewrite !Hkeep by (rewrite !elem_of_cons; auto). done.
Qed.

(** A call to [callee], one of the Functions at hand, whatever its loop
    over the varargs emits. *)
Lemma body_ready (loop : M unit) pushes callee oc chc fdc arg varargs :
  (∀ s cmds, prepared s cmds → heap s !! callee = Some oc) →
  body oc = Namespace_ chc (IsFunction fdc) →
  (∀ s cmds, prepared s cmds →
     ∃ s', loop s = (Ok (), s') ∧ invoked s' = invoked s ∧
           prepared s' (cmds ++ pushes)) →
  ∀ s cmds, prepared s cmds →
    ∃ s', c_call_function_body loop self callee arg varargs s = (Ok (), s') ∧
          invoked s' = invoked s ∧
          prepared s' (cmds ++ call_commands callee (entry_point fdc) arg varargs pushes).
Proof using Ho Hopen Hofn Hop.
  intros Hcallee Hoc Hloop s cmds Hready.
  unfold c_call_function_body, Function_comment, call_commands.
  destruct (add_ready s cmds [Comment (call_comment arg varargs) [PathString callee]]
              Hready) as (s1 & Hrun1 & Hinv1 & Hready1).
  erewrite bind_ok by exact Hrun1.
  destruct (Hloop s1 _ Hready1) as (s2 & Hrun2 & Hinv2 & Hready2).
  erewrite bind_ok by exact Hrun2.
  assert (∃ s3, match arg with
                | Some a => Function_add_command self [var_to_var a STD_ARG]
                | None => mret ()
                end s2 = (Ok (), s3) ∧ invoked s3 = invoked s2 ∧
            prepared s3 (((cmds ++ [Comment (call_comment arg varargs)
                                   [PathString callee]]) ++ pushes)
                      ++ match arg with
                         | Some a => [var_to_var a STD_ARG]
                         | None => []
                         end)) as (s3 & Hrun3 & Hinv3 & Hready3).
  { destruct arg as [a|].
    - by apply add_ready.
    - exists s2. rewrite app_nil_r. done. }
  erewrite bind_ok by exact Hrun3.
  erewrite bind_ok by (eapply get_function_at; [by eapply Hcallee|exact Hoc]).
  destruct (add_ready s3 _ [FunctionCall (entry_point fdc)] Hready3)
    as (s4 & Hrun4 & Hinv4 & Hready4).
  exists s4. split; [exact Hrun4|]. split; [congruence|].
  by rewrite <- !app_assoc in Hready4.
Qed.

Lemma push_loop_ready varargs : ∀ s cmds,
  prepared s cmds →
  ∃ s', for_each (fun vararg =>
            push_ ← call_external (std_stack_push STD_ARGSTACK);
            c_call_function_body (mret ()) self push_ (Some vararg) [])
          varargs s = (Ok (), s') ∧
        invoked s' = invoked s ∧
        prepared s' (cmds ++ flat_map (push_commands push fdp) varargs).
Proof using Ho Hopen Hofn Hop Hpush.
  induction varargs as [|v varargs IH]; intros s cmds Hready.
  - exists s. cbn [flat_map]. by rewrite app_nil_r.
  - cbn [for_each flat_map].
    destruct (push_ready s cmds Hready) as (s1 & Hrun1 & Hinv1 & Hready1).
    destruct (body_ready (mret ()) [] push op chp fdp (Some v) []) with
      (s := s1) (cmds := cmds) as (s2 & Hrun2 & Hinv2 & Hready2).
    { by intros s0 cmds0 (_ & _ & Hp & _). }
    { exact Hop. }
    { intros s0 cmds0 Hr0. exists s0. by rewrite app_nil_r. }
    { exact Hready1. }
    destruct (IH s2 _ Hready2) as (s3 & Hrun3 & Hinv3 & Hready3).
    exists s3. split; [|split].
    + erewrite bind_ok; [exact Hrun3|].
      erewrite bind_ok by exact Hrun1. exact Hrun2.
    + congruence.
    + by rewrite <- app_assoc in Hready3.
Qed.

Lemma Function_c_call_function_ready arg varargs s cmds :
  prepared s cmds →
  ∃ s', Function_c_call_function self function arg varargs s = (Ok (), s') ∧
        invoked s' = invoked s ∧
        prepared s' (cmds ++ call_commands function (entry_point fdf) arg varargs
                            (flat_map (push_commands push fdp) varargs)).
Proof using Ho Hopen Hofn Hop Hpush.
  intros Hready. unfold Function_c_call_function.
  eapply body_ready; [|exact Hofn| |exact Hready].
  - by intros s0 cmds0 (_ & Hf & _ & _).
  - intros s0 cmds0. apply push_loop_ready.
Qed.
End Emit.

Lemma stable_push_subset push keep keep' :
  keep' ⊆ keep → stable_push push keep → stable_push push keep'.
Proof.
  intros Hsub Hp h. destruct (Hp h) as (h' & Hrun & Hkeep).
  exists h'. split; [done|]. intros l Hl. apply Hkeep. by apply Hsub.
Qed.

Lemma with_commands_id d : with_commands d (commands d) = d.
Proof. by destruct d. Qed.

(** C8. The commands a call appends to the current unit, in order: (the
    comment, then) for each vararg in call-site order what a call of the
    push routine with that vararg as its argument emits, then the argument
    register if an argument is given, and last the call of the callee's
    entry unit. *)
Theorem c_call_function_order s self function push o ofn op ch chf chp
    fd fdf fdp ou d arg varargs :
  heap s !! self = Some o → body o = Namespace_ ch (IsFunction fd) →
  was_ended fd = false →
  heap s !! current_mcfunction fd = Some ou → body ou = MCFunction_ d →
  heap s !! function = Some ofn → body ofn = Namespace_ chf (IsFunction fdf) →
  heap s !! push = Some op → body op = Namespace_ chp (IsFunction fdp) →
  stable_push push [self; current_mcfunction fd; push; function] →
  let push_block v :=
    [ Comment (call_comment (Some v) []) [PathString push];
      var_to_var v STD_ARG;
      FunctionCall (entry_point fdp) ] in
  let emitted :=
    [Comment (call_comment arg varargs) [PathString function]]
    ++ flat_map push_block varargs
    ++ match arg with Some a => [var_to_var a STD_ARG] | None => [] end
    ++ [FunctionCall (entry_point fdf)] in
  (∃ s', Function_c_call_function self function arg varargs s = (Ok (), s') ∧
         is_unit (heap s') (current_mcfunction fd)
           (with_commands d (commands d ++ emitted))) ∧
  last emitted = Some (FunctionCall (entry_point fdf)) ∧
  (∀ v, ∃ sv, Function_c_call_function self push (Some v) [] s = (Ok (), sv) ∧
              is_unit (heap sv) (current_mcfunction fd)
                (with_commands d (commands d ++ push_block v))).
Proof.
  intros Hs Ho Hopen Hu Hou Hf Hofn Hp Hop Hpush push_block emitted.
  assert (ready self function push o ofn op fd (name ou) (parent ou) d s
            (commands d)) as Hready.
  { unfold ready. rewrite with_commands_id. repeat split; try done.
    rewrite Hu. f_equal. destruct ou; cbn in *. by subst. }
  split; [|split].
  - destruct (Function_c_call_function_ready self function push o ofn op
                ch chf chp fd fdf fdp (name ou) (parent ou) d Ho Hopen Hofn Hop
                Hpush arg varargs s (commands d) Hready)
      as (s' & Hrun & _ & (_ & _ & _ & Hunit)).
    exists s'. split; [exact Hrun|]. eexists. split; [exact Hunit|done].
  - subst emitted. rewrite !app_assoc. apply last_snoc.
  - intros v.
    assert (ready self push push o op op fd (name ou) (parent ou) d s
              (commands d)) as Hready'.
    { destruct Hready as (? & ? & ? & ?). by unfold ready. }
    destruct (Function_c_call_function_ready self push push o op op
                ch chp chp fd fdp fdp (name ou) (parent ou) d Ho Hopen Hop Hop)
      with (arg := Some v) (varargs := @nil Expression) (s := s)
           (cmds := commands d) as (sv & Hrun & _ & (_ & _ & _ & Hunit)).
    { eapply stable_push_subset; [|exact Hpush].
      intros l. rewrite !elem_of_cons. tauto. }
    { exact Hready'. }
    exists sv. split; [exact Hrun|]. eexists. split; [exact Hunit|done].
Qed.
End CallingConvention.

(** ** The record of invocations *)













(** [end] touches the Function and its current unit, nothing else. *)
Lemma Function_end_frame s func s' l x ch t fns :
  Function_end func s = (Ok (), s') →
  heap s !! l = Some x → body x = Namespace_ ch (IsTemplate t fns) →
  heap s' !! l = Some x.
Proof.
  unfold Function_end. intros Hend Hl Hx.
  apply bind_inv_ok in Hend as (fd & s1 & Hget & Hend).
  apply get_function_inv in Hget as (-> & o & cf & Hs & Hb).
  destruct (was_ended fd).
  - cbv [mret M_ret] in Hend. by injection Hend as <-.
  - apply bind_inv_ok in Hend as ([] & s1 & Hset & Hend).
    unfold set_unit_continuation in Hset.
    apply bind_inv_ok in Hset as (du & s0 & Hgetu & Hset).
    unfold get_mcfunction in Hgetu.
    apply bind_inv_ok in Hgetu as (ou & s0' & Hread & Hgetu).
    apply read_inv in Hread as (Hu & ->).
    destruct (body ou) as [| du' |] eqn:Hbu; try done.
    cbv [mret M_ret] in Hgetu. injection Hgetu as -> ->.
    rewrite (set_mcfunction_at _ _ _ _ _ Hu Hbu) in Hset. injection Hset as <-.
    assert (l ≠ current_mcfunction fd) as Hne1 by (intros ->; congruence).
    assert (l ≠ func) as Hne2 by (intros ->; congruence).
    apply bind_inv_ok in Hend as (fd1 & s2 & Hget & Hend).
    apply get_function_inv in Hget as (-> & o1 & c1 & Hs1 & Hb1).
    rewrite (set_function_at _ _ _ _ _ _ Hs1 Hb1) in Hend.
    injection Hend as <-. cbn [heap].
    by rewrite !list_lookup_insert_ne.
Qed.

(** ** The template memoizer *)


Section Templates.
Context `{!Collaborators}.









End Templates.

(** ** Class symbol lookup *)

Lemma Namespace_get_not_recursion h c nm : Namespace_get h c nm ≠ Raise RecursionError.
Proof.
  unfold Namespace_get. destruct (h !! c) as [o|]; [|done].
  destruct (body o) as [ch k| |]; [|done..]. by destruct (dict_get nm ch).
Qed.

Lemma inherited_skip get_ nm miss ps1 ps2 :
  Forall (fun q => is_KeyError (get_ q nm)) ps1 →
  inherited get_ nm miss (ps1 ++ ps2) = inherited get_ nm miss ps2.
Proof.
  induction 1 as [|q ps1 [k Hq] _ IH]; [done|].
  cbn [app inherited]. by rewrite Hq.
Qed.

Lemma inherited_first get_ nm miss p ps r :
  get_ p nm = r → ¬ is_KeyError r → inherited get_ nm miss (p :: ps) = r.
Proof.
  intros Hp Hr. cbn [inherited]. rewrite Hp.
  destruct r as [v|[k| | | |]]; try done. exfalso. apply Hr. by exists k.
Qed.

Lemma inherited_total get_ nm k ps :
  Forall (fun q => get_ q nm ≠ Raise RecursionError) ps →
  inherited get_ nm (KeyError k) ps ≠ Raise RecursionError.
Proof.
  induction 1 as [|q ps Hq _ IH]; [done|].
  cbn [inherited]. by destruct (get_ q nm) as [v|[k'| | | |]].
Qed.

Lemma inherited_mono (get_ get_' : nat → string → result nat) nm miss ps r :
  (∀ q r, get_ q nm = r → r ≠ Raise RecursionError → get_' q nm = r) →
  miss ≠ RecursionError →
  inherited get_ nm miss ps = r → r ≠ Raise RecursionError →
  inherited get_' nm miss ps = r.
Proof.
  intros Hmono Hmiss. induction ps as [|q ps IH]; [done|].
  cbn [inherited]. intros Hr Hnr.
  destruct (get_ q nm) as [v|e] eqn:Hq.
  - by rewrite (Hmono _ _ Hq).
  - destruct e as [k| | | |]; try (by rewrite (Hmono _ _ Hq)).
    rewrite (Hmono _ _ Hq) by done. by apply IH.
Qed.

Lemma get_unfold fuel h c nm :
  get (S fuel) h c nm =
    match h !! c with
    | Some o =>
        match body o with
        | Namespace_ _ (IsClass inherits_from) =>
            Class_get (get fuel h) h c inherits_from nm
        | Namespace_ _ _ => Namespace_get h c nm
        | _ => Raise AttributeError
        end
    | None => Raise AttributeError
    end.
Proof. reflexivity. Qed.

(** Within the depth of the inheritance, [get] does not run out of stack. *)
Lemma get_total fuel : ∀ h c nm,
  inherits_within fuel h c = true → get fuel h c nm ≠ Raise RecursionError.
Proof.
  induction fuel as [|fuel IH]; intros h c nm; [done|].
  rewrite get_unfold. cbn [inherits_within].
  destruct (h !! c) as [o|] eqn:Hc; [|done].
  destruct (body o) as [ch [| | |ps]| |] eqn:Hb;
    try done; try (intros _; apply Namespace_get_not_recursion).
  intros Hps. unfold Class_get.
  pose proof (Namespace_get_not_recursion h c nm) as Hn.
  destruct (Namespace_get h c nm) as [v|[k| | | |]]; try done.
  apply inherited_total. rewrite forallb_forall in Hps.
  apply Forall_forall. intros q Hq. apply IH, Hps. by apply list_elem_of_In.
Qed.

(** A result that is not a stack overflow is the result at any greater depth. *)
Lemma get_more fuel : ∀ h c nm r,
  get fuel h c nm = r → r ≠ Raise RecursionError → get (S fuel) h c nm = r.
Proof.
  induction fuel as [|fuel IH]; intros h c nm r Hr Hnr.
  - cbn [get] in Hr. congruence.
  - rewrite get_unfold in Hr. rewrite get_unfold.
    destruct (h !! c) as [o|] eqn:Hc; [|done].
    destruct (body o) as [ch [| | |ps]| |] eqn:Hb; try done.
    unfold Class_get in *.
    destruct (Namespace_get h c nm) as [v|[k| | | |]]; try done.
    eapply inherited_mono; [|done|exact Hr|exact Hnr].
    intros q r0. apply IH.
Qed.

(** C7. [Class.get]: the direct child if there is one; otherwise the result
    of the first declared parent whose own [get] does not miss; a miss
    ([KeyError]) if the class and every parent miss.  In particular a
    symbol bound only on the parent B of A is found through A.  Within the
    depth of the inheritance the lookup returns, and more stack does not
    change what it returns. *)
Theorem class_get_resolution fuel h c o ch ps nm :
  h !! c = Some o → body o = Namespace_ ch (IsClass ps) →
  (∀ v, dict_get nm ch = Some v → get (S fuel) h c nm = Ok v) ∧
  (dict_get nm ch = None →
   ∀ ps1 p ps2 r, ps = ps1 ++ p :: ps2 →
     Forall (fun q => is_KeyError (get fuel h q nm)) ps1 →
     get fuel h p nm = r → ¬ is_KeyError r →
     get (S fuel) h c nm = r) ∧
  (dict_get nm ch = None →
   Forall (fun q => is_KeyError (get fuel h q nm)) ps →
   get (S fuel) h c nm = Raise (KeyError (StrKey nm))) ∧
  (dict_get nm ch = None →
   ∀ b ob chb kb v, ps = [b] →
     h !! b = Some ob → body ob = Namespace_ chb kb → dict_get nm chb = Some v →
     get (S (S fuel)) h c nm = Ok v) ∧
  (inherits_within (S fuel) h c = true →
   get (S fuel) h c nm ≠ Raise RecursionError) ∧
  (∀ r, get (S fuel) h c nm = r → r ≠ Raise RecursionError →
        get (S (S fuel)) h c nm = r).
Proof.
  intros Hc Hb.
  assert (∀ f, get (S f) h c nm = Class_get (get f h) h c ps nm) as Hget.
  { intros f. rewrite get_unfold, Hc, Hb. done. }
  assert (dict_get nm ch = None →
          ∀ f, get (S f) h c nm = inherited (get f h) nm (KeyError (StrKey nm)) ps)
    as Hmiss.
  { intros Hnone f. rewrite Hget. unfold Class_get, Namespace_get.
    by rewrite Hc, Hb, Hnone. }
  split; [|split; [|split; [|split; [|split]]]].
  - intros v Hv. rewrite Hget. unfold Class_get, Namespace_get.
    by rewrite Hc, Hb, Hv.
  - intros Hnone ps1 p ps2 r -> Hps1 Hp Hr.
    rewrite (Hmiss Hnone), inherited_skip by done.
    by apply inherited_first.
  - intros Hnone Hps. rewrite (Hmiss Hnone).
    rewrite <- (app_nil_r ps). by rewrite inherited_skip.
  - intros Hnone b ob chb kb v -> Hob Hbb Hv.
    rewrite (Hmiss Hnone). apply inherited_first; [|by intros [k ?]].
    rewrite get_unfold, Hob, Hbb.
    assert (Namespace_get h b nm = Ok v) as Hn.
    { unfold Namespace_get. by rewrite Hob, Hbb, Hv. }
    destruct kb; try done. unfold Class_get. by rewrite Hn.
  - apply get_total.
  - intros r. apply get_more.
Qed.

(** ** Dictionaries with their keys *)

Section DictKeys.
Context {K V : Type} `{EqDecision K}.
Implicit Types (d : list (K * V)) (k : K) (v : V).

Lemma dict_set_keys k v d :
  (dict_set k v d).*1 = if decide (k ∈ d.*1) then d.*1 else d.*1 ++ [k].
Proof.
  induction d as [|[k' v'] d IH]; [done|]. cbn [dict_set fmap list_fmap fst].
  destruct (decide (k = k')) as [->|Hne].
  - by rewrite decide_True by left.
  - cbn [fmap list_fmap fst]. rewrite IH.
    destruct (decide (k ∈ d.*1)) as [Hin|Hnin].
    + by rewrite decide_True by (by right).
    + rewrite decide_False; [done|].
      intros [?|?]%elem_of_cons; done.
Qed.

Lemma dict_set_NoDup k v d : NoDup d.*1 → NoDup (dict_set k v d).*1.
Proof.
  intros Hnd. rewrite dict_set_keys. destruct (decide (k ∈ d.*1)); [done|].
  apply NoDup_app. split; [done|]. split; [|apply NoDup_singleton].
  intros x Hx ->%list_elem_of_singleton. done.
Qed.

Lemma dict_update_NoDup d other : NoDup d.*1 → NoDup (dict_update d other).*1.
Proof.
  unfold dict_update. revert d.
  induction other as [|[k v] other IH]; intros d Hnd; [done|].
  cbn [fold_left]. apply IH. by apply dict_set_NoDup.
Qed.

Lemma dict_get_reverse k d : NoDup d.*1 → dict_get k (reverse d) = dict_get k d.
Proof.
  intros Hnd. destruct (dict_get k d) as [v|] eqn:Hd.
  - apply dict_get_NoDup.
    + by rewrite fmap_reverse, reverse_Permutation.
    + apply elem_of_reverse. by apply dict_get_Some_elem.
  - apply dict_get_None_keys. rewrite fmap_reverse, elem_of_reverse.
    by apply dict_get_None_keys.
Qed.

Lemma dict_get_update_NoDup k d other :
  NoDup other.*1 →
  dict_get k (dict_update d other) =
    match dict_get k other with
    | Some v => Some v
    | None => dict_get k d
    end.
Proof. intros Hnd. by rewrite dict_get_update, dict_get_reverse. Qed.
End DictKeys.

(** ** Namespace trees *)

Lemma under_inj pl k1 k2 p : under pl k1 p → under pl k2 p → k1 = k2.
Proof.
  intros [r1 ->] [r2 Heq]. apply app_inv_head in Heq. by injection Heq.
Qed.

Lemma tree_ok_children d h l o ch k :
  tree_ok (S d) h l = true → h !! l = Some o → body o = Namespace_ ch k →
  NoDup ch.*1 ∧
  ∀ key c, (key, c) ∈ ch →
    (∃ oc, h !! c = Some oc ∧ name oc = key ∧ parent oc = Some l) ∧
    tree_ok d h c = true.
Proof.
  cbn [tree_ok]. intros Hok Hl Hb. rewrite Hl, Hb in Hok.
  apply andb_true_iff in Hok as [Hnd Hall].
  apply bool_decide_eq_true in Hnd. split; [done|].
  intros key c Hin. rewrite forallb_forall in Hall.
  specialize (Hall (key, c)). rewrite <- list_elem_of_In in Hall.
  specialize (Hall Hin). apply andb_true_iff in Hall as [Hchild Hsub].
  split; [|done]. unfold child_ok in Hchild. cbn [fst snd] in Hchild.
  destruct (h !! c) as [oc|]; [|done].
  apply bool_decide_eq_true in Hchild as [? ?]. by exists oc.
Qed.

Lemma child_path h l c oc key k pl :
  h !! c = Some oc → name oc = key → parent oc = Some l →
  path k h l = Ok pl → path (S k) h c = Ok (pl ++ [key]).
Proof. intros Hc <- Hp Hl. cbn [path]. by rewrite Hc, Hp, Hl. Qed.

Lemma children_of_at h l o ch k :
  h !! l = Some o → body o = Namespace_ ch k → children_of h l = ch.
Proof. intros Hl Hb. unfold children_of. by rewrite Hl, Hb. Qed.

Lemma reach_below h l o ch k c :
  h !! l = Some o → body o = Namespace_ ch k →
  reach h l c ↔ below h ch c.
Proof.
  intros Hl Hb. pose proof (children_of_at _ _ _ _ _ Hl Hb) as Hch. split.
  - intros Hr. destruct Hr as [r c Hin|r m c Hin Hr]; rewrite Hch in Hin;
      apply list_elem_of_fmap in Hin as ([key c'] & -> & Hin);
      exists (key, c'); split; auto.
  - intros ([key c'] & Hin & [->|Hr]).
    + apply reach_child. rewrite Hch. apply list_elem_of_fmap. by exists (key, c').
    + eapply reach_step; [|exact Hr]. rewrite Hch.
      apply list_elem_of_fmap. by exists (key, c').
Qed.

Lemma reach_from_leaf h l c : children_of h l = [] → ¬ reach h l c.
Proof.
  intros Hch Hr. destruct Hr as [r c Hin|r m c Hin _]; rewrite Hch in Hin;
    by apply elem_of_nil in Hin.
Qed.

(** In a tree the path of a node extends the path of each node above it. *)
Lemma reach_prefix d : ∀ h l k pl x,
  tree_ok d h l = true → path k h l = Ok pl → reach h l x →
  ∃ key rest, path (k + d) h x = Ok (pl ++ key :: rest).
Proof.
  induction d as [|d IH]; intros h l k pl x Hok Hl Hr; [done|].
  assert (∃ o, h !! l = Some o) as [o Ho].
  { cbn [tree_ok] in Hok. destruct (h !! l); [eauto|done]. }
  destruct (body o) as [ch kd| |] eqn:Hb.
  - destruct (tree_ok_children _ _ _ _ _ _ Hok Ho Hb) as [_ Hch].
    pose proof (children_of_at _ _ _ _ _ Ho Hb) as Hco.
    destruct Hr as [r c Hin|r m c Hin Hr]; rewrite Hco in Hin;
      apply list_elem_of_fmap in Hin as ([key c'] & -> & Hin);
      destruct (Hch _ _ Hin) as [(oc & Hc & Hname & Hpar) Hsub];
      pose proof (child_path _ _ _ _ _ _ _ Hc Hname Hpar Hl) as Hpc.
    + exists key, []. eapply path_mono; [|exact Hpc]. lia.
    + destruct (IH _ _ _ _ _ Hsub Hpc Hr) as (key' & rest & Hx).
      exists key, (key' :: rest). rewrite <- app_assoc in Hx. cbn [app] in Hx.
      by replace (k + S d) with (S k + d) by lia.
  - exfalso. eapply reach_from_leaf; [|exact Hr]. unfold children_of.
    by rewrite Ho, Hb.
  - exfalso. eapply reach_from_leaf; [|exact Hr]. unfold children_of.
    by rewrite Ho, Hb.
Qed.

(** ** The export walk *)

Section ExportWalk.
Context `{!Collaborators}.
Variables (limit : nat) (h : list obj).

Lemma below_app cs1 cs2 c : below h (cs1 ++ cs2) c ↔ below h cs1 c ∨ below h cs2 c.
Proof.
  unfold below. split.
  - intros (kc & [Hin|Hin]%elem_of_app & Hc); [left|right]; eauto.
  - intros [(kc & Hin & Hc)|(kc & Hin & Hc)]; exists kc;
      (split; [apply elem_of_app; auto|done]).
Qed.

Lemma below_single kc c : below h [kc] c ↔ c = kc.2 ∨ reach h kc.2 c.
Proof.
  unfold below. split.
  - by intros (kc' & ->%list_elem_of_singleton & Hc).
  - intros Hc. exists kc. split; [apply list_elem_of_singleton|]; done.
Qed.

Section Children.
Variables (pl : list string) (ch : list (string * nat)).
Variable recurse : nat → result unit_map.
Hypothesis Hnd : NoDup ch.*1.
Hypothesis Hchild : ∀ key c, (key, c) ∈ ch → is_Some (h !! c).
Hypothesis Hunder : ∀ key c x, (key, c) ∈ ch → x = c ∨ reach h c x →
  ∃ p, path limit h x = Ok p ∧ under pl key p.
Hypothesis Hrec : ∀ key c o chc k, (key, c) ∈ ch →
  h !! c = Some o → body o = Namespace_ chc k → walked limit h chc (recurse c).

Lemma below_under cs u p :
  cs ⊆ ch → below h cs u → path limit h u = Ok p →
  ∃ key, key ∈ cs.*1 ∧ under pl key p.
Proof using Hunder.
  intros Hsub ([key c] & Hin & Hu) Hp. cbn [snd] in Hu.
  destruct (Hunder key c u (Hsub _ Hin) Hu) as (p' & Hp' & Hunder').
  exists key. split.
  - apply list_elem_of_fmap. by exists (key, c).
  - congruence.
Qed.

(** One turn of the loop, the children [done] being collected. *)
Lemma collect_child_step done key c todo acc :
  ch = done ++ (key, c) :: todo → collected limit h done acc →
  (∃ x p, below h [(key, c)] x ∧ unended h x ∧ path limit h x = Ok p ∧
          collect_child limit recurse h acc c = Raise (unfinished p))
  ∨ (∃ acc', collect_child limit recurse h acc c = Ok acc' ∧
             collected limit h (done ++ [(key, c)]) acc').
Proof using Hnd Hchild Hunder Hrec.
  intros Hch (Hndacc & Hended & Hmap).
  assert ((key, c) ∈ ch) as Hin.
  { rewrite Hch. apply elem_of_app. right. left. }
  assert (done ⊆ ch) as Hdone.
  { intros x Hx. rewrite Hch. apply elem_of_app. by left. }
  assert (key ∉ done.*1) as Hfresh.
  { rewrite Hch, fmap_app in Hnd. apply NoDup_app in Hnd as (_ & Hdis & _).
    intros Hk. apply (Hdis _ Hk). left. }
  destruct (Hunder key c c Hin (or_introl eq_refl)) as (pc & Hpc & Hupc).
  destruct (Hchild _ _ Hin) as [oc Hoc].
  (* units collected limit h so far do not lie under [key] *)
  assert (∀ u p, below h done u → path limit h u = Ok p → ¬ under pl key p)
    as Hapart.
  { intros u p Hu Hp Hup.
    destruct (below_under done u p Hdone Hu Hp) as (key0 & Hk0 & Hup0).
    by rewrite (under_inj _ _ _ _ Hup Hup0) in Hfresh. }
  unfold collect_child. rewrite Hoc.
  destruct (body oc) as [chc k|du|] eqn:Hb.
  - (* a namespace *)
    assert (∀ fd, k = IsFunction fd → was_ended fd = false →
              ∃ x p, below h [(key, c)] x ∧ unended h x ∧
                     path limit h x = Ok p ∧
                     (p ← path limit h c; Raise (unfinished p))
                       = @Raise unit (unfinished p)) as Hstop.
    { intros fd -> Hopen. exists c, pc. split; [apply below_single; by left|].
      split; [exists fd; split; [by exists oc, chc|done]|].
      split; [done|]. by rewrite Hpc. }
    assert (match k with
            | IsFunction fd =>
                if was_ended fd then Ok ()
                else p ← path limit h c; Raise (unfinished p)
            | _ => Ok ()
            end = Ok () → ¬ unended h c) as Hguard.
    { intros Hg (fd & (o' & ch' & Ho' & Hb') & Hopen).
      rewrite Hoc in Ho'. injection Ho' as <-. rewrite Hb in Hb'.
      injection Hb' as -> ->. rewrite Hopen in Hg.
      by destruct (path limit h c). }
    destruct (match k with
              | IsFunction fd =>
                  if was_ended fd then Ok ()
                  else p ← path limit h c; Raise (unfinished p)
              | _ => Ok ()
              end) as [[]|e] eqn:Hg.
    + specialize (Hguard eq_refl). cbn [mbind result_bind].
      destruct (Hrec key c oc chc k Hin Hoc Hb)
        as [(x & p & Hx & Hux & Hpx & ->)|(sub & -> & Hndsub & Hsubended & Hsub)].
      * left. exists x, p. split; [|done]. apply below_single. right.
        by apply (reach_below _ _ _ _ _ _ Hoc Hb).
      * right. eexists. split; [reflexivity|]. split; [|split].
        -- by apply dict_update_NoDup.
        -- intros x [Hx|[->|Hx]%below_single]%below_app; [by apply Hended|done|].
           apply Hsubended. by apply (reach_below _ _ _ _ _ _ Hoc Hb).
        -- intros p u. rewrite dict_get_update_NoDup by done. split.
           ++ destruct (dict_get p sub) as [u'|] eqn:Hget.
              ** intros [= ->]. apply Hsub in Hget as (Hu & Hunit & Hp).
                 split; [|done]. apply below_app. right.
                 apply below_single. right.
                 by apply (reach_below _ _ _ _ _ _ Hoc Hb).
              ** intros Hacc. apply Hmap in Hacc as (Hu & Hunit & Hp).
                 split; [|done]. apply below_app. by left.
           ++ intros ([Hu|[->|Hu]%below_single]%below_app & Hunit & Hp).
              ** destruct (dict_get p sub) as [u'|] eqn:Hget.
                 --- exfalso. apply Hsub in Hget as (Hu' & _ & Hp').
                     apply (Hapart u p Hu Hp).
                     destruct (Hunder key c u' Hin) as (p' & Hp'' & Hup').
                     { right. by apply (reach_below _ _ _ _ _ _ Hoc Hb). }
                     congruence.
                 --- apply Hmap. done.
              ** destruct Hunit as (du & ou & Hou & Hbu). cbn [snd] in Hou.
                 congruence.
              ** assert (dict_get p sub = Some u) as ->; [|done].
                 apply Hsub. split; [|done].
                 by apply (reach_below _ _ _ _ _ _ Hoc Hb).
    + left. destruct k as [|fd| |]; try done.
      destruct (was_ended fd) eqn:Hopen; [done|].
      destruct (Hstop fd eq_refl Hopen) as (x & p & Hx & Hux & Hpx & Hraise).
      exists x, p. rewrite Hraise in Hg. injection Hg as <-. done.
  - (* a unit *)
    right. rewrite Hpc. cbn [mbind result_bind]. eexists. split; [reflexivity|].
    assert (¬ ∃ x, reach h c x) as Hleaf.
    { intros [x Hx]. eapply reach_from_leaf; [|exact Hx].
      unfold children_of. by rewrite Hoc, Hb. }
    split; [|split].
    + by apply dict_set_NoDup.
    + intros x [Hx|[->|Hx]%below_single]%below_app; [by apply Hended| |].
      * intros (fd & (o' & ch' & Ho' & Hb') & _). cbn [snd] in Ho'. congruence.
      * exfalso. apply Hleaf. eauto.
    + intros p u. rewrite dict_get_set. split.
      * destruct (decide (pc = p)) as [<-|Hne].
        -- intros [= <-]. split; [|split; [|done]].
           ++ apply below_app. right. apply below_single. by left.
           ++ exists du, oc. done.
        -- intros Hacc. apply Hmap in Hacc as (Hu & Hunit & Hp).
           split; [|done]. apply below_app. by left.
      * intros ([Hu|[->|Hu]%below_single]%below_app & Hunit & Hp).
        -- rewrite decide_False; [by apply Hmap|].
           intros ->. by apply (Hapart u p Hu Hp).
        -- cbn [snd] in Hp. rewrite decide_True by congruence. done.
        -- exfalso. apply Hleaf. eauto.
  - (* a function tag *)
    right. eexists. split; [reflexivity|].
    assert (¬ ∃ x, reach h c x) as Hleaf.
    { intros [x Hx]. eapply reach_from_leaf; [|exact Hx].
      unfold children_of. by rewrite Hoc, Hb. }
    split; [done|split].
    + intros x [Hx|[->|Hx]%below_single]%below_app; [by apply Hended| |].
      * intros (fd & (o' & ch' & Ho' & Hb') & _). cbn [snd] in Ho'. congruence.
      * exfalso. apply Hleaf. eauto.
    + intros p u. rewrite Hmap. split.
      * intros (Hu & Hunit & Hp). split; [|done]. apply below_app. by left.
      * intros ([Hu|[->|Hu]%below_single]%below_app & Hunit & Hp); [done| |].
        -- destruct Hunit as (du & ou & Hou & Hbu). cbn [snd] in Hou. congruence.
        -- exfalso. apply Hleaf. eauto.
Qed.
Lemma collect_children_walk todo : ∀ done acc,
  ch = done ++ todo → collected limit h done acc →
  walked limit h ch (fold_result (collect_child limit recurse h) acc todo.*2).
Proof using Hnd Hchild Hunder Hrec.
  induction todo as [|[key c] todo IH]; intros done acc Hch Hacc.
  - right. exists acc. rewrite app_nil_r in Hch. by subst.
  - cbn [fmap list_fmap snd fold_result].
    destruct (collect_child_step done key c todo acc Hch Hacc)
      as [(x & p & Hx & Hux & Hpx & ->)|(acc' & -> & Hacc')].
    + left. exists x, p. split; [|done].
      destruct Hx as (kc & ->%list_elem_of_singleton & Hx).
      exists (key, c). split; [|done]. rewrite Hch. apply elem_of_app.
      right. left.
    + cbn [mbind result_bind]. apply (IH (done ++ [(key, c)])); [|done].
      by rewrite <- app_assoc.
Qed.
End Children.

(** The walk over a tree: fuel and stack suffice, and the outcome is as
    [walked] says. *)
Lemma walk_tree d : ∀ fuel l k pl o ch kd,
  tree_ok d h l = true → h !! l = Some o → body o = Namespace_ ch kd →
  path k h l = Ok pl → k + d ≤ limit → d ≤ fuel →
  walked limit h ch (get_all_mcfunctions_rec limit fuel h l).
Proof.
  induction d as [|d IH]; intros fuel l k pl o ch kd Hok Hl Hb Hpl Hlim Hfuel;
    [done|].
  destruct fuel as [|fuel]; [lia|].
  cbn [get_all_mcfunctions_rec]. rewrite Hl, Hb.
  destruct (tree_ok_children _ _ _ _ _ _ Hok Hl Hb) as [Hnd Hch].
  apply (collect_children_walk pl ch _ Hnd) with (done := []).
  - intros key c Hin. destruct (Hch _ _ Hin) as [(oc & Hc & _) _]. eauto.
  - intros key c x Hin Hx.
    destruct (Hch _ _ Hin) as [(oc & Hc & Hname & Hpar) Hsub].
    pose proof (child_path _ _ _ _ _ _ _ Hc Hname Hpar Hpl) as Hpc.
    destruct Hx as [->|Hx].
    + exists (pl ++ [key]). split; [eapply path_mono; [|exact Hpc]; lia|].
      by exists [].
    + destruct (reach_prefix _ _ _ _ _ _ Hsub Hpc Hx) as (key' & rest & Hpx).
      eexists. split; [eapply path_mono; [|exact Hpx]; lia|].
      exists (key' :: rest). by rewrite <- app_assoc.
  - intros key c oc chc kc Hin Hc Hbc.
    destruct (Hch _ _ Hin) as [(oc' & Hc' & Hname & Hpar) Hsub].
    rewrite Hc in Hc'. injection Hc' as <-.
    pose proof (child_path _ _ _ _ _ _ _ Hc Hname Hpar Hpl) as Hpc.
    eapply (IH fuel c (S k)); [exact Hsub|exact Hc|exact Hbc|exact Hpc|lia|lia].
  - done.
  - split; [constructor|]. split.
    + intros c (kc & Hin & _). by apply elem_of_nil in Hin.
    + intros p u. split; [done|].
      intros ((kc & Hin & _) & _). by apply elem_of_nil in Hin.
Qed.

(** C4. The export of a namespace tree: if some Function below the root
    is not ended, the export fails with the assertion error whose message
    is "Function <path> was not ended", the path being that of such a
    Function, from the root of its tree down to its own name; if every
    Function below the root is ended, it returns the map that sends the
    path of each unit below the root to that unit, and nothing else. *)
Theorem export_requires_ended d k r o ch kd pr :
  tree_ok d h r = true → h !! r = Some o → body o = Namespace_ ch kd →
  path k h r = Ok pr → k + d ≤ limit →
  ((∃ c, reach h r c ∧ unended h c) →
   ∃ c p, reach h r c ∧ unended h c ∧ path limit h c = Ok p ∧
          Namespace_get_all_mcfunctions limit h r =
            Raise (AssertionError
                     ("Function " +:+ path_to_str p +:+ " was not ended"))) ∧
  ((∀ c, reach h r c → ¬ unended h c) →
   ∃ m, Namespace_get_all_mcfunctions limit h r = Ok m ∧
        ∀ p u, dict_get p m = Some u ↔
               reach h r u ∧ (∃ du, is_unit h u du) ∧ path limit h u = Ok p).
Proof.
  intros Hok Hr Hb Hpr Hlim.
  assert (walked limit h ch (Namespace_get_all_mcfunctions limit h r)) as Hwalk.
  { eapply (walk_tree d limit r k); eauto. lia. }
  assert (∀ c, reach h r c ↔ below h ch c) as Hreach.
  { intros c. by eapply reach_below. }
  split.
  - intros (c0 & Hc0 & Hu0).
    destruct Hwalk as [(c & p & Hc & Hu & Hp & ->)|(m & _ & _ & Hended & _)].
    + exists c, p. by rewrite Hreach.
    + exfalso. apply (Hended c0); [by apply Hreach|done].
  - intros Hall.
    destruct Hwalk as [(c & p & Hc & Hu & _)|(m & -> & _ & _ & Hmap)].
    + exfalso. apply (Hall c); [by apply Hreach|done].
    + exists m. split; [done|]. intros p u. rewrite Hmap.
      by rewrite Hreach.
Qed.
End ExportWalk.

(** ** The end-to-end scenario *)

Section Scenario.
Context `{!Collaborators}.

Lemma dict_set_length {V} (k : string) (v : V) d :
  length (dict_set k v d) =
    match dict_get k d with Some _ => length d | None => S (length d) end.
Proof.
  induction d as [|[k' v'] d IH]; [done|]. cbn [dict_set dict_get].
  destruct (decide (k = k')); [done|]. cbn [length]. rewrite IH.
  by destruct (dict_get k d).
Qed.

(** C1, amended. The scenario leaves exactly three units, whose paths are
    ns/f/f (the entry unit of f), ns/f/if1/if1 (the entry unit of the
    then-branch) and ns/f/if-continue2, and the entry unit of f holds three
    commands.  In general [c_if] names the then-branch if<N>, N being the
    number of children of the enclosing Function before the call, and the
    continuation unit if-continue<M>, M being the number of children once
    the then-branch is bound: N + 1 unless if<N> was bound already. *)
Theorem scenario_units_and_if_names :
  (∀ first inside condition limit,
     ∃ s, scenario first inside condition (mkState [] []) = (Ok (0, 1, 3), s) ∧
          Namespace_get_all_mcfunctions (4 + limit) (heap s) 0 =
            Ok [ (["ns"; "f"; "f"], 2);
                 (["ns"; "f"; "if1"; "if1"], 4);
                 (["ns"; "f"; "if-continue2"], 5) ] ∧
          ∃ fd d, is_function (heap s) 1 fd ∧ entry_point fd = 2 ∧
                  is_unit (heap s) 2 d ∧ length (commands d) = 3) ∧
  (∀ s self condition o ch fd ou d,
     heap s !! self = Some o → body o = Namespace_ ch (IsFunction fd) →
     was_ended fd = false →
     heap s !! current_mcfunction fd = Some ou → body ou = MCFunction_ d →
     ∃ if_ s' fd',
       Function_c_if self condition s = (Ok if_, s') ∧
       is_function (heap s') self fd' ∧
       name_of (heap s') if_ = Some ("if" +:+ str (length ch)) ∧
       name_of (heap s') (current_mcfunction fd') =
         Some ("if-continue" +:+
               str (match dict_get ("if" +:+ str (length ch)) ch with
                    | Some _ => length ch
                    | None => S (length ch)
                    end))).
Proof.
  split.
  - intros first inside condition limit.
    exists (scenario_state first inside condition).
    split; [vm_compute; reflexivity|].
    split; [vm_compute; reflexivity|].
    unfold is_function, is_unit, scenario_state. cbn [heap].
    eexists _, _. split; [eexists _, _; split; [reflexivity|reflexivity]|].
    split; [reflexivity|].
    split; [eexists; split; [reflexivity|reflexivity]|reflexivity].
  - intros s self condition o ch fd ou d Hs Hb Hopen Hu Hbu.
    pose proof (lookup_lt_Some _ _ _ Hs) as Hlt.
    pose proof (lookup_lt_Some _ _ _ Hu) as Hult.
    pose proof (Function_c_if_at s self condition o ch fd ou d Hs Hb Hopen Hu Hbu)
      as Hif. cbv zeta in Hif.
    eexists _, _, _. split; [exact Hif|]. cbn [heap].
    split; [eexists _, _; split; [find|reflexivity]|].
    unfold name_of. cbn [current_mcfunction moved_to]. split.
    + rewrite lookup_new0 by (by rewrite !length_insert). reflexivity.
    + rewrite lookup_new by (by rewrite !length_insert).
      cbn [lookup list_lookup fmap option_fmap option_map fresh_unit name].
      unfold continue_name, if_name. by rewrite dict_set_length.
Qed.
End Scenario.

(** ** The claims at concrete inputs *)

(** C1 as stated does not hold: whatever prefix the paths are read below,
    the units of the scenario are not f, f/if0 and f/if-continue0, and no N
    names both the then-branch if<N> and the continuation unit
    if-continue<N>. *)
Lemma scenario_paths_not_as_claimed :
  (¬ ∃ m prefix,
       @scenario_export demo (say "1") (say "2") "entity @s" = Ok m ∧
       m.*1 ≡ₚ claimed_paths prefix) ∧
  (¬ ∃ N, name_of (heap ended_state) 3 = Some ("if" +:+ N) ∧
          name_of (heap ended_state) 5 = Some ("if-continue" +:+ N)).
Proof.
  split.
  - intros (m & prefix & Hm & Hperm).
    vm_compute in Hm. injection Hm as <-.
    assert (["ns"; "f"; "if-continue2"] ∈ claimed_paths prefix) as Hin.
    { rewrite <- Hperm. cbn [fmap list_fmap fst]. do 2 right. left. }
    unfold claimed_paths in Hin.
    apply elem_of_cons in Hin as [Hp|Hin];
      [|apply elem_of_cons in Hin as [Hp|Hin];
        [|apply list_elem_of_singleton in Hin as Hp]];
      apply (f_equal last) in Hp;
      rewrite last_app in Hp; cbn in Hp; discriminate.
  - intros (N & H1 & H2). vm_compute in H1, H2.
    injection H1 as <-. discriminate.
Qed.

Lemma scenario_units_and_if_names_witness :
  (heap open_state !! 1 =
     Some (mkObj "f" (Some 0)
             (Namespace_ [("f", 2)] (IsFunction (mkFunction [] None 2 2 false)))) ∧
   heap open_state !! 2 =
     Some (mkObj "f" (Some 1) (MCFunction_ (mkMCFunction "" [] [] None)))) ∧
  ∃ if_ s' fd',
    @Function_c_if demo 1 "entity @s" open_state = (Ok if_, s') ∧
    is_function (heap s') 1 fd' ∧
    name_of (heap s') if_ = Some "if1" ∧
    name_of (heap s') (current_mcfunction fd') = Some "if-continue2".
Proof.
  split; [split; reflexivity|].
  exact (proj2 (@scenario_units_and_if_names demo) open_state 1 "entity @s"
           _ _ _ _ _ eq_refl eq_refl eq_refl eq_refl eq_refl).
Defined.

Lemma c_if_lowers_witness :
  (heap open_state !! 1 =
     Some (mkObj "f" (Some 0)
             (Namespace_ [("f", 2)] (IsFunction (mkFunction [] None 2 2 false)))) ∧
   heap open_state !! 2 =
     Some (mkObj "f" (Some 1) (MCFunction_ (mkMCFunction "" [] [] None)))) ∧
  ∃ if_ new_mcfunc s',
    @Function_c_if demo 1 "entity @s" open_state = (Ok if_, s') ∧
    if_ ≠ new_mcfunc ∧
    is_unit (heap s') new_mcfunc (mkMCFunction "" [] [] None).
Proof.
  split; [split; reflexivity|].
  destruct (@c_if_lowers demo open_state 1 "entity @s" _ _ _ _ _
              eq_refl eq_refl eq_refl eq_refl eq_refl)
    as (if_ & new_mcfunc & s' & fd_if & Hrun & _ & _ & Hne & _ & _ & Hunit & _).
  exists if_, new_mcfunc, s'. split; [exact Hrun|]. split; [exact Hne|exact Hunit].
Defined.





Lemma export_requires_ended_witness :
  (tree_ok 4 (heap open_state) 0 = true ∧
   path 1 (heap open_state) 0 = Ok ["ns"] ∧
   tree_ok 4 (heap ended_state) 0 = true ∧
   path 1 (heap ended_state) 0 = Ok ["ns"] ∧ 1 + 4 ≤ 1000) ∧
  (∃ c p, reach (heap open_state) 0 c ∧ unended (heap open_state) c ∧
          path 1000 (heap open_state) c = Ok p ∧
          @Namespace_get_all_mcfunctions demo 1000 (heap open_state) 0
            = Raise (AssertionError
                       ("Function " +:+ String.concat "/" p +:+ " was not ended"))) ∧
  @Namespace_get_all_mcfunctions demo 1000 (heap open_state) 0
    = Raise (AssertionError "Function ns/f was not ended") ∧
  (∃ m, @Namespace_get_all_mcfunctions demo 1000 (heap ended_state) 0 = Ok m ∧
        ∀ p u, dict_get p m = Some u ↔
               reach (heap ended_state) 0 u ∧
               (∃ du, is_unit (heap ended_state) u du) ∧
               path 1000 (heap ended_state) u = Ok p).
Proof.
  split; [repeat split; try (vm_compute; reflexivity); lia|].
  assert (tree_ok 4 (heap open_state) 0 = true) as Hopen by (vm_compute; reflexivity).
  assert (tree_ok 4 (heap ended_state) 0 = true) as Hended by (vm_compute; reflexivity).
  assert (1 + 4 ≤ 1000) as Hstack by lia.
  pose proof (@export_requires_ended demo 1000 (heap open_state) 4 1 0 _ _ _ _
                Hopen eq_refl eq_refl eq_refl Hstack) as [Hfails _].
  pose proof (@export_requires_ended demo 1000 (heap ended_state) 4 1 0 _ _ _ _
                Hended eq_refl eq_refl eq_refl Hstack) as [Hstops Hgives].
  split; [|split; [vm_compute; reflexivity|]].
  - apply Hfails. exists 1. split.
    + apply reach_child. vm_compute. left.
    + eexists. split; [eexists _, _; split; reflexivity|reflexivity].
  - apply Hgives. intros c Hc Hu.
    destruct (Hstops (ex_intro _ c (conj Hc Hu))) as (c' & p & _ & _ & _ & Hraise).
    vm_compute in Hraise. discriminate.
Defined.

Lemma add_command_guard_witness :
  (is_function (heap ended_state) 1 (mkFunction [] None 2 5 true) ∧
   is_function (heap open_state) 1 (mkFunction [] None 2 2 false)) ∧
  Function_add_command 1 [say "late"] ended_state
    = (Raise (AssertionError ""), ended_state) ∧
  Function_add_command 1 [say "a"; say "b"] open_state
    = (Ok (),
       mkState
         (<[2 := mkObj "f" (Some 1)
                   (MCFunction_ (mkMCFunction "" [] [say "a"; say "b"] None))]>
            (heap open_state))
         []).
Proof.
  assert (is_function (heap ended_state) 1 (mkFunction [] None 2 5 true)) as Hended.
  { eexists _, _. split; reflexivity. }
  assert (is_function (heap open_state) 1 (mkFunction [] None 2 2 false)) as Hopen.
  { eexists _, _. split; reflexivity. }
  split; [split; [exact Hended|exact Hopen]|]. split.
  - exact (proj1 (proj2 (add_command_guard ended_state 1 [say "late"] _ Hended))
             eq_refl).
  - exact (proj2 (proj2 (add_command_guard open_state 1 [say "a"; say "b"] _ Hopen))
             eq_refl _ _ eq_refl eq_refl).
Defined.

Lemma end_idempotent_witness :
  (heap open_state !! 1 =
     Some (mkObj "f" (Some 0)
             (Namespace_ [("f", 2)] (IsFunction (mkFunction [] None 2 2 false)))) ∧
   heap open_state !! 2 =
     Some (mkObj "f" (Some 1) (MCFunction_ (mkMCFunction "" [] [] None)))) ∧
  ∃ s1, Function_end 1 open_state = (Ok (), s1) ∧
        Function_end 1 s1 = (Ok (), s1).
Proof.
  split; [split; reflexivity|].
  destruct (end_idempotent open_state 1 _ _ _ _ _
              eq_refl eq_refl eq_refl eq_refl eq_refl)
    as (s1 & Hfirst & _ & Hsecond & _).
  exists s1. split; [exact Hfirst|exact Hsecond].
Defined.

Lemma class_get_resolution_witness :
  (heap class_state !! 2 =
     Some (mkObj "A" (Some 0) (Namespace_ [] (IsClass [1])))) ∧
  get 2 (heap class_state) 2 "sym" = Ok 3 ∧
  get 2 (heap class_state) 2 "other" = Raise (KeyError (StrKey "other")).
Proof.
  pose proof (fun fuel nm => class_get_resolution fuel (heap class_state) 2 _ _ _ nm
                               eq_refl eq_refl) as Hget.
  split; [reflexivity|]. split.
  - destruct (Hget 0 "sym") as (_ & _ & _ & Hparent & _).
    apply (Hparent eq_refl 1 _ _ _ 3 eq_refl eq_refl eq_refl). reflexivity.
  - destruct (Hget 1 "other") as (_ & _ & Hall & _).
    apply (Hall eq_refl). constructor; [|constructor].
    exists (StrKey "other"). reflexivity.
Defined.

Lemma demo_stable_push keep : @stable_push demo 1 keep.
Proof. intros h. exists h. split; [reflexivity|done]. Qed.

Lemma c_call_function_order_witness :
  (heap calling_state !! 3 =
     Some (mkObj "f" (Some 0)
             (Namespace_ [("f", 4)] (IsFunction (mkFunction [] None 4 4 false)))) ∧
   heap calling_state !! 4 =
     Some (mkObj "f" (Some 3) (MCFunction_ (mkMCFunction "" [] [] None))) ∧
   @stable_push demo 1 [3; 4; 1; 5]) ∧
  ∃ s', @Function_c_call_function demo 3 5 (Some "x") ["a"; "b"] calling_state
          = (Ok (), s') ∧
        is_unit (heap s') 4
          (mkMCFunction "" []
             [ Comment "calling function %s with STD_ARG with 2 varargs" [PathString 5];
               Comment "calling function %s with STD_ARG" [PathString 1];
               @var_to_var demo "a" (@STD_ARG demo);
               FunctionCall 2;
               Comment "calling function %s with STD_ARG" [PathString 1];
               @var_to_var demo "b" (@STD_ARG demo);
               FunctionCall 2;
               @var_to_var demo "x" (@STD_ARG demo);
               FunctionCall 6 ]
             None).
Proof.
  split; [split; [reflexivity|split; [reflexivity|apply demo_stable_push]]|].
  exact (proj1 (@c_call_function_order demo calling_state 3 5 1 _ _ _ _ _ _ _ _ _
                  _ _ (Some "x") ["a"; "b"]
                  eq_refl eq_refl eq_refl eq_refl eq_refl eq_refl eq_refl
                  eq_refl eq_refl (demo_stable_push _))).
Defined.

Lemma add_same_name_replaces_witness :
  (is_namespace (heap two_named_x) 0 ∧
   name_of (heap two_named_x) 1 = Some "x" ∧
   name_of (heap two_named_x) 2 = Some "x") ∧
  ∃ s1 s2,
    Namespace_add 0 [1] two_named_x = (Ok (), s1) ∧
    Namespace_get (heap s1) 0 "x" = Ok 1 ∧
    parent_of (heap s1) 1 = Some (Some 0) ∧
    Namespace_add 0 [2] s1 = (Ok (), s2) ∧
    Namespace_get (heap s2) 0 "x" = Ok 2 ∧
    parent_of (heap s2) 2 = Some (Some 0) ∧
    parent_of (heap s2) 1 = Some (Some 0) ∧
    Namespace_add 0 [1; 2] two_named_x = (Ok (), s2).
Proof.
  assert (is_namespace (heap two_named_x) 0) as Hn.
  { eexists _, _, _. split; reflexivity. }
  split; [split; [exact Hn|split; reflexivity]|].
  exact (add_same_name_replaces two_named_x 0 1 2 "x" Hn eq_refl eq_refl).
Defined.

Lemma create_function_tag_unbound_witness :
  (is_namespace (heap open_state) 0 ∧
   Namespace_get (heap open_state) 0 "load" = Raise (KeyError (StrKey "load")) ∧
   closed (heap open_state) = true) ∧
  ∃ tag s',
    Namespace_create_function_tag 0 "load" open_state = (Ok tag, s') ∧
    heap s' !! tag = Some (mkObj "load" (Some 0) FunctionTag_) ∧
    Namespace_get (heap s') 0 "load" = Raise (KeyError (StrKey "load")) ∧
    ∀ r, ¬ reach (heap s') r tag.
Proof.
  assert (is_namespace (heap open_state) 0) as Hn.
  { eexists _, _, _. split; reflexivity. }
  split; [split; [exact Hn|split; reflexivity]|].
  destruct (@create_function_tag_unbound demo open_state 0 "load" Hn eq_refl eq_refl)
    as (tag & s' & Hrun & _ & Htag & _ & _ & Hget & Hreach & _).
  exists tag, s'. split; [exact Hrun|]. split; [exact Htag|].
  split; [exact Hget|exact Hreach].
Defined.

(** * Further properties of the code *)

(** ** Paths and the parent chain *)

Lemma path_frame fuel : ∀ h h' c l p,
  (∀ x, x ≠ c → name_of h' x = name_of h x ∧ parent_of h' x = parent_of h x) →
  is_ancestor fuel h c l = false →
  path fuel h l = Ok p → path fuel h' l = Ok p.
Proof.
  induction fuel as [|fuel IH]; intros h h' c l p Hsame Hanc Hp; [discriminate|].
  cbn [is_ancestor] in Hanc. apply orb_false_iff in Hanc as [Hne Hanc].
  apply bool_decide_eq_false in Hne.
  destruct (Hsame l (not_eq_sym Hne)) as [Hname Hpar].
  unfold name_of, parent_of in Hname, Hpar.
  cbn [path] in Hp |- *.
  destruct (h !! l) as [o|] eqn:Hl; [|discriminate].
  destruct (h' !! l) as [o'|]; [|discriminate].
  cbn in Hname, Hpar. injection Hname as Hname. injection Hpar as Hpar.
  rewrite Hpar, Hname.
  destruct (parent o) as [q|]; [|exact Hp].
  destruct (path fuel h q) as [pp|e] eqn:Hq; [|discriminate].
  by rewrite (IH h h' c q pp Hsame Hanc Hq).
Qed.

Lemma path_within fuel : ∀ h c l p,
  path fuel h l = Ok p → length h ≤ c → is_ancestor fuel h c l = false.
Proof.
  induction fuel as [|fuel IH]; intros h c l p Hp Hc; [done|].
  cbn [path] in Hp. cbn [is_ancestor].
  destruct (h !! l) as [o|] eqn:Hl; [|discriminate].
  apply lookup_lt_Some in Hl as Hlt.
  apply orb_false_iff. split; [apply bool_decide_eq_false; lia|].
  destruct (parent o) as [q|]; [|done].
  destruct (path fuel h q) as [pp|e] eqn:Hq; [|discriminate].
  by apply (IH h c q pp).
Qed.

Lemma path_cycle h h' n c :
  (∀ x, x ≠ c → name_of h' x = name_of h x ∧ parent_of h' x = parent_of h x) →
  (∃ oc, h' !! c = Some oc ∧ parent oc = Some n) →
  (∃ fuel0, is_ancestor fuel0 h c n = true) →
  ∀ fuel x fuel0, is_ancestor fuel0 h c x = true →
    path fuel h' x = Raise RecursionError.
Proof.
  intros Hsame (oc & Hc & Hpc) (fn & Hn).
  induction fuel as [|fuel IH]; intros x fuel0 Hx; [done|].
  cbn [path].
  destruct (decide (x = c)) as [->|Hne].
  - rewrite Hc, Hpc. by rewrite (IH n fn Hn).
  - destruct fuel0 as [|fuel0]; [discriminate|].
    cbn [is_ancestor] in Hx. apply orb_true_iff in Hx as [Hx|Hx].
    { apply bool_decide_eq_true in Hx. congruence. }
    destruct (Hsame x Hne) as [Hname Hpar]. unfold name_of, parent_of in Hname, Hpar.
    destruct (h !! x) as [o|]; [|discriminate].
    destruct (h' !! x) as [o'|]; [|discriminate].
    cbn in Hpar. injection Hpar as ->.
    destruct (parent o) as [q|]; [|discriminate].
    by rewrite (IH q fuel0 Hx).
Qed.

Section ExportCycle.
Context `{!Collaborators}.

Lemma fold_result_all {A B} (f : A → B → result A) xs : ∀ acc r,
  fold_result f acc xs = Ok r → ∀ x, x ∈ xs → ∃ a a', f a x = Ok a'.
Proof.
  induction xs as [|y xs IH]; intros acc r Hr x Hx; [by apply elem_of_nil in Hx|].
  cbn [fold_result] in Hr.
  destruct (f acc y) as [acc'|e] eqn:Hy; [|discriminate].
  apply elem_of_cons in Hx as [->|Hx]; [by eauto|].
  exact (IH acc' r Hr x Hx).
Qed.

Lemma export_self_child limit h n o ch k :
  h !! n = Some o → body o = Namespace_ ch k → n ∈ ch.*2 →
  ∀ fuel m, get_all_mcfunctions_rec limit fuel h n ≠ Ok m.
Proof.
  intros Hn Hb Hin. induction fuel as [|fuel IH]; intros m Hm; [discriminate|].
  cbn [get_all_mcfunctions_rec] in Hm. rewrite Hn, Hb in Hm.
  destruct (fold_result_all _ _ _ _ Hm n Hin) as (a & a' & Hstep).
  unfold collect_child in Hstep. rewrite Hn, Hb in Hstep.
  destruct (match k with
            | IsFunction fd =>
                if was_ended fd then Ok ()
                else p ← path limit h n; Raise (unfinished p)
            | _ => Ok ()
            end) as [[]|e]; [|discriminate].
  cbn in Hstep.
  destruct (get_all_mcfunctions_rec limit fuel h n) as [sub|e];
    [|discriminate].
  exact (IH sub eq_refl).
Qed.

End ExportCycle.

(** X1. After [n.add(c)], where [c] is neither [n] nor one of its
    ancestors, [n] has the path it had and the path of [c] is the path of
    [n] followed by the name of [c]; [n.get] gives [c] under that name. *)
Theorem add_gives_path s n c nm fuel p :
  is_namespace (heap s) n → name_of (heap s) c = Some nm →
  path fuel (heap s) n = Ok p → is_ancestor fuel (heap s) c n = false →
  ∃ s', Namespace_add n [c] s = (Ok (), s') ∧
        path fuel (heap s') n = Ok p ∧
        path (S fuel) (heap s') c = Ok (p ++ [nm]) ∧
        Namespace_get (heap s') n nm = Ok c.
Proof.
  intros Hn Hc Hp Hanc.
  destruct (Namespace_add_one_effect s n c nm Hn Hc)
    as (s' & Hadd & Hget & Hpar & _ & Hnames & Hparents).
  assert (path fuel (heap s') n = Ok p) as Hp'.
  { apply (path_frame fuel (heap s) (heap s') c n p); [|done..].
    intros x Hx. split; [apply Hnames|by apply Hparents]. }
  exists s'. split; [done|]. split; [done|]. split; [|done].
  specialize (Hnames c). rewrite Hc in Hnames.
  unfold name_of, parent_of in Hnames, Hpar.
  destruct (heap s' !! c) as [oc|] eqn:Hoc; [|discriminate].
  cbn in Hnames, Hpar. injection Hnames as Hname. injection Hpar as Hpar.
  by apply (child_path _ n c oc).
Qed.

(** X2. [add] does not look for cycles.  After [n.add(c)] where [c] is [n]
    itself or one of its ancestors, [path()] of [n] and of [c] recurses
    without end: it fails with [RecursionError] whatever the stack allows.
    And when [n] is added to itself, the export from [n] never returns a
    map. *)
Theorem add_ancestor_cycles `{!Collaborators} s n c nm fuel0 :
  is_namespace (heap s) n → name_of (heap s) c = Some nm →
  is_ancestor fuel0 (heap s) c n = true →
  ∃ s', Namespace_add n [c] s = (Ok (), s') ∧
        Namespace_get (heap s') n nm = Ok c ∧
        (∀ fuel, path fuel (heap s') n = Raise RecursionError ∧
                 path fuel (heap s') c = Raise RecursionError) ∧
        (c = n → ∀ limit fuel m,
           get_all_mcfunctions_rec limit fuel (heap s') n ≠ Ok m).
Proof.
  intros Hn Hc Hanc.
  destruct (Namespace_add_one_effect s n c nm Hn Hc)
    as (s' & Hadd & Hget & Hpar & Hn' & Hnames & Hparents).
  exists s'. split; [done|]. split; [done|].
  assert (∀ fuel x f0, is_ancestor f0 (heap s) c x = true →
            path fuel (heap s') x = Raise RecursionError) as Hcycle.
  { apply (path_cycle (heap s) (heap s') n c).
    - intros x Hx. split; [apply Hnames|by apply Hparents].
    - unfold parent_of in Hpar. destruct (heap s' !! c) as [oc|]; [|discriminate].
      cbn in Hpar. injection Hpar as Hpar. by exists oc.
    - by exists fuel0. }
  split.
  - intros fuel. split; [by apply (Hcycle fuel n fuel0)|].
    apply (Hcycle fuel c 1). cbn. by rewrite bool_decide_eq_true_2.
  - intros -> limit fuel m.
    destruct Hn' as (o' & ch' & k' & Ho' & Hb').
    apply (export_self_child limit (heap s') n o' ch' k' Ho' Hb').
    unfold Namespace_get in Hget. rewrite Ho', Hb' in Hget.
    destruct (dict_get nm ch') as [v|] eqn:Hv; [|discriminate].
    injection Hget as ->. apply dict_get_Some_elem in Hv.
    apply list_elem_of_fmap. by exists (nm, n).
Qed.

Lemma add_gives_path_witness :
  (is_namespace (heap two_named_x) 0 ∧ name_of (heap two_named_x) 1 = Some "x" ∧
   path 1 (heap two_named_x) 0 = Ok ["ns"] ∧
   is_ancestor 1 (heap two_named_x) 1 0 = false) ∧
  ∃ s', Namespace_add 0 [1] two_named_x = (Ok (), s') ∧
        path 2 (heap s') 1 = Ok ["ns"; "x"].
Proof.
  assert (is_namespace (heap two_named_x) 0) as Hn.
  { eexists _, _, _. split; reflexivity. }
  split; [split; [exact Hn|repeat split; reflexivity]|].
  destruct (add_gives_path two_named_x 0 1 "x" 1 ["ns"] Hn eq_refl eq_refl eq_refl)
    as (s' & Hadd & _ & Hp & _).
  exists s'. split; [exact Hadd|exact Hp].
Defined.

Lemma add_ancestor_cycles_witness :
  (is_namespace (heap open_state) 1 ∧ name_of (heap open_state) 0 = Some "ns" ∧
   is_ancestor 2 (heap open_state) 0 1 = true) ∧
  ∃ s', Namespace_add 1 [0] open_state = (Ok (), s') ∧
        path 1000 (heap s') 1 = Raise RecursionError.
Proof.
  assert (is_namespace (heap open_state) 1) as Hn.
  { eexists _, _, _. split; reflexivity. }
  split; [split; [exact Hn|split; reflexivity]|].
  destruct (@add_ancestor_cycles demo open_state 1 0 "ns" 2 Hn eq_refl eq_refl)
    as (s' & Hadd & _ & Hp & _).
  exists s'. split; [exact Hadd|exact (proj1 (Hp 1000))].
Defined.

(** ** The create methods *)

Lemma path_preserved fuel : ∀ h h' l p,
  (∀ x o, h !! x = Some o →
     ∃ o', h' !! x = Some o' ∧ name o' = name o ∧ parent o' = parent o) →
  path fuel h l = Ok p → path fuel h' l = Ok p.
Proof.
  induction fuel as [|fuel IH]; intros h h' l p Hsame Hp; [discriminate|].
  cbn [path] in Hp |- *.
  destruct (h !! l) as [o|] eqn:Hl; [|discriminate].
  destruct (Hsame l o Hl) as (o' & -> & -> & ->).
  destruct (parent o) as [q|]; [|exact Hp].
  destruct (path fuel h q) as [pp|e] eqn:Hq; [|discriminate].
  by rewrite (IH h h' q pp Hsame Hq).
Qed.

(** What every create method leaves, [t] being the new objects after the
    child. *)
Lemma adopted h n o ch k nm child t fuel p :
  h !! n = Some o → body o = Namespace_ ch k →
  path fuel h n = Ok p →
  let h' := <[n := adopt o ch k nm (length h)]> h
            ++ mkObj nm (Some n) child :: t in
  path fuel h' n = Ok p ∧
  path (S fuel) h' (length h) = Ok (p ++ [nm]) ∧
  Namespace_get h' n nm = Ok (length h) ∧
  (∀ key, key ≠ nm → Namespace_get h' n key = Namespace_get h n key).
Proof.
  intros Hn Hb Hp h'.
  pose proof (lookup_lt_Some _ _ _ Hn) as Hlt.
  assert (h' !! n = Some (adopt o ch k nm (length h))) as Hn'.
  { unfold h'. rewrite lookup_app_l by (by rewrite length_insert).
    by apply list_lookup_insert_eq. }
  assert (path fuel h' n = Ok p) as Hp'.
  { apply (path_preserved fuel h); [|done]. intros x ox Hx.
    pose proof (lookup_lt_Some _ _ _ Hx) as Hxlt.
    unfold h'. rewrite lookup_app_l by (by rewrite length_insert).
    destruct (decide (x = n)) as [->|Hne].
    - rewrite list_lookup_insert_eq by done. eexists. split; [done|].
      by simplify_eq.
    - rewrite list_lookup_insert_ne by done. by exists ox. }
  split; [done|]. split.
  - apply (child_path h' n (length h) (mkObj nm (Some n) child)); [|done..].
    unfold h'. rewrite lookup_app_r by (by rewrite length_insert).
    by rewrite length_insert, Nat.sub_diag.
  - unfold Namespace_get. rewrite Hn', Hn, Hb. cbn [adopt body]. split.
    + by rewrite dict_get_set_eq.
    + intros key Hkey. by rewrite dict_get_set_ne.
Qed.

(** X3. Each create method gives the new child the path of its namespace
    followed by the child's name, binds the name to it, and leaves the
    path of the namespace and the bindings of every other name as they
    were.  The entry unit of a new Function lies one level further down,
    under the Function's own name, and the Function is not ended. *)
Theorem created_child_path s n nm fuel p :
  is_namespace (heap s) n → path fuel (heap s) n = Ok p →
  let l := length (heap s) in
  let placed s1 :=
    path fuel (heap s1) n = Ok p ∧
    path (S fuel) (heap s1) l = Ok (p ++ [nm]) ∧
    Namespace_get (heap s1) n nm = Ok l ∧
    (∀ key, key ≠ nm →
       Namespace_get (heap s1) n key = Namespace_get (heap s) n key) in
  (∃ s1, Namespace_create_namespace n nm s = (Ok l, s1) ∧ placed s1) ∧
  (∀ tg desc, ∃ s1,
     Namespace_create_mcfunction n nm tg desc s = (Ok l, s1) ∧ placed s1 ∧
     is_unit (heap s1) l (mkMCFunction desc (default [] tg) [] None)) ∧
  (∀ ps, ∃ s1, Namespace_create_class n nm ps s = (Ok l, s1) ∧ placed s1) ∧
  (∀ t, ∃ s1, Namespace_create_template n nm t s = (Ok l, s1) ∧ placed s1) ∧
  (∀ ar desc tg, ∃ s1,
     Namespace_create_function n nm ar desc tg s = (Ok l, s1) ∧ placed s1 ∧
     is_function (heap s1) l (mkFunction ar None (l + 1) (l + 1) false) ∧
     children_of (heap s1) l = [(nm, l + 1)] ∧
     is_unit (heap s1) (l + 1) (mkMCFunction desc (default [] tg) [] None) ∧
     path (S (S fuel)) (heap s1) (l + 1) = Ok (p ++ [nm; nm])).
Proof.
  intros (o & ch & k & Hn & Hb) Hp l placed.
  pose proof (lookup_lt_Some _ _ _ Hn) as Hlt.
  repeat split.
  - eexists. split; [by apply (Namespace_create_namespace_at s n o ch k)|].
    exact (adopted (heap s) n o ch k nm _ [] fuel p Hn Hb Hp).
  - intros tg desc.
    eexists. split; [by apply (Namespace_create_mcfunction_at s n o ch k)|].
    split; [exact (adopted (heap s) n o ch k nm _ [] fuel p Hn Hb Hp)|].
    eexists. split.
    { cbn [heap]. rewrite lookup_app_r by (by rewrite length_insert).
      by rewrite length_insert, Nat.sub_diag. }
    reflexivity.
  - intros ps.
    eexists. split; [by apply (Namespace_create_class_at s n o ch k)|].
    exact (adopted (heap s) n o ch k nm _ [] fuel p Hn Hb Hp).
  - intros t.
    eexists. split; [by apply (Namespace_create_template_at s n o ch k)|].
    exact (adopted (heap s) n o ch k nm _ [] fuel p Hn Hb Hp).
  - intros ar desc tg.
    eexists. split; [by apply (Namespace_create_function_at s n o ch k)|].
    pose proof (adopted (heap s) n o ch k nm
                  (Namespace_ [(nm, l + 1)]
                     (IsFunction (mkFunction ar None (l + 1) (l + 1) false)))
                  [fresh_unit nm (length (heap s)) (default [] tg) desc]
                  fuel p Hn Hb Hp) as Hplaced.
    cbn [heap]. fold l in Hplaced |- *. unfold fresh_function.
    split; [exact Hplaced|].
    assert (∀ j x, [fresh_function l nm (Some n) ar;
                    fresh_unit nm l (default [] tg) desc] !! j = Some x →
              (<[n := adopt o ch k nm l]> (heap s)
               ++ [fresh_function l nm (Some n) ar;
                   fresh_unit nm l (default [] tg) desc]) !! (l + j) = Some x)
      as Hnew.
    { intros j x Hx. rewrite lookup_app_r by (rewrite length_insert; unfold l; lia).
      rewrite length_insert. by replace (l + j - length (heap s)) with j by (unfold l; lia). }
    pose proof (Hnew 0 _ eq_refl) as H0. rewrite Nat.add_0_r in H0.
    pose proof (Hnew 1 _ eq_refl) as H1.
    split; [by eexists _, _|].
    split; [unfold children_of; unfold fresh_function in H0; by rewrite H0|].
    split; [by eexists|].
    destruct Hplaced as (_ & Hl & _).
    replace (p ++ [nm; nm]) with ((p ++ [nm]) ++ [nm]) by by rewrite <- app_assoc.
    by apply (child_path _ l (l + 1) (fresh_unit nm l (default [] tg) desc)).
Qed.

Lemma created_child_path_witness :
  (is_namespace (heap open_state) 0 ∧ path 1 (heap open_state) 0 = Ok ["ns"]) ∧
  ∃ s1, Namespace_create_function 0 "g" [] "" None open_state = (Ok 3, s1) ∧
        path 2 (heap s1) 3 = Ok ["ns"; "g"] ∧
        path 3 (heap s1) 4 = Ok ["ns"; "g"; "g"] ∧
        Namespace_get (heap s1) 0 "f" = Ok 1.
Proof.
  assert (is_namespace (heap open_state) 0) as Hn.
  { eexists _, _, _. split; reflexivity. }
  split; [split; [exact Hn|reflexivity]|].
  destruct (created_child_path open_state 0 "g" 1 ["ns"] Hn eq_refl)
    as (_ & _ & _ & _ & Hfn).
  destruct (Hfn [] "" None) as (s1 & Hrun & (_ & Hp & _ & Hkeep) & _ & _ & _ & Hentry).
  exists s1. split; [exact Hrun|]. split; [exact Hp|]. split; [exact Hentry|].
  rewrite (Hkeep "f") by discriminate. reflexivity.
Defined.

(** ** A Function after [return_], and after [end] *)

Section Frozen.
Context `{!Collaborators}.

Lemma Function_describe_at s self text o ch fd oe de :
  heap s !! self = Some o → body o = Namespace_ ch (IsFunction fd) →
  heap s !! entry_point fd = Some oe → body oe = MCFunction_ de →
  Function_describe self text s =
    (Ok (), mkState
              (<[entry_point fd := mkObj (name oe) (parent oe)
                   (MCFunction_
                      (mkMCFunction text (tags de) (commands de) (mc_continuation de)))]>
                 (heap s))
              (invoked s)).
Proof.
  intros Hs Hb He Hbe. unfold Function_describe.
  erewrite bind_ok by (eapply get_function_at; eauto).
  erewrite bind_ok by (eapply get_mcfunction_at; eauto).
  by eapply set_mcfunction_at.
Qed.

Lemma Function_return_open s self var o ch fd ou d :
  heap s !! self = Some o → body o = Namespace_ ch (IsFunction fd) →
  was_ended fd = false →
  heap s !! current_mcfunction fd = Some ou → body ou = MCFunction_ d →
  Function_return_ self var s =
    (Ok (), mkState
              (<[current_mcfunction fd := mkObj (name ou) (parent ou)
                   (MCFunction_
                      (mkMCFunction (description d) (tags d)
                         (commands d ++ [var_to_var var STD_RET]) None))]>
                 (heap s))
              (invoked s)).
Proof.
  intros Hs Hb Hopen Hu Hbu.
  pose proof (lookup_lt_Some _ _ _ Hu) as Hult.
  assert (self ≠ current_mcfunction fd) as Hne.
  { intros Heq. rewrite <- Heq in Hu. congruence. }
  unfold Function_return_.
  erewrite bind_ok by (by eapply Function_add_command_open).
  erewrite bind_ok; last first.
  { eapply get_function_at; [|exact Hb]. cbn [heap].
    rewrite list_lookup_insert_ne by done. exact Hs. }
  erewrite set_unit_continuation_at;
    [|cbn [heap]; by apply list_lookup_insert_eq|reflexivity].
  cbn [heap invoked name parent]. by rewrite list_insert_insert_eq.
Qed.

(** X4. [return_] copies the value to the return register at the cursor
    and clears the continuation of the unit there; it does not end the
    Function, so a later command lands behind the copy in the same unit.
    [end] then sets the continuation of that unit to the continuation of
    the Function: a then-branch that returned still goes on to the unit
    after the conditional.  Once ended, [return_] fails and changes
    nothing. *)
Theorem return_then_end s self var cmds o ch fd ou d :
  heap s !! self = Some o → body o = Namespace_ ch (IsFunction fd) →
  was_ended fd = false →
  heap s !! current_mcfunction fd = Some ou → body ou = MCFunction_ d →
  let copied := commands d ++ [var_to_var var STD_RET] in
  ∃ s1 s2 s3,
    Function_return_ self var s = (Ok (), s1) ∧
    is_unit (heap s1) (current_mcfunction fd)
      (mkMCFunction (description d) (tags d) copied None) ∧
    is_function (heap s1) self fd ∧
    Function_add_command self cmds s1 = (Ok (), s2) ∧
    is_unit (heap s2) (current_mcfunction fd)
      (mkMCFunction (description d) (tags d) (copied ++ cmds) None) ∧
    Function_end self s1 = (Ok (), s3) ∧
    is_unit (heap s3) (current_mcfunction fd)
      (mkMCFunction (description d) (tags d) copied (continuation fd)) ∧
    Function_return_ self var s3 = (Raise (AssertionError ""), s3).
Proof.
  intros Hs Hb Hopen Hu Hbu copied.
  pose proof (lookup_lt_Some _ _ _ Hs) as Hlt.
  pose proof (lookup_lt_Some _ _ _ Hu) as Hult.
  assert (self ≠ current_mcfunction fd) as Hne.
  { intros Heq. rewrite <- Heq in Hu. congruence. }
  pose proof (Function_return_open s self var o ch fd ou d Hs Hb Hopen Hu Hbu) as Hret.
  set (s1 := mkState _ _) in Hret.
  assert (heap s1 !! self = Some o) as Hs1.
  { unfold s1. cbn [heap]. by rewrite list_lookup_insert_ne. }
  assert (heap s1 !! current_mcfunction fd =
            Some (mkObj (name ou) (parent ou)
                    (MCFunction_ (mkMCFunction (description d) (tags d) copied None))))
    as Hu1.
  { unfold s1. cbn [heap]. by apply list_lookup_insert_eq. }
  pose proof (Function_add_command_open s1 self cmds o ch fd _ _ Hs1 Hb Hopen Hu1 eq_refl)
    as Hadd.
  pose proof (Function_end_open s1 self o ch fd _ _ Hs1 Hb Hopen Hu1 eq_refl) as Hend.
  eexists s1, _, _.
  split; [exact Hret|].
  split; [eexists; split; [exact Hu1|reflexivity]|].
  split; [exists o, ch; split; [exact Hs1|exact Hb]|].
  split; [exact Hadd|]. split.
  { eexists. split;
      [cbn [heap]; apply list_lookup_insert_eq; unfold s1; cbn [heap];
       by rewrite length_insert|reflexivity]. }
  split; [exact Hend|]. split.
  { eexists. split;
      [cbn [heap]; rewrite list_lookup_insert_ne by done;
       apply list_lookup_insert_eq; unfold s1; cbn [heap];
       by rewrite length_insert|reflexivity]. }
  unfold Function_return_. erewrite bind_raise; [reflexivity|].
  eapply Function_add_command_ended;
    [cbn [heap]; apply list_lookup_insert_eq; rewrite length_insert;
     unfold s1; cbn [heap]; by rewrite length_insert
    |reflexivity|reflexivity].
Qed.

(** X5. What [end] freezes and what it does not.  On an ended Function
    [comment], [return_] and [c_call_function] fail on their first step
    and leave the store as it is: nothing is emitted, no vararg is pushed.
    [describe] has no such guard: it still rewrites the description of the
    entry unit, and nothing else of it. *)
Theorem ended_function_guards s self o ch fd :
  heap s !! self = Some o → body o = Namespace_ ch (IsFunction fd) →
  was_ended fd = true →
  (∀ text fmt, Function_comment self text fmt s = (Raise (AssertionError ""), s)) ∧
  (∀ var, Function_return_ self var s = (Raise (AssertionError ""), s)) ∧
  (∀ function arg varargs,
     Function_c_call_function self function arg varargs s
       = (Raise (AssertionError ""), s)) ∧
  (∀ text oe de,
     heap s !! entry_point fd = Some oe → body oe = MCFunction_ de →
     ∃ s1, Function_describe self text s = (Ok (), s1) ∧
           is_unit (heap s1) (entry_point fd)
             (mkMCFunction text (tags de) (commands de) (mc_continuation de)) ∧
           is_function (heap s1) self fd ∧
           ∀ l, l ≠ entry_point fd → heap s1 !! l = heap s !! l).
Proof.
  intros Hs Hb Hended.
  pose proof (λ cmds, Function_add_command_ended s self cmds o ch fd Hs Hb Hended)
    as Hguard.
  split; [|split; [|split]].
  - intros text fmt. apply Hguard.
  - intros var. unfold Function_return_. by erewrite bind_raise.
  - intros function arg varargs.
    unfold Function_c_call_function, c_call_function_body, Function_comment.
    by erewrite bind_raise.
  - intros text oe de He Hbe.
    pose proof (lookup_lt_Some _ _ _ He) as Helt.
    assert (self ≠ entry_point fd) as Hne.
    { intros Heq. rewrite <- Heq in He. congruence. }
    eexists. split; [by eapply Function_describe_at|]. cbn [heap].
    split; [eexists; split; [by apply list_lookup_insert_eq|reflexivity]|].
    split; [exists o, ch; split; [by rewrite list_lookup_insert_ne|done]|].
    intros l Hl. by rewrite list_lookup_insert_ne.
Qed.

(** X6. [c_if] on an ended Function fails, but only at the point where
    it emits the dispatch: by then the then-branch and the continuation unit
    have been created and bound as children.  The store is not put back:
    the Function has two more children, among them a then-branch that is not
    ended and has no continuation, while its cursor and its units are as
    they were. *)
Theorem c_if_after_end s self condition o ch fd :
  heap s !! self = Some o → body o = Namespace_ ch (IsFunction fd) →
  was_ended fd = true →
  let l := length (heap s) in
  ∃ s',
    Function_c_if self condition s = (Raise (AssertionError ""), s') ∧
    heap s' =
      <[self := mkObj (name o) (parent o)
                  (Namespace_ (if_children ch l) (IsFunction fd))]> (heap s)
      ++ [ fresh_function l (if_name ch) (Some self) [];
           fresh_unit (if_name ch) l [] "";
           fresh_unit (continue_name (dict_set (if_name ch) l ch)) self [] "" ] ∧
    Namespace_get (heap s') self (continue_name (dict_set (if_name ch) l ch))
      = Ok (l + 2) ∧
    unended (heap s') l ∧
    (∀ x, x ≠ self → x < l → heap s' !! x = heap s !! x).
Proof.
  intros Hs Hb Hended l.
  pose proof (lookup_lt_Some _ _ _ Hs) as Hlt.
  eexists. split.
  - unfold Function_c_if.
    step by (by eapply get_children_at).
    step with Namespace_create_function_at.
    step with get_children_at.
    step with Namespace_create_mcfunction_at.
    rewrite list_insert_insert_eq. cbv zeta.
    step with get_function_at.
    erewrite bind_raise; [reflexivity|].
    eapply Function_add_command_ended; [find|reflexivity|exact Hended].
  - cbn [heap]. fold l. split; [reflexivity|]. split; [|split].
    + unfold Namespace_get.
      rewrite lookup_old by (by rewrite length_insert).
      rewrite list_lookup_insert_eq by done. cbn [body adopt].
      unfold continue_name, if_name. by rewrite dict_get_set_eq.
    + exists (mkFunction [] None (l + 1) (l + 1) false). split; [|reflexivity].
      eexists _, _. split;
        [rewrite lookup_new0 by (by rewrite length_insert); reflexivity
        |reflexivity].
    + intros x Hx Hxl.
      rewrite lookup_old by (by rewrite length_insert).
      by rewrite list_lookup_insert_ne.
Qed.

End Frozen.

Lemma return_then_end_witness :
  (heap open_state !! 1 =
     Some (mkObj "f" (Some 0)
             (Namespace_ [("f", 2)] (IsFunction (mkFunction [] None 2 2 false)))) ∧
   heap open_state !! 2 =
     Some (mkObj "f" (Some 1) (MCFunction_ (mkMCFunction "" [] [] None)))) ∧
  ∃ s1 s3,
    @Function_return_ demo 1 "x" open_state = (Ok (), s1) ∧
    Function_end 1 s1 = (Ok (), s3) ∧
    @Function_return_ demo 1 "x" s3 = (Raise (AssertionError ""), s3).
Proof.
  split; [split; reflexivity|].
  destruct (@return_then_end demo open_state 1 "x" [] _ _ _ _ _
              eq_refl eq_refl eq_refl eq_refl eq_refl)
    as (s1 & s2 & s3 & Hret & _ & _ & _ & _ & Hend & _ & Hagain).
  exists s1, s3. split; [exact Hret|]. split; [exact Hend|exact Hagain].
Defined.

Lemma ended_function_guards_witness :
  heap ended_state !! 1 =
    Some (mkObj "f" (Some 0)
            (Namespace_ [("f", 2); ("if1", 3); ("if-continue2", 5)]
               (IsFunction (mkFunction [] None 2 5 true)))) ∧
  @Function_c_call_function demo 1 3 (Some "x") ["a"] ended_state
    = (Raise (AssertionError ""), ended_state) ∧
  ∃ s1, Function_describe 1 "late" ended_state = (Ok (), s1) ∧
        is_unit (heap s1) 2
          (mkMCFunction "late" []
             [ say "1";
               ComposedCommand
                 [LiteralCommand "execute if entity @s run" []; FunctionCall 4];
               ComposedCommand
                 [LiteralCommand "execute unless entity @s run" []; FunctionCall 5] ]
             None).
Proof.
  split; [reflexivity|].
  destruct (@ended_function_guards demo ended_state 1 _ _ _ eq_refl eq_refl eq_refl)
    as (_ & _ & Hcall & Hdescribe).
  split; [apply Hcall|].
  destruct (Hdescribe "late" _ _ eq_refl eq_refl) as (s1 & Hrun & Hunit & _).
  exists s1. split; [exact Hrun|exact Hunit].
Defined.

Lemma c_if_after_end_witness :
  heap ended_state !! 1 =
    Some (mkObj "f" (Some 0)
            (Namespace_ [("f", 2); ("if1", 3); ("if-continue2", 5)]
               (IsFunction (mkFunction [] None 2 5 true)))) ∧
  ∃ s', @Function_c_if demo 1 "entity @p" ended_state
          = (Raise (AssertionError ""), s') ∧
        Namespace_get (heap s') 1 "if3" = Ok 6 ∧
        Namespace_get (heap s') 1 "if-continue4" = Ok 8 ∧
        unended (heap s') 6.
Proof.
  split; [reflexivity|].
  destruct (@c_if_after_end demo ended_state 1 "entity @p" _ _ _
              eq_refl eq_refl eq_refl)
    as (s' & Hrun & Hheap & Hcont & Hopen & _).
  exists s'. split; [exact Hrun|]. split; [by rewrite Hheap|].
  split; [exact Hcont|exact Hopen].
Defined.

(** ** The names [c_if] gives *)

Lemma to_uint_nonnil n : Nat.to_uint n ≠ Decimal.Nil.
Proof.
  rewrite <- (Unsigned.of_to n) at 1. rewrite Unsigned.to_of.
  apply unorm_nonnil.
Qed.

Lemma str_inj a b : str a = str b → a = b.
Proof.
  unfold str. intros Heq. apply Unsigned.to_uint_inj.
  apply (f_equal NilZero.uint_of_string) in Heq.
  rewrite !NilZero.usu in Heq by apply to_uint_nonnil.
  by injection Heq.
Qed.

Lemma str_digit n t : str n ≠ "-" +:+ t.
Proof. unfold str. destruct (Nat.to_uint n); discriminate. Qed.

Lemma if_name_inj a b : "if" +:+ str a = "if" +:+ str b → a = b.
Proof. intros Heq. apply str_inj. by injection Heq. Qed.

Lemma continue_name_inj a b :
  "if-continue" +:+ str a = "if-continue" +:+ str b → a = b.
Proof. intros Heq. apply str_inj. by injection Heq. Qed.

Lemma if_not_continue a b : "if" +:+ str a ≠ "if-continue" +:+ str b.
Proof.
  intros Heq. injection Heq as Heq.
  exact (str_digit a ("continue" +:+ str b) Heq).
Qed.

Section DictAppend.
Context {K V : Type} `{EqDecision K}.
Implicit Types (d : list (K * V)) (k : K) (v : V).

Lemma dict_set_new k v d : dict_get k d = None → dict_set k v d = d ++ [(k, v)].
Proof.
  induction d as [|[k' v'] d IH]; cbn [dict_get dict_set]; [done|].
  destruct (decide (k = k')); [done|]. intros Hd. by rewrite IH.
Qed.

Lemma dict_get_app k d1 d2 :
  dict_get k (d1 ++ d2) =
    match dict_get k d1 with Some v => Some v | None => dict_get k d2 end.
Proof.
  induction d1 as [|[k' v'] d1 IH]; cbn [dict_get app]; [done|].
  by destruct (decide (k = k')).
Qed.

Lemma dict_set_values k v d x : x ∈ (dict_set k v d).*2 → x = v ∨ x ∈ d.*2.
Proof.
  induction d as [|[k' v'] d IH]; cbn [dict_set].
  - intros Hx. left. by apply list_elem_of_singleton in Hx.
  - destruct (decide (k = k')); cbn [fmap list_fmap snd];
      intros [->|Hx]%elem_of_cons.
    + by left.
    + right. by right.
    + right. by left.
    + destruct (IH Hx); [by left|right; by right].
Qed.

End DictAppend.

Lemma if_children_free ch l :
  free_names ch → if_children ch l = ch ++ if_pair ch l.
Proof.
  intros Hfree. unfold if_children, if_pair, if_name, continue_name.
  destruct (Hfree (length ch) (le_n _)) as [Hif _].
  cbv zeta. rewrite (dict_set_new _ _ ch Hif).
  rewrite length_app. cbn [length]. rewrite Nat.add_1_r.
  destruct (Hfree (S (length ch)) (le_S _ _ (le_n _))) as [_ Hcont].
  rewrite dict_set_new.
  - by rewrite <- app_assoc.
  - rewrite dict_get_app, Hcont. cbn [dict_get].
    rewrite decide_False; [done|]. intros Heq. symmetry in Heq.
    by apply if_not_continue in Heq.
Qed.

Lemma free_names_grow ch l : free_names ch → free_names (ch ++ if_pair ch l).
Proof.
  intros Hfree j Hj. rewrite length_app in Hj. cbn [if_pair length] in Hj.
  destruct (Hfree j ltac:(lia)) as [Hif Hcont].
  rewrite !dict_get_app, Hif, Hcont. unfold if_pair. cbn [dict_get]. split.
  - rewrite decide_False by (intros Heq%if_name_inj; lia).
    rewrite decide_False; [done|]. apply if_not_continue.
  - rewrite decide_False by (intros Heq; symmetry in Heq; by apply if_not_continue in Heq).
    rewrite decide_False; [done|]. intros Heq%continue_name_inj. lia.
Qed.

Lemma free_names_NoDup ch l :
  free_names ch → NoDup ch.*1 → NoDup (ch ++ if_pair ch l).*1.
Proof.
  intros Hfree Hnd.
  destruct (Hfree (length ch) (le_n _)) as [Hif _].
  destruct (Hfree (S (length ch)) (le_S _ _ (le_n _))) as [_ Hcont].
  apply dict_get_None_keys in Hif, Hcont.
  rewrite fmap_app. apply NoDup_app. split; [done|]. split.
  - intros x Hx [->|[->|[]%elem_of_nil]%elem_of_cons]%elem_of_cons; done.
  - cbn. apply NoDup_cons. split; [|apply NoDup_singleton].
    intros Heq%list_elem_of_singleton. by apply if_not_continue in Heq.
Qed.

Section Conditionals.
Context `{!Collaborators}.

(** X7. The names [c_if] chooses are new as long as no child already
    carries a name [if<j>] or [if-continue<j>] with [j] at or beyond the
    number of children.  Then any run of conditionals on one Function
    succeeds, replaces no child, and appends two children per conditional;
    the names stay distinct, and the condition on the names still holds
    afterwards. *)
Theorem c_if_appends_children conditions : ∀ s self o ch fd ou d,
  heap s !! self = Some o → body o = Namespace_ ch (IsFunction fd) →
  was_ended fd = false →
  heap s !! current_mcfunction fd = Some ou → body ou = MCFunction_ d →
  free_names ch →
  ∃ ifs s' new,
    c_if_all self conditions s = (Ok ifs, s') ∧
    length ifs = length conditions ∧
    children_of (heap s') self = ch ++ new ∧
    length new = 2 * length conditions ∧
    free_names (ch ++ new) ∧
    (NoDup ch.*1 → NoDup (ch ++ new).*1) ∧
    (∀ key c, dict_get key ch = Some c →
       Namespace_get (heap s') self key = Ok c).
Proof.
  induction conditions as [|condition rest IH];
    intros s self o ch fd ou d Hs Hb Hopen Hu Hbu Hfree.
  - exists [], s, []. rewrite app_nil_r.
    split; [reflexivity|]. split; [reflexivity|].
    split; [by rewrite (children_of_at _ _ _ _ _ Hs Hb)|].
    split; [reflexivity|]. split; [exact Hfree|]. split; [done|].
    intros key c Hkey. unfold Namespace_get. by rewrite Hs, Hb, Hkey.
  - pose proof (lookup_lt_Some _ _ _ Hs) as Hlt.
    pose proof (lookup_lt_Some _ _ _ Hu) as Hult.
    pose proof (Function_c_if_at s self condition o ch fd ou d Hs Hb Hopen Hu Hbu)
      as Hif. cbv zeta in Hif.
    rewrite (if_children_free ch _ Hfree) in Hif.
    set (l := length (heap s)) in *.
    set (s1 := mkState _ _) in Hif.
    assert (heap s1 !! self =
              Some (mkObj (name o) (parent o)
                      (Namespace_ (ch ++ if_pair ch l)
                         (IsFunction (moved_to fd (l + 2)))))) as Hs1.
    { unfold s1. cbn [heap]. rewrite lookup_old by (by rewrite !length_insert).
      by apply list_lookup_insert_eq; rewrite length_insert. }
    assert (heap s1 !! (l + 2) =
              Some (fresh_unit (continue_name (dict_set (if_name ch) l ch))
                      self [] "")) as Hu1.
    { unfold s1. cbn [heap].
      by rewrite lookup_new by (by rewrite !length_insert). }
    destruct (IH s1 self _ _ (moved_to fd (l + 2)) _ _ Hs1 eq_refl Hopen Hu1 eq_refl
                (free_names_grow ch l Hfree))
      as (ifs & s' & new & Hrest & Hlen & Hch & Hnew & Hfree' & Hnd & Hkept).
    exists (l :: ifs), s', (if_pair ch l ++ new).
    rewrite app_assoc. split.
    { cbn [c_if_all]. erewrite bind_ok by exact Hif.
      erewrite bind_ok by exact Hrest. reflexivity. }
    split; [cbn [length]; by rewrite Hlen|].
    split; [exact Hch|].
    split; [rewrite length_app, Hnew; cbn [if_pair length]; lia|].
    split; [exact Hfree'|].
    split; [intros Hnd0; apply Hnd; by apply free_names_NoDup|].
    intros key c Hkey. apply Hkept. by rewrite dict_get_app, Hkey.
Qed.

End Conditionals.

Lemma c_if_appends_children_witness :
  (heap open_state !! 1 =
     Some (mkObj "f" (Some 0)
             (Namespace_ [("f", 2)] (IsFunction (mkFunction [] None 2 2 false)))) ∧
   heap open_state !! 2 =
     Some (mkObj "f" (Some 1) (MCFunction_ (mkMCFunction "" [] [] None))) ∧
   free_names [("f", 2)]) ∧
  ∃ ifs s' new,
    @c_if_all demo 1 ["entity @s"; "entity @p"] open_state = (Ok ifs, s') ∧
    children_of (heap s') 1 = [("f", 2)] ++ new ∧ length new = 4.
Proof.
  assert (free_names [("f", 2)]) as Hfree.
  { intros j _. split; vm_compute; reflexivity. }
  split; [split; [reflexivity|split; [reflexivity|exact Hfree]]|].
  destruct (@c_if_appends_children demo ["entity @s"; "entity @p"] open_state 1
              _ _ _ _ _ eq_refl eq_refl eq_refl eq_refl eq_refl Hfree)
    as (ifs & s' & new & Hrun & _ & Hch & Hlen & _).
  exists ifs, s', new. split; [exact Hrun|]. split; [exact Hch|exact Hlen].
Defined.

Section Nested.
Context `{!Collaborators}.

Lemma if_children_if1 e l :
  if_children [("if1", e)] l = [("if1", l); ("if-continue1", l + 2)].
Proof. reflexivity. Qed.

(** The store after a conditional inside the then-branch of the first
    conditional of a Function with one child. *)
Lemma nested_c_if_at s self outer inner o ch fd ou d :
  heap s !! self = Some o → body o = Namespace_ ch (IsFunction fd) →
  length ch = 1 → was_ended fd = false →
  heap s !! current_mcfunction fd = Some ou → body ou = MCFunction_ d →
  let l := length (heap s) in
  (if_ ← Function_c_if self outer; in_ ← Function_c_if if_ inner; mret (if_, in_)) s =
    (Ok (l, l + 3),
     mkState
       (<[self := mkObj (name o) (parent o)
            (Namespace_ (if_children ch l) (IsFunction (moved_to fd (l + 2))))]>
          (<[current_mcfunction fd := mkObj (name ou) (parent ou)
               (MCFunction_
                  (with_commands d
                     (commands d ++ if_commands outer (l + 1) (l + 2))))]>
             (heap s))
        ++ [ mkObj "if1" (Some self)
               (Namespace_ [("if1", l + 3); ("if-continue1", l + 5)]
                  (IsFunction (mkFunction [] (Some (l + 2)) (l + 1) (l + 5) false)));
             mkObj "if1" (Some l)
               (MCFunction_
                  (mkMCFunction "" [] (if_commands inner (l + 4) (l + 5)) None));
             fresh_unit (continue_name (dict_set (if_name ch) l ch)) self [] "";
             then_branch (l + 3) "if1" l;
             fresh_unit "if1" (l + 3) [] "";
             fresh_unit "if-continue1" l [] "" ])
       (invoked s)).
Proof.
  intros Hs Hb Hlen Hopen Hu Hbu l.
  pose proof (lookup_lt_Some _ _ _ Hs) as Hlt.
  pose proof (lookup_lt_Some _ _ _ Hu) as Hult.
  erewrite bind_ok by (by eapply Function_c_if_at).
  cbv zeta. fold l.
  assert (if_name ch = "if1") as Hname by (unfold if_name; by rewrite Hlen).
  rewrite Hname.
  erewrite bind_ok; last first.
  { eapply (Function_c_if_at _ l inner (then_branch l "if1" self) [("if1", l + 1)]
              _ (fresh_unit "if1" l [] "") _).
    - cbn [heap]. rewrite lookup_new0 by (by rewrite !length_insert). reflexivity.
    - reflexivity.
    - reflexivity.
    - cbn [heap current_mcfunction].
      rewrite lookup_new by (by rewrite !length_insert). reflexivity.
    - reflexivity. }
  cbv zeta. subst l. tidy.
  cbn [then_branch fresh_unit name parent].
  rewrite <- app_assoc. cbn [app]. rewrite if_children_if1.
  rewrite <- !Nat.add_assoc. cbn [Nat.add].
  reflexivity.
Qed.

Lemma nested_export_at outer inner :
  nested_export outer inner =
    Ok [ (["ns"; "f"; "f"], 2);
         (["ns"; "f"; "if1"; "if1"; "if1"], 7);
         (["ns"; "f"; "if1"; "if-continue1"], 8);
         (["ns"; "f"; "if-continue2"], 5) ].
Proof. vm_compute. reflexivity. Qed.


(** X8. A conditional inside the then-branch of a Function's first
    conditional rebinds the then-branch's own entry unit.  A Function with
    one child (as every Function has when it is created) names its first
    then-branch "if1"; that then-branch has one child, its entry unit
    "if1", so its own first conditional is named "if1" again and replaces
    the entry unit in [children].  The entry unit stays the [entry_point],
    receives the inner dispatch and is still called by the enclosing
    Function, but no namespace holds it any more: in the export of such a
    program the unit is missing. *)
Theorem nested_if_loses_entry s self outer inner o ch fd ou d :
  heap s !! self = Some o → body o = Namespace_ ch (IsFunction fd) →
  length ch = 1 → was_ended fd = false →
  heap s !! current_mcfunction fd = Some ou → body ou = MCFunction_ d →
  closed (heap s) = true →
  (∃ if_ in_ s' entry,
     (if_ ← Function_c_if self outer;
      in_ ← Function_c_if if_ inner;
      mret (if_, in_)) s = (Ok (if_, in_), s') ∧
     name_of (heap s') if_ = Some "if1" ∧
     name_of (heap s') in_ = Some "if1" ∧
     children_of (heap s') if_ = [("if1", in_); ("if-continue1", in_ + 2)] ∧
     (∃ fdi, is_function (heap s') if_ fdi ∧ entry_point fdi = entry ∧
             was_ended fdi = false) ∧
     is_unit (heap s') entry
       (mkMCFunction "" [] (if_commands inner (in_ + 1) (in_ + 2)) None) ∧
     is_unit (heap s') (current_mcfunction fd)
       (with_commands d (commands d ++ if_commands outer entry (if_ + 2))) ∧
     (∀ r, ¬ reach (heap s') r entry)) ∧
  nested_export outer inner =
    Ok [ (["ns"; "f"; "f"], 2);
         (["ns"; "f"; "if1"; "if1"; "if1"], 7);
         (["ns"; "f"; "if1"; "if-continue1"], 8);
         (["ns"; "f"; "if-continue2"], 5) ].
Proof.
  intros Hs Hb Hlen Hopen Hu Hbu Hclosed. split; [|apply nested_export_at].
  pose proof (lookup_lt_Some _ _ _ Hs) as Hlt.
  pose proof (lookup_lt_Some _ _ _ Hu) as Hult.
  assert (self ≠ current_mcfunction fd) as Hne.
  { intros Heq. rewrite <- Heq in Hu. congruence. }
  pose proof (nested_c_if_at s self outer inner o ch fd ou d Hs Hb Hlen Hopen Hu Hbu)
    as Hrun. cbv zeta in Hrun.
  set (l := length (heap s)) in *.
  set (old := <[self := _]> (<[current_mcfunction fd := _]> (heap s))) in Hrun.
  set (new := [_; _; _; _; _; _]) in Hrun.
  assert (length old = l) as Hold by (unfold old; by rewrite !length_insert).
  assert (∀ j, (old ++ new) !! (l + j) = new !! j) as Hnew.
  { intros j. by apply lookup_new. }
  pose proof (Hnew 0) as H0. rewrite Nat.add_0_r in H0.
  exists l, (l + 3), (mkState (old ++ new) (invoked s)), (l + 1).
  cbn [heap]. unfold name_of, children_of.
  rewrite H0, !Hnew. cbn [new lookup list_lookup].
  split; [exact Hrun|]. split; [reflexivity|]. split; [reflexivity|].
  split.
  { cbn [body]. by rewrite <- !Nat.add_assoc. }
  split.
  { eexists. split; [eexists _, _; split; [exact H0|reflexivity]|].
    split; reflexivity. }
  split.
  { eexists. split; [rewrite (Hnew 1); reflexivity|]. cbn [body].
    by rewrite <- !Nat.add_assoc. }
  split.
  { eexists. split.
    - rewrite lookup_old by lia. unfold old.
      rewrite list_lookup_insert_ne by done.
      apply list_lookup_insert_eq. lia.
    - reflexivity. }
  intros r Hreach.
  apply reach_last_child in Hreach as (m & Hm).
  destruct (decide (m < l)) as [Hml|Hml].
  - rewrite children_of_old in Hm by lia. unfold children_of, old in Hm.
    destruct (decide (m = self)) as [->|Hms].
    + rewrite list_lookup_insert_eq in Hm by (by rewrite length_insert).
      cbn [body] in Hm. unfold if_children in Hm. cbv zeta in Hm.
      apply dict_set_values in Hm as [Hm|Hm]; [lia|].
      apply dict_set_values in Hm as [Hm|Hm]; [lia|].
      assert (l + 1 < length (heap s)); [|unfold l in *; lia].
      apply (closed_child (heap s) self); [done|].
      by rewrite (children_of_at _ _ _ _ _ Hs Hb).
    + rewrite list_lookup_insert_ne in Hm by done.
      destruct (decide (m = current_mcfunction fd)) as [->|Hmu].
      * rewrite list_lookup_insert_eq in Hm by done. cbn in Hm.
        by apply elem_of_nil in Hm.
      * rewrite list_lookup_insert_ne in Hm by done.
        assert (l + 1 < length (heap s)); [|unfold l in *; lia].
        by apply (closed_child (heap s) m).
  - replace m with (l + (m - l)) in Hm by lia.
    unfold children_of in Hm. rewrite Hnew in Hm.
    destruct (m - l) as [|[|[|[|[|[|j]]]]]]; cbn in Hm;
      repeat (apply elem_of_cons in Hm as [Hm|Hm]; [lia|]);
      by apply elem_of_nil in Hm.
Qed.

End Nested.

Lemma nested_if_loses_entry_witness :
  (heap open_state !! 1 =
     Some (mkObj "f" (Some 0)
             (Namespace_ [("f", 2)] (IsFunction (mkFunction [] None 2 2 false)))) ∧
   heap open_state !! 2 =
     Some (mkObj "f" (Some 1) (MCFunction_ (mkMCFunction "" [] [] None))) ∧
   closed (heap open_state) = true) ∧
  ∃ if_ in_ s' entry,
    (if_ ← @Function_c_if demo 1 "entity @s";
     in_ ← @Function_c_if demo if_ "entity @p";
     mret (if_, in_)) open_state = (Ok (if_, in_), s') ∧
    children_of (heap s') if_ = [("if1", in_); ("if-continue1", in_ + 2)] ∧
    (∃ fdi, is_function (heap s') if_ fdi ∧ entry_point fdi = entry ∧
            was_ended fdi = false) ∧
    ∀ r, ¬ reach (heap s') r entry.
Proof.
  split; [repeat split; reflexivity|].
  destruct (proj1 (@nested_if_loses_entry demo open_state 1 "entity @s" "entity @p"
                     _ _ _ _ _ eq_refl eq_refl eq_refl eq_refl eq_refl eq_refl
                     eq_refl))
    as (if_ & in_ & s' & entry & Hrun & _ & _ & Hch & Hentry & _ & _ & Hlost).
  exists if_, in_, s', entry.
  split; [exact Hrun|]. split; [exact Hch|]. split; [exact Hentry|exact Hlost].
Defined.

(** ** The [with] statement *)

Lemma guarded_ok {A} (block : M A) (exit_ : M unit) s a s1 s2 :
  block s = (Ok a, s1) → exit_ s1 = (Ok (), s2) →
  guarded block exit_ s = (Ok a, s2).
Proof.
  intros Hblock Hexit. unfold guarded. rewrite Hblock.
  by erewrite bind_ok by exact Hexit.
Qed.

Lemma guarded_raise {A} (block : M A) (exit_ : M unit) s e s1 s2 :
  block s = (Raise e, s1) → exit_ s1 = (Ok (), s2) →
  guarded block exit_ s = (Raise e, s2).
Proof.
  intros Hblock Hexit. unfold guarded. rewrite Hblock.
  by erewrite bind_ok by exact Hexit.
Qed.

(** X9. A Function used as the manager of a [with] statement is ended
    when the block is left, whether the block returned or raised; the
    outcome of the block is the outcome of the statement, no template is
    invoked on the way out, and the Function takes no command
    afterwards.  With a Namespace of another class as the manager the
    statement is its block and nothing more. *)
Theorem with_function_ends {A} s self (block : nat → M A) r s1 fd cmds :
  block self s = (r, s1) →
  is_function (heap s1) self fd →
  (was_ended fd = false → ∃ d, is_unit (heap s1) (current_mcfunction fd) d) →
  ∃ s2 fd2,
    with_Function self block s = (r, s2) ∧
    is_function (heap s2) self fd2 ∧ was_ended fd2 = true ∧
    invoked s2 = invoked s1 ∧
    Function_add_command self cmds s2 = (Raise (AssertionError ""), s2) ∧
    with_Function self (fun _ => mret ()) s2 = (Ok (), s2) ∧
    with_Namespace self block s = (r, s1).
Proof.
  intros Hblock (o & ch & Hs & Hb) Hunit.
  assert (∃ s2 o2, Function_end self s1 = (Ok (), s2) ∧
                   heap s2 !! self = Some o2 ∧
                   body o2 = Namespace_ ch (IsFunction (ended fd)) ∧
                   invoked s2 = invoked s1) as (s2 & o2 & Hend & Hs2 & Hb2 & Hinv).
  { destruct (was_ended fd) eqn:Hw.
    - exists s1, o. split; [by eapply Function_end_ended|].
      split; [done|]. split; [|done]. rewrite Hb. destruct fd. cbn in Hw.
      by rewrite Hw.
    - destruct (Hunit eq_refl) as (d & ou & Hu & Hbu).
      eexists _, _. split; [by eapply Function_end_open|]. cbn [heap invoked].
      split; [apply list_lookup_insert_eq; rewrite length_insert;
              by eapply lookup_lt_Some|].
      split; reflexivity. }
  exists s2, (ended fd).
  assert (Function_end self s2 = (Ok (), s2)) as Hagain.
  { by eapply Function_end_ended. }
  split.
  { unfold with_Function, with_, Namespace___enter__, Function___exit__.
    erewrite bind_ok by reflexivity.
    destruct r as [a|e]; [by eapply guarded_ok|by eapply guarded_raise]. }
  split; [by exists o2, ch|]. split; [done|]. split; [done|].
  split; [by eapply Function_add_command_ended|].
  split.
  { unfold with_Function, with_, Namespace___enter__, Function___exit__.
    erewrite bind_ok by reflexivity. by eapply guarded_ok. }
  unfold with_Namespace, with_, Namespace___enter__, Namespace___exit__.
  erewrite bind_ok by reflexivity.
  destruct r as [a|e]; [by eapply guarded_ok|by eapply guarded_raise].
Qed.

Lemma with_function_ends_witness :
  (Function_c_while 1 open_state = (Raise NotImplementedError, open_state) ∧
   is_function (heap open_state) 1 (mkFunction [] None 2 2 false) ∧
   ∃ d, is_unit (heap open_state) 2 d) ∧
  ∃ s2 fd2,
    with_Function 1 Function_c_while open_state = (Raise NotImplementedError, s2) ∧
    is_function (heap s2) 1 fd2 ∧ was_ended fd2 = true.
Proof.
  assert (is_function (heap open_state) 1 (mkFunction [] None 2 2 false)) as Hfn.
  { eexists _, _. split; reflexivity. }
  assert (∃ d, is_unit (heap open_state) 2 d) as Hunit.
  { eexists _, _. split; reflexivity. }
  split; [split; [reflexivity|split; [exact Hfn|exact Hunit]]|].
  destruct (with_function_ends open_state 1 Function_c_while _ _ _ [] eq_refl Hfn
              (fun _ => Hunit))
    as (s2 & fd2 & Hrun & Hfn2 & Hended & _).
  exists s2, fd2. split; [exact Hrun|]. split; [exact Hfn2|exact Hended].
Defined.

(** ** lib.std *)

Section StdLoaded.
Context `{!Collaborators}.
Variable log : string → string → list Command.
Variables import_tools import_object import_stack : External unit.

(** The four objects the statements create, allocated from [l] on. *)
Lemma std_statements_at s :
  let l := length (heap s) in
  std_statements log s =
    (Ok (mkStd l (UniqueScoreboardObjective "mcutils_reborn" l)
           (Namespace_get_unique_scoreboard_var l "arg" None)
           (Namespace_get_unique_scoreboard_var l "ret" None)
           (UniqueTag "mcutils_reborn" l) (l + 1) (l + 2)),
     mkState
       (heap s
        ++ [ mkObj "mcutils_reborn_std" None
               (Namespace_ [("load", l + 2)] PlainNamespace);
             mkObj "load" (Some l) FunctionTag_;
             mkObj "load" (Some l)
               (Namespace_ [("load", l + 3)]
                  (IsFunction (mkFunction [] None (l + 3) (l + 3) true)));
             mkObj "load" (Some (l + 2))
               (MCFunction_
                  (mkMCFunction "Load the mcutils_reborn standard library."
                     [inl "minecraft:load"]
                     (load_commands log
                        (UniqueScoreboardObjective "mcutils_reborn" l)
                        (UniqueTag "mcutils_reborn" l) (l + 1))
                     None)) ])
       (invoked s)).
Proof.
  intros l. subst l. unfold std_statements, new_Namespace.
  step by reflexivity.
  step by apply Namespace_create_function_tag_at.
  step with Namespace_create_function_at.
  rewrite <- app_assoc. unfold adopt, fresh_function, fresh_unit.
  cbn [app name parent default dict_set]. rewrite <- !Nat.add_assoc. cbn [Nat.add].
  erewrite bind_ok; last first.
  { unfold with_Function, with_, Namespace___enter__, Function___exit__.
    erewrite bind_ok by reflexivity.
    eapply guarded_ok.
    - erewrite bind_ok; [|eapply Function_describe_at; side].
      eapply Function_add_command_open; side.
    - eapply Function_end_open; side. }
  tidy. reflexivity.
Qed.

(** X10. Loading [lib.std].  The module imports [tools], runs its
    statements (lines 13 to 40), and then imports [lib.object] and
    [lib.stack]; what it gives is what these two imports make of the store
    the statements leave, and it fails where they fail.  On the store the
    import of [tools] leaves, the statements create the namespace
    "mcutils_reborn_std", the function tag "load", the Function "load" and
    its entry unit, and change nothing of the store besides.  The tag is
    not a child, so the name "load" is bound to the Function, although tag
    and Function have the same path.  The [with] statement leaves the
    Function ended: it takes no further command.  Its entry unit carries
    the description and the tag "minecraft:load" and holds, between the two
    logs, the setup commands in the order of the source, the call of the
    load tag last of them.  When the trailing imports begin, the export
    from the namespace is that one unit, at mcutils_reborn_std/load/load.
    The objective and the registers the methods of the core use are the
    ones the module defines. *)
Theorem lib_std_loaded s0 s limit :
  call_external import_tools s0 = (Ok (), s) →
  length (heap s) = std_namespace → 3 ≤ limit →
  ∃ m s',
    std_statements log s = (Ok m, s') ∧
    lib_std log import_tools import_object import_stack s0 =
      (call_external import_object;; call_external import_stack;; mret m) s' ∧
    (∀ h1 h2, import_object (heap s') = (Ok (), h1) →
       import_stack h1 = (Ok (), h2) →
       lib_std log import_tools import_object import_stack s0 =
         (Ok m, mkState h2 (invoked s0))) ∧
    (∀ e h1, import_object (heap s') = (Raise e, h1) →
       lib_std log import_tools import_object import_stack s0 =
         (Raise e, mkState h1 (invoked s0))) ∧
    m_std_namespace m = std_namespace ∧
    m_STD_OBJECTIVE m = STD_OBJECTIVE ∧
    m_STD_ARG m = STD_ARG ∧ m_STD_RET m = STD_RET ∧
    (∀ l o, heap s !! l = Some o → heap s' !! l = Some o) ∧
    length (heap s') = length (heap s) + 4 ∧
    heap s' !! m_STD_LOAD_TAG m =
      Some (mkObj "load" (Some std_namespace) FunctionTag_) ∧
    Namespace_get (heap s') std_namespace "load" = Ok (m_load m) ∧
    m_load m ≠ m_STD_LOAD_TAG m ∧
    path 2 (heap s') (m_STD_LOAD_TAG m) = Ok ["mcutils_reborn_std"; "load"] ∧
    path 2 (heap s') (m_load m) = Ok ["mcutils_reborn_std"; "load"] ∧
    (∃ fd, is_function (heap s') (m_load m) fd ∧ was_ended fd = true ∧
           is_unit (heap s') (entry_point fd)
             (mkMCFunction "Load the mcutils_reborn standard library."
                [inl "minecraft:load"]
                (log "mcutils_reborn" "Load standard library..."
                 ++ [ Comment "create the std objective" [];
                      LiteralCommand "scoreboard objectives add %s dummy"
                        [STD_OBJECTIVE];
                      Comment "reset the std objective" [];
                      LiteralCommand "scoreboard players reset * %s"
                        [STD_OBJECTIVE];
                      Comment "Kill all entities with the std tag" [];
                      LiteralCommand "kill @e[tag=%s]" [m_STD_TAG m];
                      FunctionCall (m_STD_LOAD_TAG m) ]
                 ++ log "mcutils_reborn" "Finished reloading!")
                None)) ∧
    (∀ cmds, Function_add_command (m_load m) cmds s'
               = (Raise (AssertionError ""), s')) ∧
    Namespace_get_all_mcfunctions limit (heap s') std_namespace
      = Ok [(["mcutils_reborn_std"; "load"; "load"], m_load m + 1)].
Proof.
  intros Htools Hstd Hlimit.
  pose proof (std_statements_at s) as Hrun. cbv zeta in Hrun.
  assert (invoked s = invoked s0) as Hinv.
  { unfold call_external in Htools.
    destruct (import_tools (heap s0)) as [r0 h0]. by injection Htools as _ <-. }
  unfold STD_ARG, STD_RET, STD_OBJECTIVE. rewrite <- Hstd.
  set (l := length (heap s)) in *.
  set (new := [_; _; _; _]) in Hrun.
  assert (∀ j x, new !! j = Some x → (heap s ++ new) !! (l + j) = Some x) as Hnew.
  { intros j x Hx. by rewrite lookup_new. }
  pose proof (Hnew 0 _ eq_refl) as H0. rewrite Nat.add_0_r in H0.
  pose proof (Hnew 1 _ eq_refl) as H1.
  pose proof (Hnew 2 _ eq_refl) as H2.
  pose proof (Hnew 3 _ eq_refl) as H3.
  eexists _, _. split; [exact Hrun|].
  match type of Hrun with
  | _ = (Ok ?given, ?left) =>
      assert (∀ k : std_module → M std_module,
                (call_external import_tools;; m ← std_statements log; k m) s0
                = k given left) as Hmodule
  end.
  { intros k. erewrite bind_ok by exact Htools. by erewrite bind_ok by exact Hrun. }
  split; [apply Hmodule|].
  split.
  { intros h1 h2 Hobject Hstack. unfold lib_std. rewrite Hmodule.
    unfold call_external, mbind, M_bind. cbn [heap invoked] in Hobject |- *.
    rewrite Hobject. cbn [heap invoked]. rewrite Hstack. cbn [heap invoked].
    by rewrite Hinv. }
  split.
  { intros e h1 Hobject. unfold lib_std. rewrite Hmodule.
    unfold call_external, mbind, M_bind. cbn [heap invoked] in Hobject |- *.
    rewrite Hobject. cbn [heap invoked]. by rewrite Hinv. }
  cbn [m_std_namespace m_STD_OBJECTIVE m_STD_ARG m_STD_RET m_STD_TAG
       m_STD_LOAD_TAG m_load heap].
  split; [reflexivity|]. split; [reflexivity|].
  split; [unfold Namespace_get_unique_scoreboard_var, STD_OBJECTIVE;
          by rewrite <- Hstd|].
  split; [unfold Namespace_get_unique_scoreboard_var, STD_OBJECTIVE;
          by rewrite <- Hstd|].
  split; [intros x ox Hx; by apply lookup_app_l_Some|].
  split; [by rewrite length_app|].
  split; [exact H1|].
  split; [unfold Namespace_get; by rewrite H0|].
  split; [lia|].
  split; [cbn [path]; rewrite H1; cbn [parent name]; by rewrite H0|].
  split; [cbn [path]; rewrite H2; cbn [parent name]; by rewrite H0|].
  split.
  { eexists. split; [eexists _, _; split; [exact H2|reflexivity]|].
    split; [reflexivity|].
    eexists. split; [exact H3|reflexivity]. }
  split.
  { intros cmds. eapply Function_add_command_ended;
      [exact H2|reflexivity|reflexivity]. }
  destruct limit as [|[|[|limit]]]; [lia..|].
  unfold Namespace_get_all_mcfunctions.
  cbn [get_all_mcfunctions_rec]. unfold collect_child.
  repeat first
    [ rewrite H0 | rewrite H2 | rewrite H3
    | progress cbn [body fmap list_fmap snd fst fold_result was_ended mbind
                    result_bind path parent name app dict_set dict_update
                    fold_left] ].
  rewrite <- Nat.add_assoc. reflexivity.
Qed.

End StdLoaded.

Lemma lib_std_loaded_witness :
  (call_external (fun h => (Ok (), h)) (mkState [] []) = (Ok (), mkState [] []) ∧
   length (heap (mkState [] [])) = @std_namespace demo ∧ 3 ≤ 1000) ∧
  ∃ m s',
    @lib_std demo (fun _ text => [say text]) (fun h => (Ok (), h))
      (fun h => (Ok (), h)) (fun h => (Ok (), h)) (mkState [] []) = (Ok m, s') ∧
    Namespace_get (heap s') 0 "load" = Ok 2 ∧
    @Namespace_get_all_mcfunctions demo 1000 (heap s') 0
      = Ok [(["mcutils_reborn_std"; "load"; "load"], 3)].
Proof.
  split; [split; [reflexivity|split; [reflexivity|lia]]|].
  destruct (@lib_std_loaded demo (fun _ text => [say text]) (fun h => (Ok (), h))
              (fun h => (Ok (), h)) (fun h => (Ok (), h))
              (mkState [] []) (mkState [] []) 1000 eq_refl eq_refl ltac:(lia))
    as (m & s' & Hrun & Hmodule & _ & _ & _ & _ & _ & _ & _ & _ & _ & Hget & _ & _
        & _ & _ & _ & Hexport).
  vm_compute in Hrun. injection Hrun as <- <-.
  eexists _, _. split; [rewrite Hmodule; vm_compute; reflexivity|].
  split; [exact Hget|exact Hexport].
Defined.

(** ** Templates: failures and keys *)

Section TemplateKeys.
Context `{!Collaborators}.




End TemplateKeys.

(** ** Classes that inherit from themselves *)

(** X13. [Class.get] does not look for cycles.  When a class has itself
    among its parents, a name that neither the class nor the parents
    declared before it provide is looked up in the class again, and again:
    the lookup fails with [RecursionError] whatever the stack allows. *)
Theorem class_cycle_overflows h c o ch ps1 ps2 nm :
  h !! c = Some o → body o = Namespace_ ch (IsClass (ps1 ++ c :: ps2)) →
  dict_get nm ch = None →
  Forall (fun q => ∀ fuel, is_KeyError (get (S fuel) h q nm)) ps1 →
  ∀ fuel, get fuel h c nm = Raise RecursionError.
Proof.
  intros Hc Hb Hmiss Hps1. induction fuel as [|fuel IH]; [done|].
  rewrite get_unfold, Hc, Hb. unfold Class_get, Namespace_get.
  rewrite Hc, Hb, Hmiss.
  destruct fuel as [|fuel].
  - destruct ps1 as [|q ps1]; reflexivity.
  - rewrite inherited_skip.
    + cbn [inherited]. by rewrite IH.
    + eapply Forall_impl; [exact Hps1|]. intros q Hq. apply Hq.
Qed.

(** ** The stack *)

Section Stack.
Context `{!Collaborators}.

(** X14. What the recursive methods return does not depend on how much
    stack there is, once there is enough: a path, a lookup or an export
    that returns within some depth returns the same with any greater
    depth. *)
Theorem more_stack_same_result h :
  (∀ fuel fuel' l p,
     fuel ≤ fuel' → path fuel h l = Ok p → path fuel' h l = Ok p) ∧
  (∀ fuel fuel' c nm r,
     fuel ≤ fuel' → get fuel h c nm = r → r ≠ Raise RecursionError →
     get fuel' h c nm = r) ∧
  (∀ limit limit' fuel fuel' r m,
     limit ≤ limit' → fuel ≤ fuel' →
     get_all_mcfunctions_rec limit fuel h r = Ok m →
     get_all_mcfunctions_rec limit' fuel' h r = Ok m) ∧
  (∀ limit limit' r m,
     limit ≤ limit' →
     Namespace_get_all_mcfunctions limit h r = Ok m →
     Namespace_get_all_mcfunctions limit' h r = Ok m).
Proof.
  assert (∀ limit limit' fuel fuel' r m,
            limit ≤ limit' → fuel ≤ fuel' →
            get_all_mcfunctions_rec limit fuel h r = Ok m →
            get_all_mcfunctions_rec limit' fuel' h r = Ok m) as Hexport.
  { intros limit limit' fuel fuel' r m Hlimit.
    revert fuel' r m. induction fuel as [|fuel IH]; intros fuel' r m Hfuel Hm;
      [discriminate|].
    destruct fuel' as [|fuel']; [lia|].
    cbn [get_all_mcfunctions_rec] in Hm |- *.
    destruct (h !! r) as [o|]; [|discriminate].
    destruct (body o) as [ch k| |]; try discriminate.
    revert Hm. apply fold_result_ext. intros a x r' _ Hx.
    unfold collect_child in Hx |- *.
    destruct (h !! x) as [ox|]; [|discriminate].
    destruct (body ox) as [chx kx|dx|]; [| |exact Hx].
    - destruct kx as [|fdx| |]; cbn in Hx |- *.
      + destruct (get_all_mcfunctions_rec limit fuel h x) as [sub|] eqn:Hsub;
          [|discriminate].
        by rewrite (IH fuel' x sub ltac:(lia) Hsub).
      + destruct (was_ended fdx).
        * cbn in Hx |- *.
          destruct (get_all_mcfunctions_rec limit fuel h x) as [sub|] eqn:Hsub;
            [|discriminate].
          by rewrite (IH fuel' x sub ltac:(lia) Hsub).
        * destruct (path limit h x); discriminate.
      + destruct (get_all_mcfunctions_rec limit fuel h x) as [sub|] eqn:Hsub;
          [|discriminate].
        by rewrite (IH fuel' x sub ltac:(lia) Hsub).
      + destruct (get_all_mcfunctions_rec limit fuel h x) as [sub|] eqn:Hsub;
          [|discriminate].
        by rewrite (IH fuel' x sub ltac:(lia) Hsub).
    - destruct (path limit h x) as [p|] eqn:Hp; [|discriminate].
      by rewrite (path_mono limit limit' h x p Hlimit Hp). }
  split; [intros fuel fuel' l p Hle; by apply path_mono|].
  split.
  { intros fuel fuel' c nm r Hle. induction Hle as [|fuel' Hle IH]; [done|].
    intros Hr Hnot. apply get_more; [by apply IH|done]. }
  split; [exact Hexport|].
  intros limit limit' r m Hle. by apply Hexport.
Qed.

End Stack.



Lemma class_cycle_overflows_witness :
  (heap self_inheriting !! 0 = Some (mkObj "A" None (Namespace_ [] (IsClass [0]))) ∧
   Forall (fun q => ∀ fuel, is_KeyError (get (S fuel) (heap self_inheriting) q "x"))
     []) ∧
  get 1000 (heap self_inheriting) 0 "x" = Raise RecursionError.
Proof.
  split; [split; [reflexivity|constructor]|].
  exact (class_cycle_overflows (heap self_inheriting) 0 _ [] [] [] "x"
           eq_refl eq_refl eq_refl (Forall_nil_2 _) 1000).
Defined.

Lemma more_stack_same_result_witness :
  (4 ≤ 1000 ∧ path 4 (heap ended_state) 4 = Ok ["ns"; "f"; "if1"; "if1"]) ∧
  path 1000 (heap ended_state) 4 = Ok ["ns"; "f"; "if1"; "if1"].
Proof.
  split; [split; [lia|reflexivity]|].
  apply (proj1 (@more_stack_same_result demo (heap ended_state)) 4 1000);
    [lia|reflexivity].
Defined.

(** ** Calls without varargs *)

Section PlainCall.
Context `{!Collaborators}.

(** X15. A call without varargs does not ask for the push routine: it
    needs the caller, open, and the callee only.  It emits the comment,
    the copy of the argument into the argument register when an argument is
    given, and the call of the callee's entry unit, in this order, at the
    caller's cursor.  The comment mentions the argument only when the
    argument is truthy, while the copy is emitted for every argument that
    is not [None]. *)
Theorem call_without_varargs s self function arg o ch fd ou d ofn chf fdf :
  heap s !! self = Some o → body o = Namespace_ ch (IsFunction fd) →
  was_ended fd = false →
  heap s !! current_mcfunction fd = Some ou → body ou = MCFunction_ d →
  heap s !! function = Some ofn → body ofn = Namespace_ chf (IsFunction fdf) →
  let text :=
    if from_option truthy false arg then "calling function %s with STD_ARG"
    else "calling function %s" in
  let emitted :=
    [Comment text [PathString function]]
    ++ match arg with Some a => [var_to_var a STD_ARG] | None => [] end
    ++ [FunctionCall (entry_point fdf)] in
  Function_c_call_function self function arg [] s =
    (Ok (), mkState
              (<[current_mcfunction fd := mkObj (name ou) (parent ou)
                   (MCFunction_ (with_commands d (commands d ++ emitted)))]>
                 (heap s))
              (invoked s)).
Proof.
  intros Hs Hb Hopen Hu Hbu Hf Hbf text emitted.
  pose proof (lookup_lt_Some _ _ _ Hu) as Hult.
  assert (self ≠ current_mcfunction fd) as Hne.
  { intros Heq. rewrite <- Heq in Hu. congruence. }
  assert (function ≠ current_mcfunction fd) as Hnf.
  { intros Heq. rewrite <- Heq in Hu. congruence. }
  assert (call_comment arg [] = text) as Htext.
  { unfold call_comment, text. by destruct (from_option truthy false arg). }
  assert (∀ s0 du cmds,
            heap s0 !! self = Some o →
            heap s0 !! current_mcfunction fd
              = Some (mkObj (name ou) (parent ou) (MCFunction_ du)) →
            Function_add_command self cmds s0 =
              (Ok (), mkState
                        (<[current_mcfunction fd := mkObj (name ou) (parent ou)
                             (MCFunction_ (with_commands du (commands du ++ cmds)))]>
                           (heap s0))
                        (invoked s0))) as Hadd.
  { intros s0 du cmds Hs0 Hu0.
    by rewrite (Function_add_command_open s0 self cmds o ch fd _ du Hs0 Hb Hopen Hu0). }
  unfold Function_c_call_function, c_call_function_body, Function_comment.
  rewrite Htext. cbn [for_each].
  erewrite bind_ok; last first.
  { eapply Function_add_command_open; [exact Hs|exact Hb|exact Hopen|exact Hu|exact Hbu]. }
  erewrite bind_ok by reflexivity.
  destruct arg as [a|].
  - erewrite bind_ok; last first.
    { eapply Hadd; cbn [heap].
      - by rewrite list_lookup_insert_ne.
      - by apply list_lookup_insert_eq. }
    erewrite bind_ok; last first.
    { eapply get_function_at; [|exact Hbf]. cbn [heap].
      by rewrite !list_lookup_insert_ne. }
    erewrite Hadd;
      [|cbn [heap]; by rewrite !list_lookup_insert_ne
       |cbn [heap]; apply list_lookup_insert_eq; by rewrite length_insert].
    cbn [heap invoked with_commands commands description tags mc_continuation].
    rewrite !list_insert_insert_eq. unfold emitted, with_commands.
    cbn [app]. by rewrite <- !app_assoc.
  - erewrite bind_ok by reflexivity.
    erewrite bind_ok; last first.
    { eapply get_function_at; [|exact Hbf]. cbn [heap].
      by rewrite !list_lookup_insert_ne. }
    erewrite Hadd;
      [|cbn [heap]; by rewrite !list_lookup_insert_ne
       |cbn [heap]; by apply list_lookup_insert_eq].
    cbn [heap invoked with_commands commands description tags mc_continuation].
    rewrite !list_insert_insert_eq. unfold emitted, with_commands.
    cbn [app]. by rewrite <- !app_assoc.
Qed.

End PlainCall.

Lemma call_without_varargs_witness :
  (heap calling_state !! 3 =
     Some (mkObj "f" (Some 0)
             (Namespace_ [("f", 4)] (IsFunction (mkFunction [] None 4 4 false)))) ∧
   heap calling_state !! 4 =
     Some (mkObj "f" (Some 3) (MCFunction_ (mkMCFunction "" [] [] None))) ∧
   heap calling_state !! 5 =
     Some (mkObj "g" (Some 0)
             (Namespace_ [("g", 6)] (IsFunction (mkFunction [] None 6 6 false))))) ∧
  @Function_c_call_function unwritten 3 5 (Some "x") [] calling_state
    = (Ok (),
       mkState
         (<[4 := mkObj "f" (Some 3)
                   (MCFunction_
                      (mkMCFunction "" []
                         [ Comment "calling function %s" [PathString 5];
                           @var_to_var unwritten "x" (@STD_ARG unwritten);
                           FunctionCall 6 ]
                         None))]> (heap calling_state))
         []).
Proof.
  split; [repeat split; reflexivity|].
  exact (@call_without_varargs unwritten calling_state 3 5 (Some "x") _ _ _ _ _ _ _ _
           eq_refl eq_refl eq_refl eq_refl eq_refl eq_refl eq_refl).
Defined.
